(** * Adion notifications: registry, instance lifecycle and queue drain loop

    A shallow embedding of [src/js/notifications.js] (classes
    [NotificationManager], [Notification], [ToastManager] and [Toast]) and the
    properties the specification states about them.

    What is modelled
    - the manager's fields ([notifications], a JavaScript [Map], kept as an
      insertion-ordered association list; [queue]; [isProcessing];
      [maxNotifications]);
    - the [Notification] objects, which the manager, the timers and the
      button handlers all alias: they live in a heap indexed by allocation
      order, and every method takes the reference of its receiver;
    - [setTimeout]/[clearTimeout] as a table of pending callbacks that the
      environment fires, the promise of every instance with the reactions
      attached by [then], and the micro-task queue;
    - exceptions: a method returns a completion (normal or abrupt) together
      with the world as it was left when the exception escaped;
    - of the DOM, what steers the lifecycle: whether an instance has a
      backdrop element, what the class-list calls of [open] and [close] raise
      on the class names of [showClass] and [hideClass], and which element a
      click on an action button lands on.

    What is abstracted
    - the rest of the DOM: the class lists themselves, the inner HTML and the
      styles are read by nothing in the file and are not kept. The rendering
      of [create] and [buildContent] is taken to complete; it is page markup
      concatenated into strings, and raises only on option values of the
      wrong shape (a position with white space in it, input attributes that
      are no object);
    - a user callback (a hook or a pre-confirm handler) is described by what
      it does on its own when called: return, raise, or return a promise.
      What is proved of hooks is proved of such hooks. A hook that calls the
      library is followed for [didClose], where it breaks the bound of the
      registry, by methods that take the body of the hook as code (module
      [Reentrant]);
    - [Math.random] is an oracle of the environment: the n-th draw is
      [random w n]. Two draws may coincide; a lemma that needs fresh ids says
      so.

    What is left out
    - the option fields that only reach the rendering, and the timeouts of
      [bindEvents], which only move the focus. The argument of [fire] is the
      options object after the merge with [defaultOptions]; the merge itself
      and the presets are modelled with [update], further down. *)

From Stdlib Require Import String Ascii Arith Lia Bool.
From stdpp Require Import base list.


(** ** Values *)

Abbreviation Id := nat (only parsing).      (* what [generateId] returns, the random suffix *)
Abbreviation Ref := nat (only parsing).     (* identity of a [Notification] object *)
Abbreviation Handle := nat (only parsing).  (* what [setTimeout] returns *)
Abbreviation Value := nat (only parsing).   (* an opaque JavaScript value *)

(** A thrown value, also the reason of a rejected promise. *)
Inductive Thrown :=
| TypeError (what : string)
| DOMException (name : string)
| UserValue (v : Value).

(** What a user-supplied callback does on its own when it is called. *)
Inductive Behaviour :=
| Returns
| Raises (e : Value).

(** [null] or a function. *)
Definition Hook := option Behaviour.

(** What [preConfirm()] / [preDeny()] does: return a plain value, raise, or
    return a [Promise] that the environment settles later. *)
Inductive PreHandler :=
| PreReturns (v : Value)
| PreRaises (e : Value)
| PrePromise.

Inductive HookName :=
| DidRender | WillOpen | DidOpen | WillClose | DidClose | DidDestroy.

(** ** Options: the fields of [defaultOptions] that steer the lifecycle *)

(** The value of [showClass] and [hideClass]: an object with the class names
    of the popup and of the backdrop. A field is [None] when what is there is
    no string. The caller's object replaces the default one as a whole (the
    merge of [fire] is shallow), so [{ popup: 'x' }] has no [backdrop]; and a
    [showClass] that is no object at all has neither. *)
Module ClassNames.
Record t := mk {
  popup : option string;
  backdrop : option string
}.
End ClassNames.

Module Options.
Record t := mk {
  timer : option nat;
  animation : bool;
  animationDuration : nat;
  allowOutsideClick : bool;
  allowEscapeKey : bool;
  preConfirm : option PreHandler;
  preDeny : option PreHandler;
  didOpen : Hook;
  didClose : Hook;
  willOpen : Hook;
  willClose : Hook;
  didRender : Hook;
  didDestroy : Hook;
  backdrop : bool;
  showClass : ClassNames.t;
  hideClass : ClassNames.t
}.
End Options.

(** [this.defaultOptions], lines 34-102. *)
Definition defaultOptions : Options.t := {|
  Options.timer := None;
  Options.animation := true;
  Options.animationDuration := 300;
  Options.allowOutsideClick := true;
  Options.allowEscapeKey := true;
  Options.preConfirm := None;
  Options.preDeny := None;
  Options.didOpen := None;
  Options.didClose := None;
  Options.willOpen := None;
  Options.willClose := None;
  Options.didRender := None;
  Options.didDestroy := None;
  Options.backdrop := true;
  Options.showClass :=
    {| ClassNames.popup := Some "animate__animated animate__fadeIn"%string;
       ClassNames.backdrop := Some "animate__animated animate__fadeIn"%string |};
  Options.hideClass :=
    {| ClassNames.popup := Some "animate__animated animate__fadeOut"%string;
       ClassNames.backdrop := Some "animate__animated animate__fadeOut"%string |}
|}.

Definition with_timer (ms : option nat) (o : Options.t) : Options.t :=
  Options.mk ms (Options.animation o) (Options.animationDuration o)
    (Options.allowOutsideClick o) (Options.allowEscapeKey o)
    (Options.preConfirm o) (Options.preDeny o) (Options.didOpen o)
    (Options.didClose o) (Options.willOpen o) (Options.willClose o)
    (Options.didRender o) (Options.didDestroy o)
    (Options.backdrop o) (Options.showClass o) (Options.hideClass o).

Definition with_animation (b : bool) (o : Options.t) : Options.t :=
  Options.mk (Options.timer o) b (Options.animationDuration o)
    (Options.allowOutsideClick o) (Options.allowEscapeKey o)
    (Options.preConfirm o) (Options.preDeny o) (Options.didOpen o)
    (Options.didClose o) (Options.willOpen o) (Options.willClose o)
    (Options.didRender o) (Options.didDestroy o)
    (Options.backdrop o) (Options.showClass o) (Options.hideClass o).

Definition with_allowOutsideClick (b : bool) (o : Options.t) : Options.t :=
  Options.mk (Options.timer o) (Options.animation o)
    (Options.animationDuration o) b (Options.allowEscapeKey o)
    (Options.preConfirm o) (Options.preDeny o) (Options.didOpen o)
    (Options.didClose o) (Options.willOpen o) (Options.willClose o)
    (Options.didRender o) (Options.didDestroy o)
    (Options.backdrop o) (Options.showClass o) (Options.hideClass o).

Definition with_allowEscapeKey (b : bool) (o : Options.t) : Options.t :=
  Options.mk (Options.timer o) (Options.animation o)
    (Options.animationDuration o) (Options.allowOutsideClick o) b
    (Options.preConfirm o) (Options.preDeny o) (Options.didOpen o)
    (Options.didClose o) (Options.willOpen o) (Options.willClose o)
    (Options.didRender o) (Options.didDestroy o)
    (Options.backdrop o) (Options.showClass o) (Options.hideClass o).

Definition with_preConfirm (f : option PreHandler) (o : Options.t) : Options.t :=
  Options.mk (Options.timer o) (Options.animation o)
    (Options.animationDuration o) (Options.allowOutsideClick o)
    (Options.allowEscapeKey o) f (Options.preDeny o) (Options.didOpen o)
    (Options.didClose o) (Options.willOpen o) (Options.willClose o)
    (Options.didRender o) (Options.didDestroy o)
    (Options.backdrop o) (Options.showClass o) (Options.hideClass o).

Definition with_willOpen (h : Hook) (o : Options.t) : Options.t :=
  Options.mk (Options.timer o) (Options.animation o)
    (Options.animationDuration o) (Options.allowOutsideClick o)
    (Options.allowEscapeKey o) (Options.preConfirm o) (Options.preDeny o)
    (Options.didOpen o) (Options.didClose o) h (Options.willClose o)
    (Options.didRender o) (Options.didDestroy o)
    (Options.backdrop o) (Options.showClass o) (Options.hideClass o).

Definition with_willClose (h : Hook) (o : Options.t) : Options.t :=
  Options.mk (Options.timer o) (Options.animation o)
    (Options.animationDuration o) (Options.allowOutsideClick o)
    (Options.allowEscapeKey o) (Options.preConfirm o) (Options.preDeny o)
    (Options.didOpen o) (Options.didClose o) (Options.willOpen o) h
    (Options.didRender o) (Options.didDestroy o)
    (Options.backdrop o) (Options.showClass o) (Options.hideClass o).

Definition with_didOpen (h : Hook) (o : Options.t) : Options.t :=
  Options.mk (Options.timer o) (Options.animation o)
    (Options.animationDuration o) (Options.allowOutsideClick o)
    (Options.allowEscapeKey o) (Options.preConfirm o) (Options.preDeny o)
    h (Options.didClose o) (Options.willOpen o) (Options.willClose o)
    (Options.didRender o) (Options.didDestroy o)
    (Options.backdrop o) (Options.showClass o) (Options.hideClass o).

Definition with_didClose (h : Hook) (o : Options.t) : Options.t :=
  Options.mk (Options.timer o) (Options.animation o)
    (Options.animationDuration o) (Options.allowOutsideClick o)
    (Options.allowEscapeKey o) (Options.preConfirm o) (Options.preDeny o)
    (Options.didOpen o) h (Options.willOpen o) (Options.willClose o)
    (Options.didRender o) (Options.didDestroy o)
    (Options.backdrop o) (Options.showClass o) (Options.hideClass o).

Definition with_didDestroy (h : Hook) (o : Options.t) : Options.t :=
  Options.mk (Options.timer o) (Options.animation o)
    (Options.animationDuration o) (Options.allowOutsideClick o)
    (Options.allowEscapeKey o) (Options.preConfirm o) (Options.preDeny o)
    (Options.didOpen o) (Options.didClose o) (Options.willOpen o)
    (Options.willClose o) (Options.didRender o) h
    (Options.backdrop o) (Options.showClass o) (Options.hideClass o).

Definition with_backdrop (b : bool) (o : Options.t) : Options.t :=
  Options.mk (Options.timer o) (Options.animation o)
    (Options.animationDuration o) (Options.allowOutsideClick o)
    (Options.allowEscapeKey o) (Options.preConfirm o) (Options.preDeny o)
    (Options.didOpen o) (Options.didClose o) (Options.willOpen o)
    (Options.willClose o) (Options.didRender o) (Options.didDestroy o)
    b (Options.showClass o) (Options.hideClass o).

Definition with_showClass (c : ClassNames.t) (o : Options.t) : Options.t :=
  Options.mk (Options.timer o) (Options.animation o)
    (Options.animationDuration o) (Options.allowOutsideClick o)
    (Options.allowEscapeKey o) (Options.preConfirm o) (Options.preDeny o)
    (Options.didOpen o) (Options.didClose o) (Options.willOpen o)
    (Options.willClose o) (Options.didRender o) (Options.didDestroy o)
    (Options.backdrop o) c (Options.hideClass o).

Definition with_hideClass (c : ClassNames.t) (o : Options.t) : Options.t :=
  Options.mk (Options.timer o) (Options.animation o)
    (Options.animationDuration o) (Options.allowOutsideClick o)
    (Options.allowEscapeKey o) (Options.preConfirm o) (Options.preDeny o)
    (Options.didOpen o) (Options.didClose o) (Options.willOpen o)
    (Options.willClose o) (Options.didRender o) (Options.didDestroy o)
    (Options.backdrop o) (Options.showClass o) c.

(** JavaScript truthiness of [options.timer] and of a timer handle: [null]
    and [0] are falsy. *)
Definition truthy (x : option nat) : bool :=
  match x with
  | Some (S _) => true
  | _ => false
  end.

(** ** Promises *)

(** The object passed to [resolve]. A property the object literal does not
    mention is absent ([None]): [{ isConfirmed: true }] has no [isDenied]. *)
Record Outcome := {
  isConfirmed : option bool;
  isDenied : option bool;
  value : option Value
}.

Inductive PromiseState :=
| Pending
| Fulfilled (o : Outcome)
| Rejected (e : Thrown).

(** The only reaction the file attaches to an instance's promise: the arrow
    function of [processQueue], attached by [then] with a fulfilment handler
    and no rejection handler. *)
Inductive Reaction :=
| DrainQueue.

Record Promise := {
  state : PromiseState;
  reactions : list Reaction
}.

(** ** Notification objects *)

Record Notification := {
  options : Options.t;
  id : Id;
  backdrop : bool;          (* [this.backdrop] is an element, not [null] *)
  timer : option Handle;
  isOpen : bool;
  isClosing : bool;
  promise : Promise
}.

Definition set_backdrop (b : bool) (n : Notification) : Notification :=
  {| options := options n; id := id n; backdrop := b; timer := timer n;
     isOpen := isOpen n; isClosing := isClosing n; promise := promise n |}.

Definition set_timer (t : option Handle) (n : Notification) : Notification :=
  {| options := options n; id := id n; backdrop := backdrop n; timer := t;
     isOpen := isOpen n; isClosing := isClosing n; promise := promise n |}.

Definition set_isOpen (b : bool) (n : Notification) : Notification :=
  {| options := options n; id := id n; backdrop := backdrop n; timer := timer n;
     isOpen := b; isClosing := isClosing n; promise := promise n |}.

Definition set_isClosing (b : bool) (n : Notification) : Notification :=
  {| options := options n; id := id n; backdrop := backdrop n; timer := timer n;
     isOpen := isOpen n; isClosing := b; promise := promise n |}.

Definition set_promise (p : Promise) (n : Notification) : Notification :=
  {| options := options n; id := id n; backdrop := backdrop n; timer := timer n;
     isOpen := isOpen n; isClosing := isClosing n; promise := p |}.

(** ** Timers, deferred results, log *)

Inductive Callback :=
| CbClose (r : Ref)      (* [() => { this.close(); }] of [startTimer] *)
| CbDestroy (r : Ref).   (* [() => { this.destroy(); }] of [close] *)

Record Timeout := {
  handle : Handle;
  delay : nat;
  callback : Callback
}.

Inductive Action := Confirm | Deny.

(** ** The world *)

Record World := {
  (* fields of the NotificationManager *)
  notifications : list (Id * Ref);
  queue : list Options.t;
  isProcessing : bool;
  maxNotifications : nat;
  (* the run time *)
  heap : list Notification;
  timeouts : list Timeout;
  nextHandle : Handle;
  deferreds : list (option (Ref * Action));
  microtasks : list Reaction;
  random : nat -> Id;
  draws : nat;
  log : list (Ref * HookName)
}.

Definition upd_notifications (f : list (Id * Ref) -> list (Id * Ref)) (w : World) : World :=
  {| notifications := f (notifications w); queue := queue w;
     isProcessing := isProcessing w; maxNotifications := maxNotifications w;
     heap := heap w; timeouts := timeouts w; nextHandle := nextHandle w;
     deferreds := deferreds w; microtasks := microtasks w;
     random := random w; draws := draws w; log := log w |}.

Definition upd_queue (f : list Options.t -> list Options.t) (w : World) : World :=
  {| notifications := notifications w; queue := f (queue w);
     isProcessing := isProcessing w; maxNotifications := maxNotifications w;
     heap := heap w; timeouts := timeouts w; nextHandle := nextHandle w;
     deferreds := deferreds w; microtasks := microtasks w;
     random := random w; draws := draws w; log := log w |}.

Definition upd_isProcessing (b : bool) (w : World) : World :=
  {| notifications := notifications w; queue := queue w;
     isProcessing := b; maxNotifications := maxNotifications w;
     heap := heap w; timeouts := timeouts w; nextHandle := nextHandle w;
     deferreds := deferreds w; microtasks := microtasks w;
     random := random w; draws := draws w; log := log w |}.

Definition upd_heap (f : list Notification -> list Notification) (w : World) : World :=
  {| notifications := notifications w; queue := queue w;
     isProcessing := isProcessing w; maxNotifications := maxNotifications w;
     heap := f (heap w); timeouts := timeouts w; nextHandle := nextHandle w;
     deferreds := deferreds w; microtasks := microtasks w;
     random := random w; draws := draws w; log := log w |}.

Definition upd_timeouts (f : list Timeout -> list Timeout) (w : World) : World :=
  {| notifications := notifications w; queue := queue w;
     isProcessing := isProcessing w; maxNotifications := maxNotifications w;
     heap := heap w; timeouts := f (timeouts w); nextHandle := nextHandle w;
     deferreds := deferreds w; microtasks := microtasks w;
     random := random w; draws := draws w; log := log w |}.

Definition upd_nextHandle (h : Handle) (w : World) : World :=
  {| notifications := notifications w; queue := queue w;
     isProcessing := isProcessing w; maxNotifications := maxNotifications w;
     heap := heap w; timeouts := timeouts w; nextHandle := h;
     deferreds := deferreds w; microtasks := microtasks w;
     random := random w; draws := draws w; log := log w |}.

Definition upd_deferreds (f : list (option (Ref * Action)) -> list (option (Ref * Action)))
    (w : World) : World :=
  {| notifications := notifications w; queue := queue w;
     isProcessing := isProcessing w; maxNotifications := maxNotifications w;
     heap := heap w; timeouts := timeouts w; nextHandle := nextHandle w;
     deferreds := f (deferreds w); microtasks := microtasks w;
     random := random w; draws := draws w; log := log w |}.

Definition upd_microtasks (f : list Reaction -> list Reaction) (w : World) : World :=
  {| notifications := notifications w; queue := queue w;
     isProcessing := isProcessing w; maxNotifications := maxNotifications w;
     heap := heap w; timeouts := timeouts w; nextHandle := nextHandle w;
     deferreds := deferreds w; microtasks := f (microtasks w);
     random := random w; draws := draws w; log := log w |}.

Definition upd_draws (d : nat) (w : World) : World :=
  {| notifications := notifications w; queue := queue w;
     isProcessing := isProcessing w; maxNotifications := maxNotifications w;
     heap := heap w; timeouts := timeouts w; nextHandle := nextHandle w;
     deferreds := deferreds w; microtasks := microtasks w;
     random := random w; draws := d; log := log w |}.

Definition upd_log (f : list (Ref * HookName) -> list (Ref * HookName)) (w : World) : World :=
  {| notifications := notifications w; queue := queue w;
     isProcessing := isProcessing w; maxNotifications := maxNotifications w;
     heap := heap w; timeouts := timeouts w; nextHandle := nextHandle w;
     deferreds := deferreds w; microtasks := microtasks w;
     random := random w; draws := draws w; log := f (log w) |}.

(** The world right after [new NotificationManager()] (lines 28-33):
    an empty map, an empty queue, not processing, at most five instances.
    Timer handles of a browser are positive. *)
Definition initial (rnd : nat -> Id) : World := {|
  notifications := [];
  queue := [];
  isProcessing := false;
  maxNotifications := 5;
  heap := [];
  timeouts := [];
  nextHandle := 1;
  deferreds := [];
  microtasks := [];
  random := rnd;
  draws := 0;
  log := []
|}.

(** ** Completions: state that survives an exception *)

Inductive Completion (A : Type) :=
| Normal (a : A)
| Abrupt (e : Thrown).
Arguments Normal {A} a.
Arguments Abrupt {A} e.

Definition JS (A : Type) : Type := World -> Completion A * World.

Definition ret {A} (a : A) : JS A := fun w => (Normal a, w).

Definition bind {A B} (m : JS A) (k : A -> JS B) : JS B :=
  fun w =>
    match m w with
    | (Normal a, w') => k a w'
    | (Abrupt e, w') => (Abrupt e, w')
    end.

Definition throw {A} (e : Thrown) : JS A := fun w => (Abrupt e, w).

Definition try_catch {A} (m : JS A) (h : Thrown -> JS A) : JS A :=
  fun w =>
    match m w with
    | (Normal a, w') => (Normal a, w')
    | (Abrupt e, w') => h e w'
    end.

Definition get : JS World := fun w => (Normal w, w).

Definition modify (f : World -> World) : JS unit := fun w => (Normal tt, f w).

Declare Scope js_scope.
Delimit Scope js_scope with js.
Notation "'let*' x ':=' m 'in' k" := (bind m (fun x => k))
  (at level 10, x name, m at level 100, k at level 200) : js_scope.
Notation "m '>>' k" := (bind m (fun _ => k))
  (at level 100, k at level 200, right associativity) : js_scope.
Local Open Scope js_scope.

(** ** Primitives of the run time *)

(** Reading [this]: the object behind a reference. *)
Definition this (r : Ref) : JS Notification :=
  fun w =>
    match heap w !! r with
    | Some n => (Normal n, w)
    | None => (Abrupt (TypeError "undefined receiver"%string), w)
    end.

(** Assigning fields of [this]. *)
Definition assign (r : Ref) (f : Notification -> Notification) : JS unit :=
  modify (upd_heap (alter f r)).

(** [new]: the fresh object is the next cell of the heap. *)
Definition alloc (n : Notification) : JS Ref :=
  fun w => (Normal (length (heap w)), upd_heap (fun h => h ++ [n]) w).

(** [setTimeout(cb, ms)]. *)
Definition setTimeout (cb : Callback) (ms : nat) : JS Handle :=
  fun w =>
    (Normal (nextHandle w),
     upd_nextHandle (S (nextHandle w))
       (upd_timeouts (fun ts => ts ++ [{| handle := nextHandle w; delay := ms; callback := cb |}]) w)).

Definition remove_handle (h : Handle) (ts : list Timeout) : list Timeout :=
  List.filter (fun t => negb (handle t =? h)) ts.

(** [clearTimeout(h)]. *)
Definition clearTimeout (h : Handle) : JS unit :=
  modify (upd_timeouts (remove_handle h)).

(** Running a callback that calls nothing of the library. *)
Definition behave (b : Behaviour) : JS unit :=
  match b with
  | Returns => ret tt
  | Raises e => throw (UserValue e)
  end.

(** Calling an optional callback: [if (this.options.f) this.options.f(...)].
    The callback is run as [Behaviour] describes it. What holds of the
    methods below holds for such callbacks; for a [didClose] that calls
    [fire], see [Reentrant]. *)
Definition call_hook (r : Ref) (name : HookName) (h : Hook) : JS unit :=
  match h with
  | None => ret tt
  | Some b => modify (upd_log (fun l => l ++ [(r, name)])) >> behave b
  end.

(** *** Class names

    [open] and [close] pass the class names of the options to the class list
    of the elements: [el.classList.add(...names.split(' '))]. The class list
    itself is read by nothing in the file and is not kept; what is kept is
    what the call can raise. *)

(** [s.split(sep)] for a one-character separator: the pieces between the
    separators, empty pieces included; the empty string gives one empty
    piece. *)
Fixpoint split (sep : ascii) (s : string) : list string :=
  match s with
  | EmptyString => [EmptyString]
  | String c s' =>
      if Ascii.eqb c sep then EmptyString :: split sep s'
      else match split sep s' with
           | t :: ts => String c t :: ts
           | [] => [String c EmptyString]
           end
  end.

(** [names.split(' ')] where [names] is a field of [showClass] or
    [hideClass]: reading [split] off a value that is no string is a
    TypeError. *)
Definition split_names (names : option string) : JS (list string) :=
  match names with
  | Some s => ret (split " " s)
  | None => throw (TypeError "split is not a function"%string)
  end.

(** ASCII white space of the DOM standard: tab, line feed, form feed,
    carriage return, space. *)
Definition ascii_whitespace (c : ascii) : bool :=
  Ascii.eqb c "009" || Ascii.eqb c "010" || Ascii.eqb c "012" || Ascii.eqb c "013"
  || Ascii.eqb c " ".

Fixpoint has_whitespace (s : string) : bool :=
  match s with
  | EmptyString => false
  | String c s' => ascii_whitespace c || has_whitespace s'
  end.

(** The token check of [DOMTokenList.add] and [DOMTokenList.remove], token by
    token: an empty token is a SyntaxError, a token with white space an
    InvalidCharacterError. *)
Fixpoint validate_tokens (tokens : list string) : JS unit :=
  match tokens with
  | [] => ret tt
  | t :: ts =>
      if String.eqb t EmptyString then throw (DOMException "SyntaxError"%string)
      else if has_whitespace t then throw (DOMException "InvalidCharacterError"%string)
      else validate_tokens ts
  end.

(** [el.classList.add(...tokens)] and [el.classList.remove(...tokens)]. *)
Definition classList_add (tokens : list string) : JS unit := validate_tokens tokens.

Definition classList_remove (tokens : list string) : JS unit := validate_tokens tokens.

(** *** The JavaScript [Map] held in [notifications] *)

(** [Map.prototype.set]: a present key keeps its place and gets the new
    value, a new key goes to the end. *)
Fixpoint Map_set (k : Id) (v : Ref) (m : list (Id * Ref)) : list (Id * Ref) :=
  match m with
  | [] => [(k, v)]
  | (k', v') :: m' => if k' =? k then (k, v) :: m' else (k', v') :: Map_set k v m'
  end.

(** [Map.prototype.delete]. *)
Fixpoint Map_delete (k : Id) (m : list (Id * Ref)) : list (Id * Ref) :=
  match m with
  | [] => []
  | (k', v') :: m' => if k' =? k then m' else (k', v') :: Map_delete k m'
  end.

(** [Map.prototype.values], in insertion order. *)
Definition Map_values (m : list (Id * Ref)) : list Ref := map snd m.

(** *** Promises *)

(** The [resolve] function of the instance's promise: settles a pending
    promise and queues its reactions; does nothing on a settled one. *)
Definition resolve (r : Ref) (o : Outcome) : JS unit :=
  let* n := this r in
  match state (promise n) with
  | Pending =>
      assign r (set_promise {| state := Fulfilled o; reactions := [] |}) >>
      modify (upd_microtasks (fun q => q ++ reactions (promise n)))
  | _ => ret tt
  end.

(** The [reject] function: the attached reactions have no rejection handler,
    so nothing is queued for them. *)
Definition reject (r : Ref) (e : Thrown) : JS unit :=
  let* n := this r in
  match state (promise n) with
  | Pending => assign r (set_promise {| state := Rejected e; reactions := [] |})
  | _ => ret tt
  end.

(** [promise.then(f)] with a fulfilment handler only. *)
Definition then_ (r : Ref) (f : Reaction) : JS unit :=
  let* n := this r in
  match state (promise n) with
  | Pending =>
      assign r (set_promise {| state := Pending; reactions := reactions (promise n) ++ [f] |})
  | Fulfilled _ => modify (upd_microtasks (fun q => q ++ [f]))
  | Rejected _ => ret tt
  end.

(** ** class Notification (lines 256-706) *)

Module Notification.

(** [generateId], line 277: one draw of [Math.random]. *)
Definition generateId : JS Id :=
  fun w => (Normal (random w (draws w)), upd_draws (S (draws w)) w).

(** [create], lines 281-332: builds the elements, the backdrop only when
    [options.backdrop] is set, then calls [didRender]. *)
Definition create (r : Ref) : JS unit :=
  let* n := this r in
  (if Options.backdrop (options n) then assign r (set_backdrop true) else ret tt) >>
  call_hook r DidRender (Options.didRender (options n)).

(** [startTimer], lines 657-669. *)
Definition startTimer (r : Ref) : JS unit :=
  let* n := this r in
  let* h := setTimeout (CbClose r) (default 0 (Options.timer (options n))) in
  assign r (set_timer (Some h)).

(** [clearTimer], lines 671-676: [if (this.timer)] is a truthiness test. *)
Definition clearTimer (r : Ref) : JS unit :=
  let* n := this r in
  match timer n with
  | Some (S h) => clearTimeout (S h) >> assign r (set_timer None)
  | _ => ret tt
  end.

(** [destroy], lines 683-705. *)
Definition destroy (r : Ref) : JS unit :=
  let* n := this r in
  call_hook r DidClose (Options.didClose (options n)) >>
  modify (upd_notifications (Map_delete (id n))) >>
  call_hook r DidDestroy (Options.didDestroy (options n)).

(** [open], lines 596-623; the class-list calls are lines 605-610. *)
Definition open (r : Ref) : JS unit :=
  let* n := this r in
  if isOpen n then ret tt
  else
    call_hook r WillOpen (Options.willOpen (options n)) >>
    (if Options.animation (options n) then
       (let* tokens := split_names (ClassNames.popup (Options.showClass (options n))) in
        classList_add tokens) >>
       (if backdrop n then
          let* tokens := split_names (ClassNames.backdrop (Options.showClass (options n))) in
          classList_add tokens
        else ret tt)
     else ret tt) >>
    assign r (set_isOpen true) >>
    (if truthy (Options.timer (options n)) then startTimer r else ret tt) >>
    call_hook r DidOpen (Options.didOpen (options n)).

(** [close], lines 625-655; the class-list calls are lines 639-646. *)
Definition close (r : Ref) : JS unit :=
  let* n := this r in
  if isClosing n || negb (isOpen n) then ret tt
  else
    assign r (set_isClosing true) >>
    call_hook r WillClose (Options.willClose (options n)) >>
    clearTimer r >>
    if Options.animation (options n)
    then
      (let* tokens := split_names (ClassNames.popup (Options.showClass (options n))) in
       classList_remove tokens) >>
      (let* tokens := split_names (ClassNames.popup (Options.hideClass (options n))) in
       classList_add tokens) >>
      (if backdrop n then
         (let* tokens := split_names (ClassNames.backdrop (Options.showClass (options n))) in
          classList_remove tokens) >>
         (let* tokens := split_names (ClassNames.backdrop (Options.hideClass (options n))) in
          classList_add tokens)
       else ret tt) >>
      let* _ := setTimeout (CbDestroy r) (Options.animationDuration (options n)) in
      ret tt
    else destroy r.

(** The constructor, lines 257-275. *)
Definition constructor (opts : Options.t) : JS Ref :=
  let* i := generateId in
  let* r := alloc {| options := opts; id := i; backdrop := false; timer := None;
                     isOpen := false; isClosing := false;
                     promise := {| state := Pending; reactions := [] |} |} in
  create r >>
  open r >>
  ret r.

(** The object literal passed to [resolve] by [confirm] and [deny]. *)
Definition outcome (a : Action) (v : option Value) : Outcome :=
  match a with
  | Confirm => {| isConfirmed := Some true; isDenied := None; value := v |}
  | Deny => {| isConfirmed := None; isDenied := Some true; value := v |}
  end.

(** [result.then(f).catch(g)] on the promise a pre-handler returned: it is
    recorded, and the environment settles it later. *)
Definition then_catch (r : Ref) (a : Action) : JS unit :=
  modify (upd_deferreds (fun d => d ++ [Some (r, a)])).

(** The body shared by [confirm] (lines 541-563) and [deny] (565-587). *)
Definition act (a : Action) (pre : option PreHandler) (r : Ref) : JS unit :=
  match pre with
  | Some PrePromise => then_catch r a
  | Some (PreRaises e) => throw (UserValue e)
  | Some (PreReturns v) => resolve r (outcome a (Some v)) >> close r
  | None => resolve r (outcome a None) >> close r
  end.

Definition confirm (r : Ref) : JS unit :=
  let* n := this r in
  act Confirm (Options.preConfirm (options n)) r.

Definition deny (r : Ref) : JS unit :=
  let* n := this r in
  act Deny (Options.preDeny (options n)) r.

(** [handleAction], lines 533-539. *)
Definition handleAction (r : Ref) (action : string) : JS unit :=
  if String.eqb action "confirm" then confirm r
  else if String.eqb action "deny" then deny r
  else ret tt.

(** The two callbacks of [then_catch], run when the pre-handler's promise
    settles: [(value) => { this.resolve(...); this.close(); }] and
    [(error) => { this.reject(error); }]. What the first one raises reaches
    the second one, because [catch] is chained after [then]. *)
Definition on_settled (r : Ref) (a : Action) (result : Value + Value) : JS unit :=
  match result with
  | inl v => try_catch (resolve r (outcome a (Some v)) >> close r) (fun e => reject r e)
  | inr e => reject r (UserValue e)
  end.

End Notification.

(** ** class NotificationManager (lines 27-250) *)

Module NotificationManager.

(** [getTopNotification], lines 143-146; [undefined] on an empty map. *)
Definition getTopNotification : JS (option Ref) :=
  let* w := get in
  ret (last (Map_values (notifications w))).

(** The [keydown] listener of [bindGlobalEvents], lines 123-130. *)
Definition onKeydown (key : string) : JS unit :=
  if String.eqb key "Escape" then
    let* top := getTopNotification in
    match top with
    | Some r =>
        let* n := this r in
        if Options.allowEscapeKey (options n) then Notification.close r else ret tt
    | None => ret tt
    end
  else ret tt.

(** The [click] listener, lines 133-140; the argument tells whether the
    target carries the class [notification-backdrop]. *)
Definition onClick (onBackdrop : bool) : JS unit :=
  if onBackdrop then
    let* top := getTopNotification in
    match top with
    | Some r =>
        let* n := this r in
        if Options.allowOutsideClick (options n) then Notification.close r else ret tt
    | None => ret tt
    end
  else ret tt.

(** [fire], lines 152-162. The argument is the merged object
    [{ ...this.defaultOptions, ...options }]; the result stands for
    [notification.promise], the promise of the returned reference. *)
Definition fire (opts : Options.t) : JS Ref :=
  let* r := Notification.constructor opts in
  let* n := this r in
  modify (upd_notifications (Map_set (id n) r)) >>
  let* w := get in
  (if maxNotifications w <? length (notifications w) then
     match Map_values (notifications w) with
     | oldestNotification :: _ => Notification.close oldestNotification
     | [] => throw (TypeError "oldestNotification is undefined"%string)
     end
   else ret tt) >>
  ret r.

(** [closeAll], lines 216-218. [Map.prototype.forEach] skips an entry
    deleted before its turn. *)
Fixpoint forEach_close (entries : list (Id * Ref)) : JS unit :=
  match entries with
  | [] => ret tt
  | (k, r) :: rest =>
      let* w := get in
      (if existsb (fun kv => fst kv =? k) (notifications w)
       then Notification.close r else ret tt) >>
      forEach_close rest
  end.

Definition closeAll : JS unit :=
  let* w := get in
  forEach_close (notifications w).

(** [processQueue], lines 239-249. *)
Definition processQueue : JS unit :=
  let* w := get in
  if isProcessing w || (length (queue w) =? 0) then ret tt
  else
    modify (upd_isProcessing true) >>
    match queue w with
    | opts :: rest =>
        modify (upd_queue (fun _ => rest)) >>
        let* p := fire opts in
        then_ p DrainQueue
    | [] => ret tt
    end.

(** The body of the method [queue], lines 234-237. *)
Definition queue (opts : Options.t) : JS unit :=
  modify (upd_queue (fun q => q ++ [opts])) >>
  processQueue.

(** What a reaction does when its micro-task runs; [DrainQueue] is
    [() => { this.isProcessing = false; this.processQueue(); }]. *)
Definition run_reaction (f : Reaction) : JS unit :=
  match f with
  | DrainQueue => modify (upd_isProcessing false) >> processQueue
  end.

End NotificationManager.

(** ** Hooks that call back into the library

    [Behaviour] describes a hook by what it does on its own: it returns or it
    raises, and [call_hook] runs it so. A hook is a function of the page,
    though, and it may call the library before it returns. This matters to
    the registry for the hooks that run while a closing instance is still
    registered, [willClose] and [didClose]: [destroy] calls [didClose] before
    it deletes the entry, so a call of [fire] made from inside it finds the
    closing instance first in the map.

    To follow such a hook, [destroy], [close] and [fire] are written once
    more, with the body of the [didClose] functions given as code:
    [didClose r b] is what the call [this.options.didClose(this.element)] of
    the instance [r] runs, [b] being the behaviour the options record. With
    [didClose r b := behave b] they are the methods above. *)

Module Reentrant.
Section With_didClose.
Variable didClose : Ref -> Behaviour -> JS unit.

(** [destroy], lines 683-705. *)
Definition destroy (r : Ref) : JS unit :=
  let* n := this r in
  match Options.didClose (options n) with
  | Some b => modify (upd_log (fun l => l ++ [(r, DidClose)])) >> didClose r b
  | None => ret tt
  end >>
  modify (upd_notifications (Map_delete (id n))) >>
  call_hook r DidDestroy (Options.didDestroy (options n)).

(** [close], lines 625-655. *)
Definition close (r : Ref) : JS unit :=
  let* n := this r in
  if isClosing n || negb (isOpen n) then ret tt
  else
    assign r (set_isClosing true) >>
    call_hook r WillClose (Options.willClose (options n)) >>
    Notification.clearTimer r >>
    if Options.animation (options n)
    then
      (let* tokens := split_names (ClassNames.popup (Options.showClass (options n))) in
       classList_remove tokens) >>
      (let* tokens := split_names (ClassNames.popup (Options.hideClass (options n))) in
       classList_add tokens) >>
      (if backdrop n then
         (let* tokens := split_names (ClassNames.backdrop (Options.showClass (options n))) in
          classList_remove tokens) >>
         (let* tokens := split_names (ClassNames.backdrop (Options.hideClass (options n))) in
          classList_add tokens)
       else ret tt) >>
      let* _ := setTimeout (CbDestroy r) (Options.animationDuration (options n)) in
      ret tt
    else destroy r.

(** [fire], lines 152-162. *)
Definition fire (opts : Options.t) : JS Ref :=
  let* r := Notification.constructor opts in
  let* n := this r in
  modify (upd_notifications (Map_set (id n) r)) >>
  let* w := get in
  (if maxNotifications w <? length (notifications w) then
     match Map_values (notifications w) with
     | oldestNotification :: _ => close oldestNotification
     | [] => throw (TypeError "oldestNotification is undefined"%string)
     end
   else ret tt) >>
  ret r.

End With_didClose.
End Reentrant.

(** ** Property lookup on the manager object

    The constructor assigns [this.queue = []] (line 31), and the class body
    declares a method [queue] (line 234). A method lives on the prototype; an
    own property of the same name is found first. *)

Inductive Member :=
| DataProperty
| Method.

(** The properties the constructor assigns, lines 29-34. *)
Definition own_properties : list string :=
  ["notifications"; "container"; "queue"; "isProcessing"; "maxNotifications";
   "defaultOptions"]%string.

(** The methods of the class body. *)
Definition prototype_methods : list string :=
  ["init"; "createContainer"; "bindGlobalEvents"; "getTopNotification"; "fire";
   "success"; "error"; "warning"; "info"; "question"; "loading"; "toast";
   "closeAll"; "getNotification"; "update"; "queue"; "processQueue"]%string.

Definition get_member (name : string) : option Member :=
  if existsb (String.eqb name) own_properties then Some DataProperty
  else if existsb (String.eqb name) prototype_methods then Some Method
  else None.

(** [notificationManager.name(...)]: calling what is not a function raises a
    [TypeError]. *)
Definition call_method {A} (name : string) (body : JS A) : JS A :=
  match get_member name with
  | Some Method => body
  | _ => throw (TypeError (name ++ " is not a function")%string)
  end.

(** ** The exported object [window.AYdocsNotifications] (lines 874-902) *)

Module AYdocsNotifications.

Definition fire (opts : Options.t) : JS Ref :=
  call_method "fire" (NotificationManager.fire opts).

Definition closeAll : JS unit :=
  call_method "closeAll" NotificationManager.closeAll.

Definition queue (opts : Options.t) : JS unit :=
  call_method "queue" (NotificationManager.queue opts).

End AYdocsNotifications.

(** ** The event loop *)

(** What the page and its user can do, one job at a time. *)
Inductive Event :=
| Fire (opts : Options.t)              (* Notify.fire(opts) *)
| Queue (opts : Options.t)             (* Notify.queue(opts) *)
| CloseAll                             (* Notify.closeAll() *)
| QueuePush (opts : Options.t)         (* Notify.manager.queue.push(opts) *)
| ProcessQueue                         (* Notify.manager.processQueue() *)
| Close (r : Ref)                      (* the close button, or instance.close() *)
| HandleAction (r : Ref) (action : string)   (* an action button *)
| Keydown (key : string)
| Click (onBackdrop : bool)
| TimeoutFires (h : Handle)            (* a pending setTimeout callback runs *)
| Settles (d : nat) (result : Value + Value) (* a pre-handler's promise settles *)
| Microtask.                           (* the next micro-task runs *)

(** A timer callback. *)
Definition run_callback (cb : Callback) : JS unit :=
  match cb with
  | CbClose r => Notification.close r
  | CbDestroy r => Notification.destroy r
  end.

Definition fire_timeout (h : Handle) : JS unit :=
  let* w := get in
  match List.find (fun t => handle t =? h) (timeouts w) with
  | Some t => clearTimeout h >> run_callback (callback t)
  | None => ret tt
  end.

Definition settle (d : nat) (result : Value + Value) : JS unit :=
  let* w := get in
  match deferreds w !! d with
  | Some (Some (r, a)) =>
      modify (upd_deferreds (<[d := None]>)) >>
      Notification.on_settled r a result
  | _ => ret tt
  end.

(** A reaction that raises rejects the promise [then] returned, which nobody
    observes. *)
Definition run_microtask : JS unit :=
  let* w := get in
  match microtasks w with
  | [] => ret tt
  | f :: rest =>
      modify (upd_microtasks (fun _ => rest)) >>
      try_catch (NotificationManager.run_reaction f) (fun _ => ret tt)
  end.

Definition handler (e : Event) : JS unit :=
  match e with
  | Fire opts => AYdocsNotifications.fire opts >> ret tt
  | Queue opts => AYdocsNotifications.queue opts
  | CloseAll => AYdocsNotifications.closeAll
  | QueuePush opts => modify (upd_queue (fun q => q ++ [opts]))
  | ProcessQueue => NotificationManager.processQueue
  | Close r => Notification.close r
  | HandleAction r action => Notification.handleAction r action
  | Keydown key => NotificationManager.onKeydown key
  | Click onBackdrop => NotificationManager.onClick onBackdrop
  | TimeoutFires h => fire_timeout h
  | Settles d result => settle d result
  | Microtask => run_microtask
  end.

(** One job: an exception that escapes it is reported and the world stays as
    the job left it. *)
Definition step (w : World) (e : Event) : World := snd (handler e w).

Definition run (es : list Event) (w : World) : World := fold_left step es w.

(** ** Observations *)

Definition promise_state (w : World) (r : Ref) : option PromiseState :=
  option_map (fun n => state (promise n)) (heap w !! r).

Definition settled (s : PromiseState) : bool :=
  match s with
  | Pending => false
  | _ => true
  end.

(** A flag of an outcome record, read the way JavaScript reads an absent
    property in a condition. *)
Definition flag (x : option bool) : bool := default false x.

(** An instance that is open and not yet closing. *)
Definition live (n : Notification) : bool := isOpen n && negb (isClosing n).

Definition live_count (w : World) : nat :=
  length (List.filter (fun r => match heap w !! r with Some n => live n | None => false end)
            (Map_values (notifications w))).

(** The two flags of an outcome record disagree: exactly one of them is set. *)
Definition exactly_one_flag (o : Outcome) : Prop :=
  xorb (flag (isConfirmed o)) (flag (isDenied o)) = true.

(** A random source that never repeats a draw. *)
Definition distinct_draws : nat -> Id := fun n => n.

(** ** Relations between the worlds before and after a method *)

(** [follows R m]: whatever world [m] starts in, and however it completes,
    the world it leaves is [R]-related to the one it started in. *)
Definition follows {A} (R : World -> World -> Prop) (m : JS A) : Prop :=
  forall w, R w (snd (m w)).

(** Every object other than [r] is untouched. *)
Definition frame (r : Ref) (w w' : World) : Prop :=
  forall r', r' <> r -> heap w' !! r' = heap w !! r'.

(** No promise changed state. *)
Definition same_promises (w w' : World) : Prop :=
  forall r, promise_state w' r = promise_state w r.

(** What [resolve] is ever called with. *)
Definition from_action (s : PromiseState) : Prop :=
  match s with
  | Fulfilled o => exists a v, o = Notification.outcome a v
  | _ => True
  end.

(** How the state of one promise may evolve: a settled promise stays as it
    is, an object never disappears, and a fulfilment carries an outcome built
    by [confirm] or [deny]. *)
Definition adv (a b : option PromiseState) : Prop :=
  match a, b with
  | None, None => True
  | None, Some s => from_action s
  | Some Pending, Some s => from_action s
  | Some s, Some s' => s = s'
  | Some _, None => False
  end.

Definition advance (w w' : World) : Prop :=
  forall r, adv (promise_state w r) (promise_state w' r).

(** The world [resolve] leaves when it finds the promise of [n] pending. *)
Definition fulfil (o : Outcome) (r : Ref) (n : Notification) (w : World) : World :=
  upd_microtasks (fun q => q ++ reactions (promise n))
    (upd_heap (alter (set_promise {| state := Fulfilled o; reactions := [] |}) r) w).

(** ** Timer discipline

    Timer handles are positive, and a pending auto-close callback of an
    instance is the one whose handle the instance holds in [this.timer]; it
    was armed by [open], so the instance is open. *)
Definition timers_ok (w : World) : Prop :=
  1 <= nextHandle w
  /\ (forall r n h, heap w !! r = Some n -> timer n = Some h -> 1 <= h)
  /\ (forall t r, In t (timeouts w) -> callback t = CbClose r ->
        exists n, heap w !! r = Some n /\ timer n = Some (handle t) /\ isOpen n = true).

(** No auto-close callback of [r] is pending, and [r] holds no handle. *)
Definition timer_cancelled (r : Ref) (w : World) : Prop :=
  timer <$> heap w !! r = Some None
  /\ forall t, In t (timeouts w) -> callback t <> CbClose r.

(** ** Exit paths *)

(** The passive ways out: the close button or an explicit [close], the escape
    key, a click outside, the expiry of a timer, [closeAll]. *)
Definition passive (e : Event) : bool :=
  match e with
  | Close _ | Keydown _ | Click _ | TimeoutFires _ | CloseAll => true
  | _ => false
  end.

(** The value a pre-handler hands over at once: none when there is no
    handler, the returned value when it returns a plain one. *)
Definition plain (pre : option PreHandler) : option (option Value) :=
  match pre with
  | None => Some None
  | Some (PreReturns v) => Some (Some v)
  | _ => None
  end.

(** [keeps I]: the relation between a world and a later one that says the
    invariant [I] is not lost. *)
Definition keeps (I : World -> Prop) (w w' : World) : Prop := I w -> I w'.

(** A hook that does not raise. *)
Definition quiet (h : Hook) : bool :=
  match h with
  | Some (Raises _) => false
  | _ => true
  end.

(** The line a hook leaves in the log when it is called. *)
Definition hook_line (r : Ref) (name : HookName) (h : Hook) : list (Ref * HookName) :=
  match h with
  | Some _ => [(r, name)]
  | None => []
  end.

(** ** Class names the class list takes *)

Definition token_ok (t : string) : bool :=
  negb (String.eqb t EmptyString) && negb (has_whitespace t).

(** A class-name option is well formed when it is a string that [split(' ')]
    cuts into tokens that are not empty and hold no white space: class names
    with one space between two of them. *)
Definition well_formed (names : option string) : bool :=
  match names with
  | Some s => forallb token_ok (split " " s)
  | None => false
  end.

(** The class names [open] reads are well formed: those of [showClass], the
    backdrop's only when the instance has a backdrop element; without
    animation [open] reads none. *)
Definition shows_cleanly (n : Notification) : bool :=
  negb (Options.animation (options n))
  || well_formed (ClassNames.popup (Options.showClass (options n)))
     && (negb (backdrop n)
         || well_formed (ClassNames.backdrop (Options.showClass (options n)))).

(** The same for [close], which reads [showClass] and [hideClass]. *)
Definition hides_cleanly (n : Notification) : bool :=
  negb (Options.animation (options n))
  || well_formed (ClassNames.popup (Options.showClass (options n)))
     && well_formed (ClassNames.popup (Options.hideClass (options n)))
     && (negb (backdrop n)
         || well_formed (ClassNames.backdrop (Options.showClass (options n)))
            && well_formed (ClassNames.backdrop (Options.hideClass (options n)))).

(** The class-list calls of [open], lines 605-610, and of the animated branch
    of [close], lines 639-646, as [open] and [close] have them. *)
Definition show_classes (n : Notification) : JS unit :=
  if Options.animation (options n) then
    (let* tokens := split_names (ClassNames.popup (Options.showClass (options n))) in
     classList_add tokens) >>
    (if backdrop n then
       let* tokens := split_names (ClassNames.backdrop (Options.showClass (options n))) in
       classList_add tokens
     else ret tt)
  else ret tt.

Definition hide_classes (n : Notification) : JS unit :=
  (let* tokens := split_names (ClassNames.popup (Options.showClass (options n))) in
   classList_remove tokens) >>
  (let* tokens := split_names (ClassNames.popup (Options.hideClass (options n))) in
   classList_add tokens) >>
  (if backdrop n then
     (let* tokens := split_names (ClassNames.backdrop (Options.showClass (options n))) in
      classList_remove tokens) >>
     (let* tokens := split_names (ClassNames.backdrop (Options.hideClass (options n))) in
      classList_add tokens)
   else ret tt).

(** The world [open] has built when it reaches [didOpen]: the line of
    [willOpen] in the log, the instance open, its timer armed if it has
    one. *)
Definition opened (r : Ref) (n : Notification) (w : World) : World :=
  snd ((if truthy (Options.timer (options n)) then Notification.startTimer r else ret tt)
         (upd_heap (alter (set_isOpen true) r)
            (upd_log (fun l => l ++ hook_line r WillOpen (Options.willOpen (options n)))
               w))).

(** The instance as [create] leaves it: with its backdrop element, if the
    options ask for one. *)
Definition rendered (n : Notification) : Notification :=
  if Options.backdrop (options n) then set_backdrop true n else n.

(** ** The registry without exit animations *)

(** Options under which [close] runs to the end of [destroy] within the call:
    no exit animation, and closing hooks that return. The hooks are those
    [Behaviour] describes, which call nothing of the library. *)
Definition calm (o : Options.t) : bool :=
  negb (Options.animation o) && quiet (Options.willClose o)
  && quiet (Options.didClose o) && quiet (Options.didDestroy o).

(** Keys are distinct, and every entry is filed under the id of its instance,
    which is open, not closing, and calm. *)
Definition registry_ok (w : World) : Prop :=
  NoDup (map fst (notifications w))
  /\ forall k r, In (k, r) (notifications w) ->
       exists n, heap w !! r = Some n /\ id n = k /\ live n = true
                 /\ calm (options n) = true.

Definition bounded (w : World) : Prop :=
  length (notifications w) <= maxNotifications w.

(** The object the constructor starts from, and the world once it is
    allocated. *)
Definition fresh (o : Options.t) (i : Id) : Notification :=
  {| options := o; id := i; backdrop := false; timer := None; isOpen := false;
     isClosing := false; promise := {| state := Pending; reactions := [] |} |}.

Definition allocated (o : Options.t) (w : World) : World :=
  upd_heap (fun h => h ++ [fresh o (random w (draws w))]) (upd_draws (S (draws w)) w).

(** The manager's own fields [notifications] and [maxNotifications] are as
    they were. *)
Definition same_registry (w w' : World) : Prop :=
  notifications w' = notifications w /\ maxNotifications w' = maxNotifications w.

(** Nothing of the lifecycle moved: the flags and the timer of every instance,
    the registry and the pending timeouts are as they were. *)
Definition same_lifecycle (w w' : World) : Prop :=
  notifications w' = notifications w
  /\ timeouts w' = timeouts w
  /\ forall r, (fun n => (isOpen n, isClosing n, timer n)) <$> heap w' !! r
               = (fun n => (isOpen n, isClosing n, timer n)) <$> heap w !! r.

(** The queue and its flag are as they were. *)
Definition same_queue (w w' : World) : Prop :=
  queue w' = queue w /\ isProcessing w' = isProcessing w.

(** The events that read or write the queue. *)
Definition queue_event (e : Event) : bool :=
  match e with
  | Queue _ | QueuePush _ | ProcessQueue | Microtask => true
  | _ => false
  end.

(** * More of the file: lookup, update, presets, buttons *)

(** [Map.prototype.get]; [undefined] when the key is absent. *)
Fixpoint Map_get (k : Id) (m : list (Id * Ref)) : option Ref :=
  match m with
  | [] => None
  | (k', v) :: m' => if k' =? k then Some v else Map_get k m'
  end.

(** ** Partial options objects

    What a caller passes to [fire], to a preset or to [update]: an object
    that has some of the keys. A key that is present may hold [null]. *)
Module Patch.
Record t := mk {
  timer : option (option nat);
  animation : option bool;
  animationDuration : option nat;
  allowOutsideClick : option bool;
  allowEscapeKey : option bool;
  preConfirm : option (option PreHandler);
  preDeny : option (option PreHandler);
  didOpen : option Hook;
  didClose : option Hook;
  willOpen : option Hook;
  willClose : option Hook;
  didRender : option Hook;
  didDestroy : option Hook;
  backdrop : option bool;
  showClass : option ClassNames.t;
  hideClass : option ClassNames.t
}.

(** [{}] *)
Definition empty : t :=
  mk None None None None None None None None None None None None None None None None.
End Patch.

(** The later object wins on the keys it has. *)
Definition or_else {A} (later earlier : option A) : option A :=
  match later with
  | Some x => Some x
  | None => earlier
  end.

(** [{ ...a, ...b }] on two partial objects. *)
Definition spread (a b : Patch.t) : Patch.t :=
  Patch.mk
    (or_else (Patch.timer b) (Patch.timer a))
    (or_else (Patch.animation b) (Patch.animation a))
    (or_else (Patch.animationDuration b) (Patch.animationDuration a))
    (or_else (Patch.allowOutsideClick b) (Patch.allowOutsideClick a))
    (or_else (Patch.allowEscapeKey b) (Patch.allowEscapeKey a))
    (or_else (Patch.preConfirm b) (Patch.preConfirm a))
    (or_else (Patch.preDeny b) (Patch.preDeny a))
    (or_else (Patch.didOpen b) (Patch.didOpen a))
    (or_else (Patch.didClose b) (Patch.didClose a))
    (or_else (Patch.willOpen b) (Patch.willOpen a))
    (or_else (Patch.willClose b) (Patch.willClose a))
    (or_else (Patch.didRender b) (Patch.didRender a))
    (or_else (Patch.didDestroy b) (Patch.didDestroy a))
    (or_else (Patch.backdrop b) (Patch.backdrop a))
    (or_else (Patch.showClass b) (Patch.showClass a))
    (or_else (Patch.hideClass b) (Patch.hideClass a)).

(** [Object.assign(o, p)], also [{ ...o, ...p }] on a complete [o]. *)
Definition Object_assign (o : Options.t) (p : Patch.t) : Options.t :=
  Options.mk
    (default (Options.timer o) (Patch.timer p))
    (default (Options.animation o) (Patch.animation p))
    (default (Options.animationDuration o) (Patch.animationDuration p))
    (default (Options.allowOutsideClick o) (Patch.allowOutsideClick p))
    (default (Options.allowEscapeKey o) (Patch.allowEscapeKey p))
    (default (Options.preConfirm o) (Patch.preConfirm p))
    (default (Options.preDeny o) (Patch.preDeny p))
    (default (Options.didOpen o) (Patch.didOpen p))
    (default (Options.didClose o) (Patch.didClose p))
    (default (Options.willOpen o) (Patch.willOpen p))
    (default (Options.willClose o) (Patch.willClose p))
    (default (Options.didRender o) (Patch.didRender p))
    (default (Options.didDestroy o) (Patch.didDestroy p))
    (default (Options.backdrop o) (Patch.backdrop p))
    (default (Options.showClass o) (Patch.showClass p))
    (default (Options.hideClass o) (Patch.hideClass p)).

Definition set_options (o : Options.t) (n : Notification) : Notification :=
  {| options := o; id := id n; backdrop := backdrop n; timer := timer n;
     isOpen := isOpen n; isClosing := isClosing n; promise := promise n |}.

(** ** The action buttons

    The keys of the options object that [buildActions] reads, and the objects
    it pushes on its array [buttons]. *)
Module ButtonOptions.
Record t := mk {
  showConfirmButton : bool;
  showCancelButton : bool;
  confirmButtonText : string;
  cancelButtonText : string;
  confirmButtonColor : string;
  cancelButtonColor : string;
  reverseButtons : bool
}.
End ButtonOptions.

Module Button.
Record t := mk {
  text : string;
  className : string;
  color : string;
  action : string
}.
End Button.

(** An element of the page, as far as the click listener of a button looks at
    it: the value of its attribute [data-action], [None] without one. The
    text of a button is written into the markup as it is, so what is inside a
    button are the elements of that text, and they carry the attributes the
    text gives them. *)
Module Element.
Record t := mk {
  data_action : option string
}.

(** [el.getAttribute('data-action')]; [null] when the attribute is absent. *)
Definition getAttribute_data_action (el : t) : option string := data_action el.
End Element.

(** A double quote in a string. *)
Fixpoint has_quote (s : string) : bool :=
  match s with
  | EmptyString => false
  | String c s' => Ascii.eqb c "034" || has_quote s'
  end.

(** ** More methods of class Notification *)

Module NotificationInstance.

(** The array [buttons] of [buildActions], lines 448-482, as it stands when
    [forEach] writes one [<button>] for each of its elements, in order, with
    the attribute [data-action] set to [button.action]. *)
Definition buildActions (o : ButtonOptions.t) : list Button.t :=
  let buttons := [] in
  let buttons :=
    if ButtonOptions.showCancelButton o then
      buttons ++ [Button.mk (ButtonOptions.cancelButtonText o)
                    "notification-button notification-button-cancel"
                    (ButtonOptions.cancelButtonColor o) "deny"]
    else buttons in
  let buttons :=
    if ButtonOptions.showConfirmButton o then
      buttons ++ [Button.mk (ButtonOptions.confirmButtonText o)
                    "notification-button notification-button-confirm"
                    (ButtonOptions.confirmButtonColor o) "confirm"]
    else buttons in
  if ButtonOptions.reverseButtons o then rev buttons else buttons.

(** The element [innerHTML] makes of the tag written for a button: its
    [data-action] is [button.action]. The colour stands in the tag before
    [data-action], inside double quotes and not escaped, so a colour with a
    double quote in it ends the [style] attribute early and what follows it is
    read as attributes; no element is given for such a button. *)
Definition button_element (b : Button.t) : option Element.t :=
  if has_quote (Button.color b) then None
  else Some {| Element.data_action := Some (Button.action b) |}.

(** [handleAction] on what [getAttribute] returned: [null] is neither
    ['confirm'] nor ['deny']. *)
Definition handleAction (r : Ref) (action : option string) : JS unit :=
  match action with
  | Some a => Notification.handleAction r a
  | None => ret tt
  end.

(** The click listener [bindEvents] puts on each action button, lines
    506-511. It reads [data-action] off [e.target], the element the click
    landed on: the button, or an element inside of it. *)
Definition onButtonClick (r : Ref) (target : Element.t) : JS unit :=
  let action := Element.getAttribute_data_action target in
  handleAction r action.

(** [update], lines 678-681: the options object of the instance is mutated in
    place, then the content is rendered again. Rendering calls no hook and
    arms no timer of the lifecycle. *)
Definition update (r : Ref) (p : Patch.t) : JS unit :=
  let* n := this r in
  assign r (set_options (Object_assign (options n) p)).

End NotificationInstance.

(** ** More methods of class NotificationManager *)

Module Manager.

(** [getNotification], lines 221-223. *)
Definition getNotification (k : Id) : JS (option Ref) :=
  let* w := get in
  ret (Map_get k (notifications w)).

(** [update], lines 226-231. *)
Definition update (k : Id) (p : Patch.t) : JS unit :=
  let* w := get in
  match Map_get k (notifications w) with
  | Some r => NotificationInstance.update r p
  | None => ret tt
  end.

(** [fire] on the object the caller passes, lines 152-153: the merge
    [{ ...this.defaultOptions, ...options }], then the rest of [fire]. *)
Definition fire_object (p : Patch.t) : JS Ref :=
  NotificationManager.fire (Object_assign defaultOptions p).

(** The keys of the lifecycle that [loading] fixes, lines 197-198. *)
Definition loading_keys : Patch.t :=
  Patch.mk None None None (Some false) (Some false) None None None None None None None None
    None None None.

(** [loading], lines 191-201: the caller's object is spread last. The title,
    the text, the type and [showConfirmButton] only reach the rendering. *)
Definition loading (p : Patch.t) : JS Ref :=
  fire_object (spread loading_keys p).

(** The key of the lifecycle that [toast] fixes, line 209. *)
Definition toast_keys : Patch.t :=
  Patch.mk (Some (Some 3000)) None None None None None None None None None None None None
    None None None.

(** [toast], lines 203-213. *)
Definition toast (p : Patch.t) : JS Ref :=
  fire_object (spread toast_keys p).

(** [success], lines 165-167; [error], [warning], [info] and [question] are
    the same to the lifecycle: what they fix only reaches the rendering. *)
Definition success (p : Patch.t) : JS Ref :=
  fire_object (spread Patch.empty p).

End Manager.

(** ** Calls of the page, with [update] *)

Inductive Call :=
| Ev (e : Event)
| Update (k : Id) (p : Patch.t).   (* Notify.update(k, p) *)

Definition call_handler (c : Call) : JS unit :=
  match c with
  | Ev e => handler e
  | Update k p => call_method "update" (Manager.update k p)
  end.

Definition call_step (w : World) (c : Call) : World := snd (call_handler c w).

Definition run_calls (cs : list Call) (w : World) : World := fold_left call_step cs w.

(** ** Invariants of the registry and of the timers *)

(** Keys are distinct, and every entry is filed under the id of its instance,
    which exists and is open. *)
Definition registry_wf (w : World) : Prop :=
  NoDup (map fst (notifications w))
  /\ forall k r, In (k, r) (notifications w) ->
       exists n, heap w !! r = Some n /\ id n = k /\ isOpen n = true.

(** Objects stay, keep their id, and their flags are never reset. *)
Definition one_way (w w' : World) : Prop :=
  forall r n, heap w !! r = Some n ->
    exists n', heap w' !! r = Some n' /\ id n' = id n
               /\ (isOpen n = true -> isOpen n' = true)
               /\ (isClosing n = true -> isClosing n' = true).

(** An instance that [close] leaves in the registry for now: it was closing
    already, or it has an exit animation to wait for. *)
Definition lingers (w : World) (r : Ref) : bool :=
  match heap w !! r with
  | Some n => isClosing n || Options.animation (options n)
  | None => false
  end.

(** The closing hooks of an instance return. *)
Definition closes_quietly (w : World) (r : Ref) : Prop :=
  exists n, heap w !! r = Some n
    /\ quiet (Options.willClose (options n)) = true
    /\ quiet (Options.didClose (options n)) = true
    /\ quiet (Options.didDestroy (options n)) = true.

(** The class names [close] reads off an instance are well formed. *)
Definition hides_its_classes (w : World) (r : Ref) : Prop :=
  exists n, heap w !! r = Some n /\ hides_cleanly n = true.

(** Between two calls of [update] the options of an instance are fixed. *)
Definition same_options (w w' : World) : Prop :=
  forall r n, heap w !! r = Some n ->
    exists n', heap w' !! r = Some n' /\ options n' = options n.

(** Handles are never handed out twice: the pending ones are distinct, and
    they and the ones the instances hold were handed out already. *)
Definition handles_ok (w : World) : Prop :=
  NoDup (map handle (timeouts w))
  /\ (forall t, In t (timeouts w) -> handle t < nextHandle w)
  /\ (forall r n h, heap w !! r = Some n -> timer n = Some h -> h < nextHandle w).

(** Nothing assigns [maxNotifications] after the constructor of the manager. *)
Definition same_bound (w w' : World) : Prop :=
  maxNotifications w' = maxNotifications w.

(** What holds of every world the page can reach. *)
Definition sound (w : World) : Prop :=
  registry_wf w /\ timers_ok w /\ handles_ok w /\ maxNotifications w = 5.


(** ** The hooks a transition calls

    What each transition appends to the log, read off the order of the calls
    in the source: a hook that raises ends the transition, and so does a
    class-list call that raises. *)
Definition open_log (r : Ref) (n : Notification) : list (Ref * HookName) :=
  hook_line r WillOpen (Options.willOpen (options n))
  ++ (if quiet (Options.willOpen (options n)) && shows_cleanly n
      then hook_line r DidOpen (Options.didOpen (options n)) else []).

Definition constructor_log (r : Ref) (o : Options.t) (i : Id) : list (Ref * HookName) :=
  hook_line r DidRender (Options.didRender o)
  ++ (if quiet (Options.didRender o) then open_log r (rendered (fresh o i)) else []).

Definition destroy_log (r : Ref) (o : Options.t) : list (Ref * HookName) :=
  hook_line r DidClose (Options.didClose o)
  ++ (if quiet (Options.didClose o) then hook_line r DidDestroy (Options.didDestroy o)
      else []).

Definition close_log (r : Ref) (o : Options.t) : list (Ref * HookName) :=
  hook_line r WillClose (Options.willClose o)
  ++ (if quiet (Options.willClose o)
      then (if Options.animation o then [] else destroy_log r o)
      else []).

(** No hook of an instance was called twice; the closing hooks were called
    for closing instances only, and the hooks of [destroy] not yet where a
    [destroy] is still pending, of which there is one at most. *)
Definition hooks_ok (w : World) : Prop :=
  NoDup (log w)
  /\ (forall r name, In (r, name) (log w) -> is_Some (heap w !! r))
  /\ (forall t r, In t (timeouts w) -> callback t = CbDestroy r -> is_Some (heap w !! r))
  /\ (forall r n, heap w !! r = Some n -> isClosing n = false ->
        ~ In (r, WillClose) (log w) /\ ~ In (r, DidClose) (log w)
        /\ ~ In (r, DidDestroy) (log w)
        /\ forall t, In t (timeouts w) -> callback t <> CbDestroy r)
  /\ (forall t r, In t (timeouts w) -> callback t = CbDestroy r ->
        ~ In (r, DidClose) (log w) /\ ~ In (r, DidDestroy) (log w))
  /\ (forall t1 t2 r, In t1 (timeouts w) -> In t2 (timeouts w) ->
        callback t1 = CbDestroy r -> callback t2 = CbDestroy r -> t1 = t2).

(** * The toasts (lines 712-863)

    [ToastManager] and [Toast] share [setTimeout] and [Math.random] with the
    notifications, but no callback of the one reaches an object of the other.
    They are modelled over a world of their own, with its own registry, heap
    of [Toast] objects, table of pending callbacks and draws. No method takes
    a callback of the caller, so a call raises only if it reads a property of
    [undefined]; the completion is [None] then. *)
Module Toasts.

(** The fields of a [Toast] that its methods read after the constructor;
    [duration] is [this.options.duration]. *)
Record Toast := mkToast {
  duration : nat;
  id : Id;
  timer : option Handle
}.

Definition set_timer (t : option Handle) (n : Toast) : Toast :=
  {| duration := duration n; id := id n; timer := t |}.

Record World := mkWorld {
  toasts : list (Id * Ref);          (* this.toasts, in insertion order *)
  maxToasts : nat;
  heap : list Toast;
  timeouts : list Timeout;           (* pending callbacks *)
  nextHandle : Handle;
  random : nat -> Id;
  draws : nat
}.

Definition upd_toasts (f : list (Id * Ref) -> list (Id * Ref)) (w : World) : World :=
  {| toasts := f (toasts w); maxToasts := maxToasts w; heap := heap w;
     timeouts := timeouts w; nextHandle := nextHandle w; random := random w;
     draws := draws w |}.

Definition upd_heap (f : list Toast -> list Toast) (w : World) : World :=
  {| toasts := toasts w; maxToasts := maxToasts w; heap := f (heap w);
     timeouts := timeouts w; nextHandle := nextHandle w; random := random w;
     draws := draws w |}.

Definition upd_timeouts (f : list Timeout -> list Timeout) (w : World) : World :=
  {| toasts := toasts w; maxToasts := maxToasts w; heap := heap w;
     timeouts := f (timeouts w); nextHandle := nextHandle w; random := random w;
     draws := draws w |}.

Definition upd_nextHandle (h : Handle) (w : World) : World :=
  {| toasts := toasts w; maxToasts := maxToasts w; heap := heap w;
     timeouts := timeouts w; nextHandle := h; random := random w;
     draws := draws w |}.

Definition upd_draws (d : nat) (w : World) : World :=
  {| toasts := toasts w; maxToasts := maxToasts w; heap := heap w;
     timeouts := timeouts w; nextHandle := nextHandle w; random := random w;
     draws := d |}.

(** [new ToastManager()], lines 713-719. *)
Definition initial (rnd : nat -> Id) : World :=
  {| toasts := []; maxToasts := 5; heap := []; timeouts := []; nextHandle := 1;
     random := rnd; draws := 0 |}.

(** State, and a completion that is [None] after a [TypeError]. *)
Definition M (A : Type) : Type := World -> option A * World.

Definition ret {A} (a : A) : M A := fun w => (Some a, w).

Definition raise {A} : M A := fun w => (None, w).

Definition bind {A B} (m : M A) (k : A -> M B) : M B :=
  fun w =>
    match m w with
    | (Some a, w') => k a w'
    | (None, w') => (None, w')
    end.

Definition get : M World := fun w => (Some w, w).

Definition modify (f : World -> World) : M unit := fun w => (Some tt, f w).

Definition this (r : Ref) : M Toast :=
  fun w =>
    match heap w !! r with
    | Some n => (Some n, w)
    | None => (None, w)
    end.

Definition assign (r : Ref) (f : Toast -> Toast) : M unit :=
  modify (upd_heap (alter f r)).

Definition alloc (n : Toast) : M Ref :=
  fun w => (Some (length (heap w)), upd_heap (fun h => h ++ [n]) w).

Definition setTimeout (cb : Callback) (ms : nat) : M Handle :=
  fun w =>
    (Some (nextHandle w),
     upd_nextHandle (S (nextHandle w))
       (upd_timeouts
          (fun ts => ts ++ [{| handle := nextHandle w; delay := ms; callback := cb |}]) w)).

Definition clearTimeout (h : Handle) : M unit :=
  modify (upd_timeouts (remove_handle h)).

(** ** class Toast (lines 767-863) *)
Module Toast.

(** [generateId], line 788. *)
Definition generateId : M Id :=
  fun w => (Some (random w (draws w)), upd_draws (S (draws w)) w).

(** [show], lines 832-840. *)
Definition show (r : Ref) : M unit :=
  bind (this r) (fun n =>
  if 0 <? duration n then
    bind (setTimeout (CbClose r) (duration n)) (fun h =>
    assign r (set_timer (Some h)))
  else ret tt).

(** [close], lines 842-854: no guard, and [destroy] is always deferred. *)
Definition close (r : Ref) : M unit :=
  bind (this r) (fun n =>
  bind (match timer n with
        | Some (S h) => bind (clearTimeout (S h)) (fun _ => assign r (set_timer None))
        | _ => ret tt
        end) (fun _ =>
  bind (setTimeout (CbDestroy r) 300) (fun _ =>
  ret tt))).

(** [destroy], lines 856-862. *)
Definition destroy (r : Ref) : M unit :=
  bind (this r) (fun n =>
  modify (upd_toasts (Map_delete (id n)))).

(** The constructor, lines 768-786; the argument is the key [duration] of the
    options object of the caller, if it has one. [create] builds elements
    only. *)
Definition constructor (options : option nat) : M Ref :=
  bind generateId (fun i =>
  bind (alloc {| duration := default 3000 options; id := i; timer := None |}) (fun r =>
  bind (show r) (fun _ =>
  ret r))).

End Toast.

(** ** class ToastManager (lines 712-765) *)
Module ToastManager.

(** [show], lines 734-744; [success], [error], [warning] and [info] call it
    with a type, which only reaches the rendering. *)
Definition show (options : option nat) : M Ref :=
  bind (Toast.constructor options) (fun r =>
  bind (this r) (fun n =>
  bind (modify (upd_toasts (Map_set (id n) r))) (fun _ =>
  bind get (fun w =>
  bind (if maxToasts w <? length (toasts w) then
          match Map_values (toasts w) with
          | oldestToast :: _ => Toast.close oldestToast
          | [] => raise
          end
        else ret tt) (fun _ =>
  ret r))))).

(** [closeAll], lines 762-764. [Map.prototype.forEach] skips an entry deleted
    before its turn. *)
Fixpoint forEach_close (entries : list (Id * Ref)) : M unit :=
  match entries with
  | [] => ret tt
  | (k, r) :: rest =>
      bind get (fun w =>
      bind (if existsb (fun kv => fst kv =? k) (toasts w) then Toast.close r else ret tt)
        (fun _ => forEach_close rest))
  end.

Definition closeAll : M unit :=
  bind get (fun w => forEach_close (toasts w)).

End ToastManager.

(** ** What happens to the toasts *)

Inductive Event :=
| Show (options : option nat)   (* Notify.toastSuccess(message, options), ... *)
| Close (r : Ref)               (* a click on the close button of the toast *)
| CloseAll                      (* Notify.toastCloseAll() *)
| TimeoutFires (h : Handle).

Definition run_callback (cb : Callback) : M unit :=
  match cb with
  | CbClose r => Toast.close r
  | CbDestroy r => Toast.destroy r
  end.

Definition fire_timeout (h : Handle) : M unit :=
  bind get (fun w =>
  match List.find (fun t => handle t =? h) (timeouts w) with
  | Some t => bind (clearTimeout h) (fun _ => run_callback (callback t))
  | None => ret tt
  end).

Definition handler (e : Event) : M unit :=
  match e with
  | Show options => bind (ToastManager.show options) (fun _ => ret tt)
  | Close r => Toast.close r
  | CloseAll => ToastManager.closeAll
  | TimeoutFires h => fire_timeout h
  end.

Definition step (w : World) (e : Event) : World := snd (handler e w).

Definition run (es : list Event) (w : World) : World := fold_left step es w.

(** Every timeout that is pending now fires, in the order of the handles;
    those armed meanwhile stay pending. *)
Definition flush (w : World) : World :=
  run (map (fun t => TimeoutFires (handle t)) (timeouts w)) w.

(** How many callbacks of a kind are pending. *)
Definition Callback_eqb (a b : Callback) : bool :=
  match a, b with
  | CbClose r, CbClose r' => r =? r'
  | CbDestroy r, CbDestroy r' => r =? r'
  | _, _ => false
  end.

Definition pending (cb : Callback) (w : World) : nat :=
  length (List.filter (fun t => Callback_eqb (callback t) cb) (timeouts w)).

(** The registry is filed by id, handles are handed out once, and the handle
    a toast holds is that of its own auto-close callback. *)
Definition wf (w : World) : Prop :=
  NoDup (map fst (toasts w))
  /\ (forall k r, In (k, r) (toasts w) -> exists n, heap w !! r = Some n /\ id n = k)
  /\ NoDup (map handle (timeouts w))
  /\ 1 <= nextHandle w
  /\ (forall t, In t (timeouts w) -> handle t < nextHandle w)
  /\ (forall r n h, heap w !! r = Some n -> timer n = Some h ->
        1 <= h < nextHandle w
        /\ forall t, In t (timeouts w) -> handle t = h -> callback t = CbClose r)
  /\ (forall t r, In t (timeouts w) -> callback t = CbClose r ->
        exists n, heap w !! r = Some n /\ timer n = Some (handle t))
  /\ (forall t r, In t (timeouts w) -> callback t = CbDestroy r ->
        exists n, heap w !! r = Some n).

End Toasts.
(** * Proofs *)

(** ** The completion monad *)

Lemma bind_normal {A B} (m : JS A) (k : A -> JS B) w a w' :
  m w = (Normal a, w') -> bind m k w = k a w'.
Proof. intros E. unfold bind. now rewrite E. Qed.

Lemma bind_abrupt {A B} (m : JS A) (k : A -> JS B) w e w' :
  m w = (Abrupt e, w') -> bind m k w = (Abrupt e, w').
Proof. intros E. unfold bind. now rewrite E. Qed.

(** A sequence completes normally only if its first part did. *)
Lemma bind_inv_normal {A B} (m : JS A) (k : A -> JS B) w b w' :
  bind m k w = (Normal b, w') ->
  exists a w1, m w = (Normal a, w1) /\ k a w1 = (Normal b, w').
Proof.
  unfold bind. destruct (m w) as [[a|e] w1]; intros E.
  - now exists a, w1.
  - discriminate.
Qed.

Lemma this_some r n w : heap w !! r = Some n -> this r w = (Normal n, w).
Proof. intros E. unfold this. now rewrite E. Qed.

Lemma this_inv r n w w' : this r w = (Normal n, w') -> w' = w /\ heap w !! r = Some n.
Proof.
  unfold this. destruct (heap w !! r) as [n'|]; intros E; inversion E; now subst.
Qed.

Section Follows.
Context {R : World -> World -> Prop} `{!PreOrder R}.

Lemma follows_ret {A} (a : A) : follows R (ret a).
Proof. intros w. reflexivity. Qed.

Lemma follows_throw {A} e : follows R (@throw A e).
Proof. intros w. reflexivity. Qed.

Lemma follows_get : follows R get.
Proof. intros w. reflexivity. Qed.

Lemma follows_this r : follows R (this r).
Proof. intros w. unfold this. destruct (heap w !! r); reflexivity. Qed.

Lemma follows_modify f : (forall w, R w (f w)) -> follows R (modify f).
Proof. intros H w. apply H. Qed.

Lemma follows_bind {A B} (m : JS A) (k : A -> JS B) :
  follows R m -> (forall a, follows R (k a)) -> follows R (bind m k).
Proof.
  intros Hm Hk w. unfold bind. specialize (Hm w).
  destruct (m w) as [[a|e] w1]; simpl in *.
  - etransitivity; [exact Hm | apply Hk].
  - exact Hm.
Qed.

Lemma follows_try_catch {A} (m : JS A) (h : Thrown -> JS A) :
  follows R m -> (forall e, follows R (h e)) -> follows R (try_catch m h).
Proof.
  intros Hm Hh w. unfold try_catch. specialize (Hm w).
  destruct (m w) as [[a|e] w1]; simpl in *.
  - exact Hm.
  - etransitivity; [exact Hm | apply Hh].
Qed.

Lemma follows_split_names names : follows R (split_names names).
Proof. intros w. unfold split_names. destruct names; reflexivity. Qed.

Lemma follows_validate_tokens tokens : follows R (validate_tokens tokens).
Proof.
  intros w. induction tokens as [|t ts IH]; simpl; [reflexivity|].
  destruct (String.eqb t EmptyString); [reflexivity|].
  destruct (has_whitespace t); [reflexivity | exact IH].
Qed.

Lemma follows_show_classes n : follows R (show_classes n).
Proof.
  unfold show_classes, classList_add.
  repeat first [ apply follows_ret | apply follows_split_names
               | apply follows_validate_tokens
               | apply follows_bind; [|intros ?]
               | match goal with |- follows _ (if ?b then _ else _) => destruct b end ].
Qed.

Lemma follows_hide_classes n : follows R (hide_classes n).
Proof.
  unfold hide_classes, classList_add, classList_remove.
  repeat first [ apply follows_ret | apply follows_split_names
               | apply follows_validate_tokens
               | apply follows_bind; [|intros ?]
               | match goal with |- follows _ (if ?b then _ else _) => destruct b end ].
Qed.

Lemma follows_call_method {A} name (m : JS A) :
  follows R m -> follows R (call_method name m).
Proof.
  intros Hm. unfold call_method.
  destruct (get_member name) as [[|]|]; auto using follows_throw.
Qed.
End Follows.

(** Walks through the structure of a method, leaving the assignments. *)
Ltac follow :=
  repeat match goal with
    | |- follows _ (ret _) => apply follows_ret
    | |- follows _ (throw _) => apply follows_throw
    | |- follows _ get => apply follows_get
    | |- follows _ (this _) => apply follows_this
    | |- follows _ (split_names _) => apply follows_split_names
    | |- follows _ (classList_add _) => apply follows_validate_tokens
    | |- follows _ (classList_remove _) => apply follows_validate_tokens
    | |- follows _ (show_classes _) => apply follows_show_classes
    | |- follows _ (hide_classes _) => apply follows_hide_classes
    | |- follows _ (bind _ _) => apply follows_bind; [| intros ?]
    | |- follows _ (try_catch _ _) => apply follows_try_catch; [| intros ?]
    | |- follows _ (call_method _ _) => apply follows_call_method
    | |- follows _ (match ?x with _ => _ end) => destruct x
    | |- follows _ (modify _) => apply follows_modify; intros ?
    | H : _ |- follows _ _ => solve [apply H]
    end.

(** ** Property lookup: which calls of the exported object reach a method *)

Lemma fire_is_a_method opts : AYdocsNotifications.fire opts = NotificationManager.fire opts.
Proof. reflexivity. Qed.

Lemma closeAll_is_a_method : AYdocsNotifications.closeAll = NotificationManager.closeAll.
Proof. reflexivity. Qed.

Lemma processQueue_is_a_method A (m : JS A) : call_method "processQueue" m = m.
Proof. reflexivity. Qed.

(** The own property assigned in the constructor hides the method. *)
Lemma queue_is_an_array : get_member "queue" = Some DataProperty.
Proof. reflexivity. Qed.

(** ** The queue path *)

(** C4 (the code departs from the claim). The claim: requests enqueued through
    the queue path are admitted one after the other, in arrival order. The
    code: [Notify.queue(opts)] calls [notificationManager.queue], which is the
    array assigned in the constructor, not the method; the call raises a
    [TypeError] before anything is enqueued, whatever the state of the manager,
    so three requests sent this way leave the world as it was and none is ever
    admitted. *)
Theorem C4_queue_call_raises_TypeError (opts : Options.t) (w : World) :
  AYdocsNotifications.queue opts w
    = (Abrupt (TypeError "queue is not a function"), w)
  /\ forall a b c, run [Queue a; Queue b; Queue c] w = w.
Proof. split; reflexivity. Qed.

(** [reject] wakes no reaction up and leaves the manager's fields alone. *)
Lemma reject_wakes_nothing r e w :
  let w' := snd (reject r e w) in
  microtasks w' = microtasks w /\ isProcessing w' = isProcessing w
  /\ queue w' = queue w /\ notifications w' = notifications w.
Proof.
  unfold reject, bind, this. destruct (heap w !! r) as [n|]; simpl; auto.
  destruct (state (promise n)); simpl; auto.
Qed.

(** C5, counterexample: two entries are queued, the first one with a
    pre-confirm handler that returns a promise. The first entry is admitted,
    its confirm button is pressed, and the promise of the handler is rejected.
    The signal of the first entry is rejected, no micro-task is queued,
    [isProcessing] stays true and the second entry stays in the queue, never
    fired. Had the same promise been fulfilled, the second entry would have
    been admitted. *)
Lemma C5_rejection_halts_the_drain :
  let a := with_preConfirm (Some PrePromise) defaultOptions in
  let b := defaultOptions in
  let clicked :=
    run [QueuePush a; QueuePush b; ProcessQueue; HandleAction 0 "confirm"]
      (initial distinct_draws) in
  let rejected := run [Settles 0 (inr 9); Microtask] clicked in
  let fulfilled := run [Settles 0 (inl 9); Microtask] clicked in
  (promise_state rejected 0 = Some (Rejected (UserValue 9))
   /\ microtasks (step clicked (Settles 0 (inr 9))) = []
   /\ isProcessing rejected = true
   /\ queue rejected = [b]
   /\ length (heap rejected) = 1)
  /\ (queue fulfilled = [] /\ length (heap fulfilled) = 2
      /\ Map_values (notifications fulfilled) = [0; 1]).
Proof. vm_compute. repeat split. Qed.

(** ** Eviction at the bound *)

(** C3 (the code departs from the claim). The claim: the instance driven into
    closing is the earliest one still open, not merely the first entry of the
    map. The code takes the first entry of the map. After six calls of [fire]
    the first instance is closing, as the claim says, and stays in the map
    until its exit animation ends; the seventh call picks that same entry
    again, [close] returns at its guard, and nothing is driven into closing:
    the second instance, the earliest still open, stays open, and six
    instances are open at once. *)
Theorem C3_seventh_fire_closes_nothing :
  let w6 := run (replicate 6 (Fire defaultOptions)) (initial distinct_draws) in
  let w7 := step w6 (Fire defaultOptions) in
  (isClosing <$> heap w6 !! 0 = Some true /\ live_count w6 = 5)
  /\ head (Map_values (notifications w6)) = Some 0
  /\ (forall r, r < 6 -> heap w7 !! r = heap w6 !! r)
  /\ live <$> heap w7 !! 1 = Some true
  /\ live_count w7 = 6
  /\ maxNotifications w7 = 5.
Proof.
  vm_compute. repeat split.
  intros r Hr. do 6 (destruct r as [|r]; [reflexivity|]). lia.
Qed.

(** C2, counterexample: six calls of [fire] with the default options leave six
    entries in the map, one more than [maxNotifications]. *)
Lemma C2_six_entries_after_six_fires :
  let w := run (replicate 6 (Fire defaultOptions)) (initial distinct_draws) in
  ~ length (notifications w) <= maxNotifications w.
Proof. vm_compute. lia. Qed.

(** With hooks that do not call the library, the methods written for hooks
    as code are the methods of the classes. *)
Lemma Reentrant_destroy_behave r :
  Reentrant.destroy (fun _ => behave) r = Notification.destroy r.
Proof. reflexivity. Qed.

Lemma Reentrant_close_behave r :
  Reentrant.close (fun _ => behave) r = Notification.close r.
Proof. reflexivity. Qed.

Lemma Reentrant_fire_behave o :
  Reentrant.fire (fun _ => behave) o = NotificationManager.fire o.
Proof. reflexivity. Qed.

(** A [didClose] that calls [fire] breaks the bound even without exit
    animation. Five notifications without animation are registered, the
    oldest with a [didClose] hook that calls [Notify.fire({animation: false})]
    and then returns. The sixth call of [fire] closes the oldest; [destroy] calls
    its hook before it deletes the entry, the call of [fire] inside the hook
    registers a seventh instance and finds the oldest, flagged closing, still
    first in the map, so its [close] returns at the guard; then [destroy]
    deletes the one entry. Six entries are left. What the hooks of the nested
    call would run, [inner], is never reached. *)
Lemma didClose_that_fires_leaves_six_entries :
  forall inner : Ref -> Behaviour -> JS unit,
  let o := with_animation false defaultOptions in
  let w5 := run (Fire (with_didClose (Some Returns) o) :: replicate 4 (Fire o))
              (initial distinct_draws) in
  let didClose := fun (_ : Ref) (b : Behaviour) => Reentrant.fire inner o >> behave b in
  let w6 := snd (Reentrant.fire didClose o w5) in
  Map_values (notifications w5) = [0; 1; 2; 3; 4]
  /\ fst (Reentrant.fire didClose o w5) = Normal 5
  /\ Map_values (notifications w6) = [1; 2; 3; 4; 5; 6]
  /\ maxNotifications w6 = 5
  /\ log w6 = [(0, DidClose)].
Proof. intros inner. vm_compute. repeat split. Qed.

(** C8, the class-list calls: a notification fired with
    [showClass: { popup: 'x' }] has no class names for its backdrop. [open]
    raises a TypeError after [willOpen] and before the instance is open, so
    [fire] raises, [didOpen] is not called and nothing is registered. Without
    a backdrop the same options open. *)
Lemma fire_raises_on_a_missing_class_name :
  let show := {| ClassNames.popup := Some "x"%string; ClassNames.backdrop := None |} in
  let o := with_willOpen (Some Returns)
             (with_didOpen (Some Returns) (with_showClass show defaultOptions)) in
  let w := initial distinct_draws in
  (fst (AYdocsNotifications.fire o w) = Abrupt (TypeError "split is not a function")
   /\ isOpen <$> heap (step w (Fire o)) !! 0 = Some false
   /\ notifications (step w (Fire o)) = []
   /\ log (step w (Fire o)) = [(0, WillOpen)])
  /\ (fst (AYdocsNotifications.fire (with_backdrop false o) w) = Normal 0
      /\ log (step w (Fire (with_backdrop false o))) = [(0, WillOpen); (0, DidOpen)]).
Proof. vm_compute. repeat split. Qed.

(** ** Completion signals: concrete runs *)

(** C1, counterexample: an instance closed by an explicit [close] goes through
    closing and is destroyed, and its promise is still pending when nothing is
    left to run. *)
Lemma C1_close_leaves_signal_pending :
  let w := run [Fire defaultOptions; Close 0; TimeoutFires 1] (initial distinct_draws) in
  isClosing <$> heap w !! 0 = Some true
  /\ notifications w = [] /\ timeouts w = [] /\ microtasks w = [] /\ deferreds w = []
  /\ ~ (exists s, promise_state w 0 = Some s /\ settled s = true).
Proof.
  vm_compute. repeat split. intros [s [E S]]. inversion E; subst. discriminate.
Qed.

(** C6, counterexample: [fire({timer: 100})] with no user action. When the
    timer expires the instance closes, and after the exit animation it is
    destroyed; the promise is not resolved with both flags false, it is still
    pending. *)
Lemma C6_timer_expiry_delivers_no_outcome :
  let w1 := run [Fire (with_timer (Some 100) defaultOptions)] (initial distinct_draws) in
  let w2 := step w1 (TimeoutFires 1) in
  let w3 := step w2 (TimeoutFires 2) in
  timeouts w1 = [{| handle := 1; delay := 100; callback := CbClose 0 |}]
  /\ isClosing <$> heap w2 !! 0 = Some true
  /\ promise_state w2 0 = Some Pending
  /\ promise_state w3 0 = Some Pending
  /\ timeouts w3 = [] /\ microtasks w3 = []
  /\ promise_state w2 0
     <> Some (Fulfilled {| isConfirmed := Some false; isDenied := Some false; value := None |}).
Proof. vm_compute. repeat split. discriminate. Qed.

(** C8, counterexample: a hook that raises stops the transition it belongs to.
    With [willOpen] raising, [fire] raises, the instance is never open and
    never registered. With [willClose] raising, [close] raises after setting
    the closing flag: the timer stays armed, no destruction is scheduled and
    the instance stays in the map. *)
Lemma C8_raising_hook_stops_the_transition :
  let o1 := with_willOpen (Some (Raises 7)) defaultOptions in
  let o2 := with_timer (Some 100) (with_willClose (Some (Raises 7)) defaultOptions) in
  let w1 := initial distinct_draws in
  let w2 := run [Fire o2] (initial distinct_draws) in
  (fst (AYdocsNotifications.fire o1 w1) = Abrupt (UserValue 7)
   /\ isOpen <$> heap (step w1 (Fire o1)) !! 0 = Some false
   /\ notifications (step w1 (Fire o1)) = [])
  /\ (fst (Notification.close 0 w2) = Abrupt (UserValue 7)
      /\ timeouts (step w2 (Close 0)) = timeouts w2
      /\ timeouts w2 = [{| handle := 1; delay := 100; callback := CbClose 0 |}]
      /\ notifications (step w2 (Close 0)) = [(0, 0)]
      /\ isClosing <$> heap (step w2 (Close 0)) !! 0 = Some true).
Proof. vm_compute. repeat split. Qed.

(** ** What the methods of an instance can change *)

#[local] Instance frame_preorder r : PreOrder (frame r).
Proof.
  split.
  - intros w r' _. reflexivity.
  - intros w1 w2 w3 H12 H23 r' Hr. rewrite (H23 r' Hr). exact (H12 r' Hr).
Qed.

#[local] Instance same_promises_preorder : PreOrder same_promises.
Proof.
  split.
  - intros w r. reflexivity.
  - intros w1 w2 w3 H12 H23 r. rewrite (H23 r). exact (H12 r).
Qed.

Lemma promise_state_alter f r w r0 :
  (forall n, promise (f n) = promise n) ->
  promise_state (upd_heap (alter f r) w) r0 = promise_state w r0.
Proof.
  intros Hf. unfold promise_state. simpl.
  destruct (decide (r0 = r)) as [->|Hne].
  - rewrite list_lookup_alter_eq. destruct (heap w !! r) as [n|]; simpl; [|reflexivity].
    now rewrite Hf.
  - now rewrite list_lookup_alter_ne by congruence.
Qed.

(** The skeleton shared by every relation the lifecycle respects: it is enough
    to know how the relation fares with each assignment. *)
Section Lifecycle.
Context {R : World -> World -> Prop} `{!PreOrder R}.
Variable r : Ref.
Hypothesis R_log : forall f w, R w (upd_log f w).
Hypothesis R_notifications : forall k w, R w (upd_notifications (Map_delete k) w).
Hypothesis R_isClosing : forall w, R w (upd_heap (alter (set_isClosing true) r) w).
Hypothesis R_clearTimer : follows R (Notification.clearTimer r).
Hypothesis R_setTimeout : forall ms, follows R (setTimeout (CbDestroy r) ms).
Hypothesis R_backdrop : forall w, R w (upd_heap (alter (set_backdrop true) r) w).

Lemma follows_call_hook name h : follows R (call_hook r name h).
Proof. unfold call_hook, behave. follow; apply R_log. Qed.

Lemma follows_create : follows R (Notification.create r).
Proof.
  unfold Notification.create, assign. follow;
    try apply follows_call_hook; apply R_backdrop.
Qed.

Lemma follows_destroy : follows R (Notification.destroy r).
Proof.
  unfold Notification.destroy. follow; try apply follows_call_hook.
  apply R_notifications.
Qed.

Lemma follows_close : follows R (Notification.close r).
Proof.
  unfold Notification.close, assign. follow;
    try apply follows_call_hook; try apply R_isClosing;
    try apply R_setTimeout; apply follows_destroy.
Qed.
End Lifecycle.

(** The timer methods, for a relation that does not look at timers. *)
Section Timers.
Context {R : World -> World -> Prop} `{!PreOrder R}.
Variable r : Ref.
Hypothesis R_timeouts : forall f w, R w (upd_timeouts f w).
Hypothesis R_nextHandle : forall h w, R w (upd_nextHandle h w).
Hypothesis R_timer : forall t w, R w (upd_heap (alter (set_timer t) r) w).

Lemma follows_setTimeout cb ms : follows R (setTimeout cb ms).
Proof.
  intros w. unfold setTimeout. simpl.
  etransitivity; [apply R_timeouts | apply R_nextHandle].
Qed.

Lemma follows_clearTimer : follows R (Notification.clearTimer r).
Proof.
  unfold Notification.clearTimer, clearTimeout, assign. follow;
    try apply R_timeouts; apply R_timer.
Qed.

Lemma follows_startTimer : follows R (Notification.startTimer r).
Proof.
  unfold Notification.startTimer, assign. follow;
    try apply follows_setTimeout; apply R_timer.
Qed.

Hypothesis R_log : forall f w, R w (upd_log f w).
Hypothesis R_isOpen : forall w, R w (upd_heap (alter (set_isOpen true) r) w).

Lemma follows_open : follows R (Notification.open r).
Proof.
  unfold Notification.open, assign. follow;
    try (apply follows_call_hook; assumption);
    try apply R_isOpen; apply follows_startTimer.
Qed.
End Timers.

(** [close] touches no object but its receiver. *)
Lemma close_frame r : follows (frame r) (Notification.close r).
Proof.
  apply follows_close; try apply follows_clearTimer; try apply follows_setTimeout;
    intros; intros r' Hr; simpl; try reflexivity;
    now rewrite list_lookup_alter_ne by congruence.
Qed.

(** [close] settles no promise. *)
Lemma close_same_promises r : follows same_promises (Notification.close r).
Proof.
  apply follows_close; try apply follows_clearTimer; try apply follows_setTimeout;
    intros; intros r0; try reflexivity; now apply promise_state_alter.
Qed.

Lemma destroy_same_promises r : follows same_promises (Notification.destroy r).
Proof. apply follows_destroy; intros; intros r0; reflexivity. Qed.

Lemma open_same_promises r : follows same_promises (Notification.open r).
Proof.
  apply follows_open; intros; intros r0; try reflexivity; now apply promise_state_alter.
Qed.

(** ** The class-list calls

    They change nothing of the world; they complete when the class names are
    well formed and raise otherwise. *)

Lemma bind_assoc {A B C} (m : JS A) (k : A -> JS B) (h : B -> JS C) w :
  bind (bind m k) h w = bind m (fun a => bind (k a) h) w.
Proof.
  unfold bind. destruct (m w) as [[a|e] w1]; [|reflexivity].
  now destruct (k a w1) as [[b|e] w2].
Qed.

Lemma bind_ext {A B} (m : JS A) (k k' : A -> JS B) w :
  (forall a w', k a w' = k' a w') -> bind m k w = bind m k' w.
Proof.
  intros H. unfold bind. destruct (m w) as [[a|e] w1]; [apply H|reflexivity].
Qed.

Lemma validate_tokens_ok tokens w :
  forallb token_ok tokens = true -> validate_tokens tokens w = (Normal tt, w).
Proof.
  induction tokens as [|t ts IH]; simpl; [reflexivity|].
  unfold token_ok at 1. rewrite !andb_true_iff, !negb_true_iff.
  intros [[-> ->] H]. now apply IH.
Qed.

Lemma validate_tokens_world tokens w : snd (validate_tokens tokens w) = w.
Proof.
  induction tokens as [|t ts IH]; simpl; [reflexivity|].
  destruct (String.eqb t EmptyString); [reflexivity|].
  now destruct (has_whitespace t).
Qed.

Lemma class_names_ok names w :
  well_formed names = true ->
  (let* tokens := split_names names in validate_tokens tokens) w = (Normal tt, w).
Proof.
  destruct names as [s|]; [|discriminate]. simpl. intros H.
  unfold bind, split_names, ret. now apply validate_tokens_ok.
Qed.

Lemma class_names_world names w :
  snd ((let* tokens := split_names names in validate_tokens tokens) w) = w.
Proof.
  destruct names as [s|]; [|reflexivity].
  unfold bind, split_names, ret.
  pose proof (validate_tokens_world (split " " s) w) as H.
  now destruct (validate_tokens (split " " s) w) as [[[]|e] w1].
Qed.

Lemma show_classes_ok n w :
  shows_cleanly n = true -> show_classes n w = (Normal tt, w).
Proof.
  unfold shows_cleanly, show_classes, classList_add.
  destruct (Options.animation (options n)); [|reflexivity]. simpl.
  rewrite andb_true_iff. intros [H1 H2].
  unfold bind at 1. rewrite (class_names_ok _ w H1).
  destruct (backdrop n); [|reflexivity]. now apply class_names_ok.
Qed.

Lemma hide_classes_ok n w :
  Options.animation (options n) = true -> hides_cleanly n = true ->
  hide_classes n w = (Normal tt, w).
Proof.
  unfold hides_cleanly, hide_classes, classList_add, classList_remove.
  intros ->. simpl. rewrite !andb_true_iff. intros [[H1 H2] H3].
  unfold bind at 1. rewrite (class_names_ok _ w H1).
  unfold bind at 1. rewrite (class_names_ok _ w H2).
  destruct (backdrop n); [|reflexivity]. simpl in H3.
  apply andb_true_iff in H3 as [H3 H4].
  unfold bind at 1. rewrite (class_names_ok _ w H3). now apply class_names_ok.
Qed.

Lemma validate_tokens_raises tokens w :
  forallb token_ok tokens = false -> exists e, validate_tokens tokens w = (Abrupt e, w).
Proof.
  induction tokens as [|t ts IH]; simpl; [discriminate|].
  unfold token_ok at 1.
  destruct (String.eqb t EmptyString); simpl; [eauto|].
  destruct (has_whitespace t); simpl; [eauto|]. exact IH.
Qed.

Lemma class_names_raises names w :
  well_formed names = false ->
  exists e, (let* tokens := split_names names in validate_tokens tokens) w = (Abrupt e, w).
Proof.
  destruct names as [s|]; simpl; intros H.
  - unfold bind, split_names, ret. now apply validate_tokens_raises.
  - unfold bind, split_names, throw. eauto.
Qed.

(** A class name that is no string is a TypeError. *)
Lemma class_names_missing w :
  (let* tokens := split_names None in validate_tokens tokens) w
  = (Abrupt (TypeError "split is not a function"), w).
Proof. reflexivity. Qed.

Lemma show_classes_raises n w :
  shows_cleanly n = false -> exists e, show_classes n w = (Abrupt e, w).
Proof.
  unfold shows_cleanly, show_classes, classList_add.
  destruct (Options.animation (options n)); [|discriminate]. simpl.
  destruct (well_formed (ClassNames.popup (Options.showClass (options n)))) eqn:H1; simpl.
  - unfold bind at 1. rewrite (class_names_ok _ w H1).
    destruct (backdrop n); [|discriminate]. simpl. apply class_names_raises.
  - intros _. destruct (class_names_raises _ w H1) as [e E].
    exists e. unfold bind at 1. now rewrite E.
Qed.

Lemma hide_classes_raises n w :
  hides_cleanly n = false -> exists e, hide_classes n w = (Abrupt e, w).
Proof.
  unfold hides_cleanly, hide_classes, classList_add, classList_remove.
  destruct (Options.animation (options n)); [|discriminate]. simpl.
  destruct (well_formed (ClassNames.popup (Options.showClass (options n)))) eqn:H1; simpl.
  - unfold bind at 1. rewrite (class_names_ok _ w H1).
    destruct (well_formed (ClassNames.popup (Options.hideClass (options n)))) eqn:H2; simpl.
    + unfold bind at 1. rewrite (class_names_ok _ w H2).
      destruct (backdrop n); [|discriminate]. simpl.
      destruct (well_formed (ClassNames.backdrop (Options.showClass (options n)))) eqn:H3;
        simpl.
      * intros H4. unfold bind at 1. rewrite (class_names_ok _ w H3).
        now apply class_names_raises.
      * intros _. destruct (class_names_raises _ w H3) as [e E].
        exists e. unfold bind at 1. now rewrite E.
    + intros _. destruct (class_names_raises _ w H2) as [e E].
      exists e. unfold bind at 1. now rewrite E.
  - intros _. destruct (class_names_raises _ w H1) as [e E].
    exists e. unfold bind at 1. now rewrite E.
Qed.

Lemma show_classes_world n w : snd (show_classes n w) = w.
Proof.
  apply (@follows_show_classes (fun w w' => w' = w)).
  split; [intros ?; reflexivity | intros ? ? ? H1 H2; congruence].
Qed.

Lemma hide_classes_world n w : snd (hide_classes n w) = w.
Proof.
  apply (@follows_hide_classes (fun w w' => w' = w)).
  split; [intros ?; reflexivity | intros ? ? ? H1 H2; congruence].
Qed.

(** A class-list call either completes or raises; the world is the same. *)
Lemma show_classes_cases n w :
  show_classes n w = (Normal tt, w) \/ exists e, show_classes n w = (Abrupt e, w).
Proof.
  pose proof (show_classes_world n w) as H.
  destruct (show_classes n w) as [[[]|e] w1]; simpl in H; subst; eauto.
Qed.

Lemma hide_classes_cases n w :
  hide_classes n w = (Normal tt, w) \/ exists e, hide_classes n w = (Abrupt e, w).
Proof.
  pose proof (hide_classes_world n w) as H.
  destruct (hide_classes n w) as [[[]|e] w1]; simpl in H; subst; eauto.
Qed.

(** [open] and [close], with their class-list calls named. *)
Lemma open_eq r :
  Notification.open r =
  (let* n := this r in
   if isOpen n then ret tt
   else
     call_hook r WillOpen (Options.willOpen (options n)) >>
     show_classes n >>
     assign r (set_isOpen true) >>
     (if truthy (Options.timer (options n)) then Notification.startTimer r else ret tt) >>
     call_hook r DidOpen (Options.didOpen (options n))).
Proof. reflexivity. Qed.

(** ** Symbolic runs of [close] *)

(** [close] returns at its guard on an instance that is closing, or that never
    opened. *)
Lemma close_noop r n w :
  heap w !! r = Some n -> isClosing n = true \/ isOpen n = false ->
  Notification.close r w = (Normal tt, w).
Proof.
  intros Hn Hg. unfold Notification.close.
  rewrite (bind_normal _ _ _ _ _ (this_some _ _ _ Hn)).
  destruct Hg as [->| ->]; [reflexivity|]. now rewrite orb_true_r.
Qed.

(** Past its guard, [close] first sets the flag and then runs the rest. *)
Lemma close_live r n w :
  heap w !! r = Some n -> live n = true ->
  Notification.close r w =
    (call_hook r WillClose (Options.willClose (options n)) >>
     Notification.clearTimer r >>
     if Options.animation (options n)
     then hide_classes n >>
          let* _ := setTimeout (CbDestroy r) (Options.animationDuration (options n)) in ret tt
     else Notification.destroy r)
      (upd_heap (alter (set_isClosing true) r) w).
Proof.
  intros Hn Hl. unfold Notification.close.
  rewrite (bind_normal _ _ _ _ _ (this_some _ _ _ Hn)).
  unfold live in Hl. apply andb_true_iff in Hl as [Ho Hc].
  apply negb_true_iff in Hc. rewrite Ho, Hc. cbn [orb negb].
  unfold bind at 1. unfold assign, modify.
  apply bind_ext. intros _ w1. apply bind_ext. intros _ w2.
  destruct (Options.animation (options n)); [|reflexivity].
  unfold hide_classes. symmetry. rewrite bind_assoc. apply bind_ext. intros _ w3.
  rewrite bind_assoc. reflexivity.
Qed.

(** [destroy] assigns no field of any instance. *)
Lemma destroy_heap r w : heap (snd (Notification.destroy r w)) = heap w.
Proof.
  pose proof (@follows_destroy (fun w w' => heap w' = heap w)) as H.
  apply H; try (intros; reflexivity).
  split; [intros ?; reflexivity | intros ? ? ? H1 H2; congruence].
Qed.

(** Whatever its hooks do, [close] leaves an open instance flagged closing. *)
Lemma close_sets_isClosing r n w :
  heap w !! r = Some n -> isOpen n = true ->
  exists n', heap (snd (Notification.close r w)) !! r = Some n' /\ isClosing n' = true.
Proof.
  intros Hn Ho. destruct (isClosing n) eqn:Hc.
  - rewrite (close_noop r n w Hn) by auto. eauto.
  - set (R := fun w w' : World =>
        (exists n', heap w !! r = Some n' /\ isClosing n' = true) ->
        (exists n', heap w' !! r = Some n' /\ isClosing n' = true)).
    assert (HR : PreOrder R) by (split; [intros ? ?; auto | intros ? ? ? H1 H2 ?; auto]).
    assert (Halter : forall f w0, (forall m, isClosing (f m) = isClosing m) ->
                       R w0 (upd_heap (alter f r) w0)).
    { intros f w0 Hf [n' [E C]]. exists (f n'). simpl.
      rewrite list_lookup_alter_eq, E. split; [reflexivity|]. now rewrite Hf. }
    rewrite (close_live r n w Hn) by (unfold live; now rewrite Ho, Hc).
    match goal with |- context [snd (?m ?w0)] => assert (Hm : follows R m) end.
    { follow.
      - apply follows_call_hook. intros ? ? H; exact H.
      - apply follows_clearTimer; try (intros ? ? H; exact H).
        intros t w0. apply Halter. reflexivity.
      - apply follows_destroy; intros ? ? H; exact H. }
    apply Hm. exists (set_isClosing true n). simpl.
    rewrite list_lookup_alter_eq, Hn. split; reflexivity.
Qed.

(** ** The global listeners *)

(** A key that was not in the map goes to the end of the insertion order. *)
Lemma Map_set_fresh k v m :
  ~ In k (map fst m) -> Map_set k v m = m ++ [(k, v)].
Proof.
  induction m as [|[k' v'] m IH]; simpl; intros Hk; [reflexivity|].
  destruct (Nat.eqb_spec k' k) as [->|Hne]; [tauto|].
  rewrite IH by tauto. reflexivity.
Qed.

Lemma onKeydown_other key w :
  key <> "Escape"%string -> NotificationManager.onKeydown key w = (Normal tt, w).
Proof.
  intros Hk. unfold NotificationManager.onKeydown.
  apply String.eqb_neq in Hk. now rewrite Hk.
Qed.

Lemma onKeydown_top top n w :
  last (Map_values (notifications w)) = Some top -> heap w !! top = Some n ->
  NotificationManager.onKeydown "Escape" w =
    if Options.allowEscapeKey (options n) then Notification.close top w else (Normal tt, w).
Proof.
  intros Ht Hn. unfold NotificationManager.onKeydown. cbn [String.eqb Ascii.eqb Bool.eqb].
  unfold NotificationManager.getTopNotification, bind, get, ret at 1.
  rewrite Ht. unfold this. rewrite Hn.
  destruct (Options.allowEscapeKey (options n)); reflexivity.
Qed.

Lemma onClick_top top n w :
  last (Map_values (notifications w)) = Some top -> heap w !! top = Some n ->
  NotificationManager.onClick true w =
    if Options.allowOutsideClick (options n) then Notification.close top w else (Normal tt, w).
Proof.
  intros Ht Hn. unfold NotificationManager.onClick.
  unfold NotificationManager.getTopNotification, bind, get, ret at 1.
  rewrite Ht. unfold this. rewrite Hn.
  destruct (Options.allowOutsideClick (options n)); reflexivity.
Qed.

Lemma listeners_empty w :
  notifications w = [] ->
  NotificationManager.onKeydown "Escape" w = (Normal tt, w)
  /\ NotificationManager.onClick true w = (Normal tt, w).
Proof.
  intros He.
  unfold NotificationManager.onKeydown, NotificationManager.onClick.
  cbn [String.eqb Ascii.eqb Bool.eqb].
  unfold NotificationManager.getTopNotification, bind, get, ret.
  rewrite He. split; reflexivity.
Qed.

(** C10. The escape-key and outside-click listeners look at the last entry of
    the registry only, the most recently inserted one (a fresh key is put at
    the end of the map). Another key, or a click elsewhere, does nothing, and
    so does either listener on an empty registry. Otherwise the listener
    closes the top instance exactly when that instance's own option allows
    it, and does nothing at all when it forbids it; in both cases every other
    instance is left as it was, whatever its own options. *)
Theorem C10_listeners_act_on_the_top_instance_only (w : World) :
  (forall k v m, ~ In k (map fst m) -> last (Map_values (Map_set k v m)) = Some v)
  /\ (forall key, key <> "Escape"%string ->
        NotificationManager.onKeydown key w = (Normal tt, w))
  /\ NotificationManager.onClick false w = (Normal tt, w)
  /\ (notifications w = [] ->
        NotificationManager.onKeydown "Escape" w = (Normal tt, w)
        /\ NotificationManager.onClick true w = (Normal tt, w))
  /\ (forall top n,
        last (Map_values (notifications w)) = Some top -> heap w !! top = Some n ->
        NotificationManager.onKeydown "Escape" w
          = (if Options.allowEscapeKey (options n)
             then Notification.close top w else (Normal tt, w))
        /\ NotificationManager.onClick true w
          = (if Options.allowOutsideClick (options n)
             then Notification.close top w else (Normal tt, w))
        /\ (forall r, r <> top ->
              heap (step w (Keydown "Escape")) !! r = heap w !! r
              /\ heap (step w (Click true)) !! r = heap w !! r)).
Proof.
  split; [|split; [|split; [|split]]].
  - intros k v m Hk. rewrite Map_set_fresh by exact Hk.
    unfold Map_values. rewrite map_app. simpl. apply last_snoc.
  - intros key Hk. now apply onKeydown_other.
  - reflexivity.
  - apply listeners_empty.
  - intros top n Ht Hn.
    pose proof (onKeydown_top top n w Ht Hn) as Ek.
    pose proof (onClick_top top n w Ht Hn) as Ec.
    split; [exact Ek|]. split; [exact Ec|].
    intros r Hr. unfold step, handler. rewrite Ek, Ec.
    split.
    + destruct (Options.allowEscapeKey (options n)); [|reflexivity].
      now apply close_frame.
    + destruct (Options.allowOutsideClick (options n)); [|reflexivity].
      now apply close_frame.
Qed.

(** C10 at work: two instances, the older one open to both interactions, the
    top one forbidding them; neither listener changes anything. *)
Lemma C10_witness :
  let w := run [Fire defaultOptions;
                Fire (with_allowEscapeKey false (with_allowOutsideClick false defaultOptions))]
             (initial distinct_draws) in
  last (Map_values (notifications w)) = Some 1
  /\ step w (Keydown "Escape") = w /\ step w (Click true) = w
  /\ heap (step w (Keydown "Escape")) !! 0 = heap w !! 0.
Proof.
  intros w.
  destruct (C10_listeners_act_on_the_top_instance_only w) as (_ & _ & _ & _ & H).
  assert (Ht : last (Map_values (notifications w)) = Some 1) by (vm_compute; reflexivity).
  destruct (heap w !! 1) as [n|] eqn:Hn; [|vm_compute in Hn; discriminate].
  destruct (H 1 n Ht Hn) as (Ek & Ec & Hf).
  split; [exact Ht|].
  split; [vm_compute; reflexivity|]. split; [vm_compute; reflexivity|].
  destruct (Hf 0) as [E _]; [lia | exact E].
Defined.

(** ** Symbolic runs of [resolve] and [reject] *)

Lemma resolve_pending r n o w :
  heap w !! r = Some n -> state (promise n) = Pending ->
  resolve r o w = (Normal tt, fulfil o r n w).
Proof.
  intros Hn Hp. unfold resolve.
  rewrite (bind_normal _ _ _ _ _ (this_some _ _ _ Hn)). now rewrite Hp.
Qed.





(** ** The confirm handler *)







(** ** Relations the whole event loop respects *)

Lemma follows_weaken {A} (R R' : World -> World -> Prop) (m : JS A) :
  (forall w w', R w w' -> R' w w') -> follows R m -> follows R' m.
Proof. intros H Hm w. apply H, Hm. Qed.

(** A relation that every building block respects is respected by every job,
    hence by every run. *)
Section Loop.
Context {R : World -> World -> Prop} `{!PreOrder R}.
Hypothesis R_queue : forall f w, R w (upd_queue f w).
Hypothesis R_isProcessing : forall b w, R w (upd_isProcessing b w).
Hypothesis R_deferreds : forall f w, R w (upd_deferreds f w).
Hypothesis R_microtasks : forall f w, R w (upd_microtasks f w).
Hypothesis R_set : forall k r w, R w (upd_notifications (Map_set k r) w).
Hypothesis R_clearTimeout : forall h, follows R (clearTimeout h).
Hypothesis R_constructor : forall o, follows R (Notification.constructor o).
Hypothesis R_close : forall r, follows R (Notification.close r).
Hypothesis R_destroy : forall r, follows R (Notification.destroy r).
Hypothesis R_resolve : forall r a v, follows R (resolve r (Notification.outcome a v)).
Hypothesis R_reject : forall r e, follows R (reject r e).
Hypothesis R_then : forall r f, follows R (then_ r f).

Lemma follows_act a pre r : follows R (Notification.act a pre r).
Proof. unfold Notification.act, Notification.then_catch. follow. apply R_deferreds. Qed.

Lemma follows_handleAction r action : follows R (Notification.handleAction r action).
Proof.
  unfold Notification.handleAction, Notification.confirm, Notification.deny.
  follow; apply follows_act.
Qed.

Lemma follows_on_settled r a result : follows R (Notification.on_settled r a result).
Proof. unfold Notification.on_settled. follow. Qed.

Lemma follows_onKeydown key : follows R (NotificationManager.onKeydown key).
Proof.
  unfold NotificationManager.onKeydown, NotificationManager.getTopNotification. follow.
Qed.

Lemma follows_onClick b : follows R (NotificationManager.onClick b).
Proof.
  unfold NotificationManager.onClick, NotificationManager.getTopNotification. follow.
Qed.

Lemma follows_fire o : follows R (NotificationManager.fire o).
Proof. unfold NotificationManager.fire. follow. apply R_set. Qed.

Lemma follows_forEach_close entries : follows R (NotificationManager.forEach_close entries).
Proof.
  induction entries as [|[k r] rest IH]; simpl; follow.
Qed.

Lemma follows_closeAll : follows R NotificationManager.closeAll.
Proof. unfold NotificationManager.closeAll. follow. apply follows_forEach_close. Qed.

Lemma follows_processQueue : follows R NotificationManager.processQueue.
Proof.
  unfold NotificationManager.processQueue. follow;
    try apply R_isProcessing; try apply R_queue; apply follows_fire.
Qed.

Lemma follows_queue o : follows R (NotificationManager.queue o).
Proof.
  unfold NotificationManager.queue. follow;
    try apply R_queue; apply follows_processQueue.
Qed.

Lemma follows_run_reaction f : follows R (NotificationManager.run_reaction f).
Proof.
  unfold NotificationManager.run_reaction. follow;
    try apply R_isProcessing; apply follows_processQueue.
Qed.

Lemma follows_handler e : follows R (handler e).
Proof.
  destruct e; unfold handler, AYdocsNotifications.fire, AYdocsNotifications.queue,
    AYdocsNotifications.closeAll, fire_timeout, run_callback, settle, run_microtask.
  all: follow.
  all: try apply R_queue; try apply R_deferreds; try apply R_microtasks.
  all: first [ apply follows_fire | apply follows_queue | apply follows_closeAll
             | apply follows_processQueue | apply follows_handleAction
             | apply follows_onKeydown | apply follows_onClick
             | apply follows_on_settled | apply follows_run_reaction ].
Qed.

Lemma follows_step w e : R w (step w e).
Proof. apply follows_handler. Qed.

Lemma follows_run es w : R w (run es w).
Proof.
  revert w. induction es as [|e es IH]; intros w; simpl.
  - reflexivity.
  - etransitivity; [apply follows_step | apply IH].
Qed.
End Loop.

(** ** How promises evolve *)

Lemma adv_refl a : adv a a.
Proof. destruct a as [[]|]; simpl; auto. Qed.

Lemma adv_trans a b c : adv a b -> adv b c -> adv a c.
Proof.
  destruct a as [[]|], b as [[]|], c as [[]|]; simpl; intros H1 H2;
    try congruence; try tauto; try (inversion H2; subst; assumption).
Qed.

#[local] Instance advance_preorder : PreOrder advance.
Proof.
  split.
  - intros w r. apply adv_refl.
  - intros w1 w2 w3 H12 H23 r. eapply adv_trans; [apply H12 | apply H23].
Qed.

Lemma advance_same w w' : same_promises w w' -> advance w w'.
Proof. intros H r. rewrite (H r). apply adv_refl. Qed.

Lemma advance_alter f r w :
  (forall n, promise (f n) = promise n) -> advance w (upd_heap (alter f r) w).
Proof. intros Hf. apply advance_same. intros r0. now apply promise_state_alter. Qed.

(** Replacing the promise of [r], when the old state allows the new one. *)
Lemma advance_set_promise r n p w :
  heap w !! r = Some n ->
  adv (Some (state (promise n))) (Some (state p)) ->
  advance w (upd_heap (alter (set_promise p) r) w).
Proof.
  intros Hn Ha r0. unfold promise_state. simpl.
  destruct (decide (r0 = r)) as [->|Hne].
  - rewrite list_lookup_alter_eq, Hn. exact Ha.
  - rewrite list_lookup_alter_ne by congruence. apply adv_refl.
Qed.

Lemma advance_resolve r a v : follows advance (resolve r (Notification.outcome a v)).
Proof.
  intros w. unfold resolve, bind, this.
  destruct (heap w !! r) as [n|] eqn:Hn; simpl; [|reflexivity].
  destruct (state (promise n)) eqn:Hp; simpl; try reflexivity.
  apply (advance_set_promise r n); [exact Hn|]. rewrite Hp. simpl. eauto.
Qed.

Lemma advance_reject r e : follows advance (reject r e).
Proof.
  intros w. unfold reject, bind, this.
  destruct (heap w !! r) as [n|] eqn:Hn; simpl; [|reflexivity].
  destruct (state (promise n)) eqn:Hp; simpl; try reflexivity.
  apply (advance_set_promise r n); [exact Hn|]. now rewrite Hp.
Qed.

Lemma advance_then r f : follows advance (then_ r f).
Proof.
  intros w. unfold then_, bind, this.
  destruct (heap w !! r) as [n|] eqn:Hn; simpl; [|reflexivity].
  destruct (state (promise n)) eqn:Hp; simpl; try reflexivity.
  - apply (advance_set_promise r n); [exact Hn|]. now rewrite Hp.
  - apply advance_same. intros r0. reflexivity.
Qed.

Lemma advance_alloc n : state (promise n) = Pending -> follows advance (alloc n).
Proof.
  intros Hp w r. unfold promise_state, alloc. simpl.
  destruct (lt_eq_lt_dec r (length (heap w))) as [[Hlt | ->] | Hgt].
  - rewrite lookup_app_l by exact Hlt. apply adv_refl.
  - rewrite (lookup_ge_None_2 (heap w)) by lia.
    rewrite lookup_app_r by lia. rewrite Nat.sub_diag. simpl. now rewrite Hp.
  - rewrite (lookup_ge_None_2 (heap w)) by lia.
    rewrite lookup_ge_None_2; [exact I|]. rewrite length_app. simpl. lia.
Qed.

(** An assignment that reaches no promise. *)
Ltac no_promise := unfold follows; intros; apply advance_same; intros ?; reflexivity.

Lemma advance_close r : follows advance (Notification.close r).
Proof. eapply follows_weaken; [apply advance_same | apply close_same_promises]. Qed.

Lemma advance_destroy r : follows advance (Notification.destroy r).
Proof. eapply follows_weaken; [apply advance_same | apply destroy_same_promises]. Qed.

Lemma advance_constructor o : follows advance (Notification.constructor o).
Proof.
  unfold Notification.constructor. follow.
  - no_promise.
  - now apply advance_alloc.
  - apply follows_create; try no_promise.
    intros w. apply advance_same. intros r0. now apply promise_state_alter.
  - eapply follows_weaken; [apply advance_same | apply open_same_promises].
Qed.

(** Every run only moves promises forward. *)
Lemma advance_run es w : advance w (run es w).
Proof.
  apply follows_run; try no_promise.
  - apply advance_constructor.
  - apply advance_close.
  - apply advance_destroy.
  - apply advance_resolve.
  - apply advance_reject.
  - apply advance_then.
Qed.

(** A settled promise keeps its state for ever. *)
Lemma settled_for_ever es w r s :
  promise_state w r = Some s -> settled s = true -> promise_state (run es w) r = Some s.
Proof.
  intros Hs Hset. pose proof (advance_run es w r) as H. rewrite Hs in H.
  destruct (promise_state (run es w) r) as [s'|]; destruct s; simpl in *;
    try discriminate; try contradiction; congruence.
Qed.

(** An outcome is always one that [confirm] or [deny] built. *)
Lemma outcomes_from_actions es rnd r o :
  promise_state (run es (initial rnd)) r = Some (Fulfilled o) ->
  exists a v, o = Notification.outcome a v.
Proof.
  intros Hs. pose proof (advance_run es (initial rnd) r) as H. rewrite Hs in H.
  unfold promise_state in H. simpl in H. exact H.
Qed.

(** ** Which exit paths settle the completion signal *)

Lemma fire_timeout_same_promises h : follows same_promises (fire_timeout h).
Proof.
  unfold fire_timeout, run_callback, clearTimeout. follow.
  - intros r. reflexivity.
  - apply close_same_promises.
  - apply destroy_same_promises.
Qed.

Lemma forEach_close_same_promises entries :
  follows same_promises (NotificationManager.forEach_close entries).
Proof.
  induction entries as [|[k r] rest IH]; simpl; follow. apply close_same_promises.
Qed.

(** The passive exit paths reach [close] and [destroy] only. *)
Lemma passive_same_promises e : passive e = true -> follows same_promises (handler e).
Proof.
  destruct e; try discriminate; intros _; unfold handler.
  - unfold AYdocsNotifications.closeAll, NotificationManager.closeAll. follow.
    apply forEach_close_same_promises.
  - apply close_same_promises.
  - unfold NotificationManager.onKeydown, NotificationManager.getTopNotification.
    follow; apply close_same_promises.
  - unfold NotificationManager.onClick, NotificationManager.getTopNotification.
    follow; apply close_same_promises.
  - apply fire_timeout_same_promises.
Qed.

(** [confirm] and [deny] with no pre-handler, or one that returns a plain
    value: the pending promise is fulfilled, then [close] runs. *)
Lemma act_plain a pre val r n w :
  heap w !! r = Some n -> state (promise n) = Pending -> plain pre = Some val ->
  let w' := snd (Notification.act a pre r w) in
  promise_state w' r = Some (Fulfilled (Notification.outcome a val))
  /\ (isOpen n = true -> exists n', heap w' !! r = Some n' /\ isClosing n' = true).
Proof.
  intros Hn Hp Hpre w'.
  assert (E : w' = snd (Notification.close r (fulfil (Notification.outcome a val) r n w))).
  { unfold w', Notification.act.
    destruct pre as [[v| |]|]; simpl in Hpre; inversion Hpre; subst;
      now rewrite (bind_normal _ _ _ _ _ (resolve_pending r n _ w Hn Hp)). }
  rewrite E. set (w1 := fulfil _ r n w).
  assert (Hw1 : heap w1 !! r
                = Some (set_promise {| state := Fulfilled (Notification.outcome a val);
                                       reactions := [] |} n)).
  { unfold w1, fulfil. simpl. now rewrite list_lookup_alter_eq, Hn. }
  split.
  - rewrite (close_same_promises r w1 r). unfold promise_state. now rewrite Hw1.
  - intros Ho. apply (close_sets_isClosing r _ w1 Hw1). exact Ho.
Qed.

Lemma handleAction_confirm r n w :
  heap w !! r = Some n ->
  step w (HandleAction r "confirm")
    = snd (Notification.act Confirm (Options.preConfirm (options n)) r w).
Proof.
  intros Hn. unfold step, handler, Notification.handleAction.
  cbn [String.eqb Ascii.eqb Bool.eqb]. unfold Notification.confirm.
  now rewrite (bind_normal _ _ _ _ _ (this_some _ _ _ Hn)).
Qed.

Lemma handleAction_deny r n w :
  heap w !! r = Some n ->
  step w (HandleAction r "deny")
    = snd (Notification.act Deny (Options.preDeny (options n)) r w).
Proof.
  intros Hn. unfold step, handler, Notification.handleAction.
  cbn [String.eqb Ascii.eqb Bool.eqb]. unfold Notification.deny.
  now rewrite (bind_normal _ _ _ _ _ (this_some _ _ _ Hn)).
Qed.

(** C1, as the code has it. The completion signal of an instance settles at
    most once: once settled it keeps its state through every later event. It
    is settled by the confirm and deny actions, which fulfil a pending signal
    and then call [close], so that an open instance is closing when the job
    ends. The passive exit paths (explicit close, escape key, outside click,
    timer expiry, [closeAll]) drive instances into closing and settle no
    signal: every promise is in the state it was in before. *)
Theorem C1_signal_settles_at_most_once_by_confirm_or_deny (w : World) :
  (forall es r s,
     promise_state w r = Some s -> settled s = true ->
     promise_state (run es w) r = Some s)
  /\ (forall e r, passive e = true -> promise_state (step w e) r = promise_state w r)
  /\ (forall r n val,
        heap w !! r = Some n -> state (promise n) = Pending ->
        (plain (Options.preConfirm (options n)) = Some val ->
         let w' := step w (HandleAction r "confirm") in
         promise_state w' r = Some (Fulfilled (Notification.outcome Confirm val))
         /\ (isOpen n = true -> isClosing <$> heap w' !! r = Some true))
        /\ (plain (Options.preDeny (options n)) = Some val ->
            let w' := step w (HandleAction r "deny") in
            promise_state w' r = Some (Fulfilled (Notification.outcome Deny val))
            /\ (isOpen n = true -> isClosing <$> heap w' !! r = Some true))).
Proof.
  split; [|split].
  - intros es r s. apply settled_for_ever.
  - intros e r He. apply (passive_same_promises e He w r).
  - intros r n val Hn Hp. split; intros Hpre w'.
    + unfold w'. rewrite (handleAction_confirm r n w Hn).
      destruct (act_plain Confirm _ val r n w Hn Hp Hpre) as [H1 H2].
      split; [exact H1|]. intros Ho. destruct (H2 Ho) as [n' [E C]].
      now rewrite E; simpl; rewrite C.
    + unfold w'. rewrite (handleAction_deny r n w Hn).
      destruct (act_plain Deny _ val r n w Hn Hp Hpre) as [H1 H2].
      split; [exact H1|]. intros Ho. destruct (H2 Ho) as [n' [E C]].
      now rewrite E; simpl; rewrite C.
Qed.

(** C1 at work: the confirm button of a fresh instance fulfils its signal, and
    neither a later press of the cancel button, nor an explicit close, nor the
    end of the exit animation changes it. *)
Lemma C1_witness :
  let w := run [Fire defaultOptions] (initial distinct_draws) in
  let w1 := step w (HandleAction 0 "confirm") in
  let s := Fulfilled {| isConfirmed := Some true; isDenied := None; value := None |} in
  promise_state w1 0 = Some s
  /\ isClosing <$> heap w1 !! 0 = Some true
  /\ promise_state (run [HandleAction 0 "deny"; Close 0; TimeoutFires 1] w1) 0 = Some s.
Proof.
  intros w w1 s.
  destruct (heap w !! 0) as [n|] eqn:Hn; [|vm_compute in Hn; discriminate].
  assert (Hf : state (promise n) = Pending /\ Options.preConfirm (options n) = None
               /\ isOpen n = true).
  { vm_compute in Hn. inversion Hn. repeat split. }
  destruct Hf as (Hp & Hpre & Ho).
  destruct (C1_signal_settles_at_most_once_by_confirm_or_deny w) as (_ & _ & Hact).
  destruct (Hact 0 n None Hn Hp) as [Hc _].
  assert (Hplain : plain (Options.preConfirm (options n)) = Some None) by now rewrite Hpre.
  destruct (Hc Hplain) as [H1 H2].
  destruct (C1_signal_settles_at_most_once_by_confirm_or_deny w1) as (Hstable & _ & _).
  split; [exact H1|]. split; [exact (H2 Ho)|].
  apply (Hstable _ 0 s H1). reflexivity.
Defined.

(** ** The outcome record *)

Lemma outcome_exactly_one a v : exactly_one_flag (Notification.outcome a v).
Proof. destruct a; reflexivity. Qed.

(** C6, as the code has it. Whatever the events, an outcome delivered by a
    completion signal has exactly one flag set: [isConfirmed] is true and
    [isDenied] absent after a confirm action, [isDenied] is true and
    [isConfirmed] absent after a deny action. A passive dismissal delivers no
    outcome at all: the expiry of a timer leaves every signal in the state it
    was in, so a pending signal stays pending. *)
Theorem C6_outcome_has_exactly_one_flag (es : list Event) (rnd : nat -> Id) :
  let w := run es (initial rnd) in
  (forall r o,
     promise_state w r = Some (Fulfilled o) ->
     exactly_one_flag o
     /\ ((isConfirmed o = Some true /\ isDenied o = None)
         \/ (isDenied o = Some true /\ isConfirmed o = None)))
  /\ (forall r n,
        heap w !! r = Some n -> state (promise n) = Pending ->
        (Options.preConfirm (options n) = None ->
         promise_state (step w (HandleAction r "confirm")) r
           = Some (Fulfilled {| isConfirmed := Some true; isDenied := None;
                                value := None |}))
        /\ (Options.preDeny (options n) = None ->
            promise_state (step w (HandleAction r "deny")) r
              = Some (Fulfilled {| isConfirmed := None; isDenied := Some true;
                                   value := None |})))
  /\ (forall h r, promise_state (step w (TimeoutFires h)) r = promise_state w r)
  /\ (forall h r, promise_state w r = Some Pending ->
                  promise_state (step w (TimeoutFires h)) r = Some Pending).
Proof.
  intros w. split; [|split; [|split]].
  - intros r o Hs. destruct (outcomes_from_actions es rnd r o Hs) as (a & v & ->).
    split; [apply outcome_exactly_one|]. destruct a; simpl; auto.
  - intros r n Hn Hp. split; intros Hpre.
    + rewrite (handleAction_confirm r n w Hn), Hpre.
      exact (proj1 (act_plain Confirm None None r n w Hn Hp eq_refl)).
    + rewrite (handleAction_deny r n w Hn), Hpre.
      exact (proj1 (act_plain Deny None None r n w Hn Hp eq_refl)).
  - intros h r. apply (fire_timeout_same_promises h).
  - intros h r Hp. unfold step, handler.
    now rewrite (fire_timeout_same_promises h w r).
Qed.

(** C6 at work: a cancel action on a fresh instance delivers
    [{ isDenied: true }]. *)
Lemma C6_witness :
  let es := [Fire defaultOptions; HandleAction 0 "deny"] in
  let o := {| isConfirmed := None; isDenied := Some true; value := None |} in
  promise_state (run es (initial distinct_draws)) 0 = Some (Fulfilled o)
  /\ exactly_one_flag o.
Proof.
  intros es o.
  assert (Hs : promise_state (run es (initial distinct_draws)) 0 = Some (Fulfilled o))
    by reflexivity.
  split; [exact Hs|].
  exact (proj1 (proj1 (C6_outcome_has_exactly_one_flag es distinct_draws) 0 o Hs)).
Defined.

(** ** Timer discipline is kept by every job *)

#[local] Instance keeps_preorder I : PreOrder (keeps I).
Proof. split; [intros w H; exact H | intros w1 w2 w3 H12 H23 H; auto]. Qed.

Lemma timers_ok_alter f r w :
  (forall n, timer (f n) = timer n) -> (forall n, isOpen (f n) = isOpen n) ->
  keeps timers_ok w (upd_heap (alter f r) w).
Proof.
  intros Ht Ho (H1 & H2 & H3). split; [exact H1|]. split.
  - intros r0 n h. simpl. intros Hn Hh.
    destruct (decide (r0 = r)) as [->|Hne].
    + rewrite list_lookup_alter_eq in Hn.
      destruct (heap w !! r) as [n0|] eqn:E; [|discriminate].
      simpl in Hn. inversion Hn; subst. rewrite Ht in Hh. eapply H2; eauto.
    + rewrite list_lookup_alter_ne in Hn by congruence. eapply H2; eauto.
  - intros t r0 Hin Hcb. simpl in *.
    destruct (H3 t r0 Hin Hcb) as (n0 & E & Eh & Eo).
    destruct (decide (r0 = r)) as [->|Hne].
    + exists (f n0). rewrite list_lookup_alter_eq, E. simpl. rewrite Ht, Ho. auto.
    + exists n0. rewrite list_lookup_alter_ne by congruence. auto.
Qed.

Lemma In_remove_handle t h ts :
  In t (remove_handle h ts) <-> In t ts /\ handle t <> h.
Proof.
  unfold remove_handle. rewrite filter_In, negb_true_iff, Nat.eqb_neq. reflexivity.
Qed.

Lemma timers_ok_clearTimeout h : follows (keeps timers_ok) (clearTimeout h).
Proof.
  intros w (H1 & H2 & H3). split; [exact H1|]. split; [exact H2|].
  intros t r0 Hin Hcb. simpl in Hin. apply In_remove_handle in Hin as [Hin _].
  exact (H3 t r0 Hin Hcb).
Qed.

Lemma timers_ok_setTimeout_destroy r ms :
  follows (keeps timers_ok) (setTimeout (CbDestroy r) ms).
Proof.
  intros w (H1 & H2 & H3). split; [simpl; lia|]. split; [exact H2|].
  intros t r0 Hin Hcb. simpl in Hin. apply in_app_or in Hin as [Hin|[<-|[]]].
  - exact (H3 t r0 Hin Hcb).
  - discriminate.
Qed.

Lemma timers_ok_clearTimer r : follows (keeps timers_ok) (Notification.clearTimer r).
Proof.
  intros w Hok. unfold Notification.clearTimer, bind, this.
  destruct (heap w !! r) as [n|] eqn:Hn; simpl; [|exact Hok].
  destruct (timer n) as [[|h]|] eqn:Ht; simpl; try exact Hok.
  destruct Hok as (H1 & H2 & H3). split; [exact H1|]. split.
  - intros r0 n0 h0. simpl. intros Hn0 Hh0.
    destruct (decide (r0 = r)) as [->|Hne].
    + rewrite list_lookup_alter_eq, Hn in Hn0. inversion Hn0; subst. discriminate.
    + rewrite list_lookup_alter_ne in Hn0 by congruence. eapply H2; eauto.
  - intros t r0 Hin Hcb. simpl in *. apply In_remove_handle in Hin as [Hin Hh].
    destruct (H3 t r0 Hin Hcb) as (n0 & E & Eh & Eo).
    destruct (decide (r0 = r)) as [->|Hne].
    + rewrite Hn in E. inversion E; subst. congruence.
    + exists n0. rewrite list_lookup_alter_ne by congruence. auto.
Qed.

(** After [clearTimer] the instance holds no handle and none of its
    auto-close callbacks is pending. *)
Lemma clearTimer_cancels r n w :
  timers_ok w -> heap w !! r = Some n ->
  Notification.clearTimer r w = (Normal tt, snd (Notification.clearTimer r w))
  /\ timer_cancelled r (snd (Notification.clearTimer r w)).
Proof.
  intros (H1 & H2 & H3) Hn. unfold Notification.clearTimer, bind, this. rewrite Hn.
  destruct (timer n) as [[|h]|] eqn:Ht; unfold timer_cancelled; simpl.
  - specialize (H2 r n 0 Hn Ht). lia.
  - split; [reflexivity|]. split.
    + now rewrite list_lookup_alter_eq, Hn.
    + intros t Hin Hcb. apply In_remove_handle in Hin as [Hin Hh].
      destruct (H3 t r Hin Hcb) as (n0 & E & Eh & _). congruence.
  - split; [reflexivity|]. split.
    + now rewrite Hn, <- Ht.
    + intros t Hin Hcb. destruct (H3 t r Hin Hcb) as (n0 & E & Eh & _). congruence.
Qed.

Lemma timers_ok_close r : follows (keeps timers_ok) (Notification.close r).
Proof.
  apply follows_close; try (intros ? ? H; exact H).
  - intros w. now apply timers_ok_alter.
  - apply timers_ok_clearTimer.
  - apply timers_ok_setTimeout_destroy.
Qed.

Lemma timers_ok_destroy r : follows (keeps timers_ok) (Notification.destroy r).
Proof. apply follows_destroy; intros ? ? H; exact H. Qed.

(** What a hook can do to the world: nothing, or one more line in the log. *)
Lemma call_hook_cases r name h w :
  snd (call_hook r name h w) = w
  \/ snd (call_hook r name h w) = upd_log (fun l => l ++ [(r, name)]) w.
Proof. destruct h as [[|e]|]; simpl; auto. Qed.

Lemma call_hook_quiet r name h w :
  quiet h = true -> fst (call_hook r name h w) = Normal tt.
Proof. destruct h as [[|e]|]; simpl; auto; discriminate. Qed.

(** To know something of the world a sequence leaves, look at where its first
    part stopped. *)
Lemma bind_post {A B} (m : JS A) (k : A -> JS B) (Q : World -> Prop) w :
  (forall e w1, m w = (Abrupt e, w1) -> Q w1) ->
  (forall a w1, m w = (Normal a, w1) -> Q (snd (k a w1))) ->
  Q (snd (bind m k w)).
Proof. unfold bind. destruct (m w) as [[a|e] w1]; simpl; eauto. Qed.

(** An instance that is not open has no auto-close callback pending. *)
Lemma not_open_no_callback r n w :
  timers_ok w -> heap w !! r = Some n -> isOpen n = false ->
  forall t, In t (timeouts w) -> callback t <> CbClose r.
Proof.
  intros (_ & _ & H3) Hn Ho t Hin Hcb.
  destruct (H3 t r Hin Hcb) as (n0 & E & _ & Eo). congruence.
Qed.

Lemma timers_ok_set_isOpen r n w :
  timers_ok w -> heap w !! r = Some n -> isOpen n = false ->
  timers_ok (upd_heap (alter (set_isOpen true) r) w).
Proof.
  intros Hok Hn Ho. pose proof (not_open_no_callback r n w Hok Hn Ho) as Hnone.
  destruct Hok as (H1 & H2 & H3). split; [exact H1|]. split.
  - intros r0 n0 h0. simpl. intros Hn0 Hh0.
    destruct (decide (r0 = r)) as [->|Hne].
    + rewrite list_lookup_alter_eq, Hn in Hn0. inversion Hn0; subst. eapply H2; eauto.
    + rewrite list_lookup_alter_ne in Hn0 by congruence. eapply H2; eauto.
  - intros t r0 Hin Hcb. simpl in *.
    assert (Hne : r0 <> r) by (intros ->; exact (Hnone t Hin Hcb)).
    destruct (H3 t r0 Hin Hcb) as (n0 & E & Eh & Eo).
    exists n0. rewrite list_lookup_alter_ne by congruence. auto.
Qed.

(** Arming the timer of an open instance that has none pending. *)
Lemma timers_ok_startTimer r n w :
  timers_ok w -> heap w !! r = Some n -> isOpen n = true ->
  (forall t, In t (timeouts w) -> callback t <> CbClose r) ->
  timers_ok (snd (Notification.startTimer r w)).
Proof.
  intros (H1 & H2 & H3) Hn Ho Hnone.
  unfold Notification.startTimer, bind, this. rewrite Hn. simpl.
  split; [simpl; lia|]. split.
  - intros r0 n0 h0. simpl. intros Hn0 Hh0.
    destruct (decide (r0 = r)) as [->|Hne].
    + rewrite list_lookup_alter_eq, Hn in Hn0. inversion Hn0; subst.
      simpl in Hh0. inversion Hh0; subst. exact H1.
    + rewrite list_lookup_alter_ne in Hn0 by congruence. eapply H2; eauto.
  - intros t r0 Hin Hcb. simpl in *. apply in_app_or in Hin as [Hin|[<-|[]]].
    + assert (Hne : r0 <> r) by (intros ->; exact (Hnone t Hin Hcb)).
      destruct (H3 t r0 Hin Hcb) as (n0 & E & Eh & Eo).
      exists n0. rewrite list_lookup_alter_ne by congruence. auto.
    + simpl in Hcb. inversion Hcb; subst.
      exists (set_timer (Some (nextHandle w)) n).
      rewrite list_lookup_alter_eq, Hn. simpl. auto.
Qed.

Lemma timers_ok_call_hook r name h : follows (keeps timers_ok) (call_hook r name h).
Proof. apply follows_call_hook. intros ? ? H; exact H. Qed.

Lemma timers_ok_open r : follows (keeps timers_ok) (Notification.open r).
Proof.
  intros w Hok. rewrite open_eq.
  unfold bind at 1, this. destruct (heap w !! r) as [n|] eqn:Hn; [|exact Hok].
  destruct (isOpen n) eqn:Ho; [exact Hok|].
  pose proof (not_open_no_callback r n w Hok Hn Ho) as Hnone.
  pose proof (timers_ok_set_isOpen r n w Hok Hn Ho) as Hok2.
  apply bind_post.
  - intros e w1 E. pose proof (timers_ok_call_hook r WillOpen
      (Options.willOpen (options n)) w Hok) as H. now rewrite E in H.
  - intros [] w1 E.
    assert (Hw1 : w1 = w \/ w1 = upd_log (fun l => l ++ [(r, WillOpen)]) w).
    { pose proof (call_hook_cases r WillOpen (Options.willOpen (options n)) w) as H.
      now rewrite E in H. }
    assert (H2 : timers_ok (upd_heap (alter (set_isOpen true) r) w1)
                 /\ heap (upd_heap (alter (set_isOpen true) r) w1) !! r
                      = Some (set_isOpen true n)
                 /\ timeouts (upd_heap (alter (set_isOpen true) r) w1) = timeouts w).
    { destruct Hw1 as [-> | ->]; simpl; rewrite list_lookup_alter_eq, Hn;
        (split; [exact Hok2|split; reflexivity]). }
    destruct H2 as (Hok3 & Hn3 & Hts3).
    assert (Hok1 : timers_ok w1) by (destruct Hw1 as [-> | ->]; exact Hok).
    pose proof (show_classes_world n w1) as Hs.
    apply bind_post; [intros e w2 E2; rewrite E2 in Hs; simpl in Hs; now subst w2|].
    intros [] w2 E2. rewrite E2 in Hs. simpl in Hs. subst w2. clear E2.
    unfold assign. apply bind_post; [intros e w2 E2; inversion E2|].
    intros [] w2 E2. inversion E2; subst w2. clear E2.
    apply bind_post.
    + intros e w3 E3. destruct (truthy (Options.timer (options n))).
      * pose proof (timers_ok_startTimer r _ _ Hok3 Hn3 eq_refl) as H.
        rewrite Hts3 in H. specialize (H Hnone). now rewrite E3 in H.
      * inversion E3.
    + intros [] w3 E3. apply (timers_ok_call_hook r DidOpen _ w3).
      destruct (truthy (Options.timer (options n))).
      * pose proof (timers_ok_startTimer r _ _ Hok3 Hn3 eq_refl) as H.
        rewrite Hts3 in H. specialize (H Hnone). now rewrite E3 in H.
      * inversion E3; subst. exact Hok3.
Qed.

Lemma timers_ok_alloc n :
  timer n = None -> follows (keeps timers_ok) (alloc n).
Proof.
  intros Ht w (H1 & H2 & H3). split; [exact H1|]. split.
  - intros r0 n0 h0. simpl. intros Hn0 Hh0.
    apply lookup_app_Some in Hn0 as [Hn0|[_ Hn0]].
    + eapply H2; eauto.
    + destruct (r0 - length (heap w)) as [|k]; simpl in Hn0; [|discriminate].
      inversion Hn0; subst. congruence.
  - intros t r0 Hin Hcb. simpl in *.
    destruct (H3 t r0 Hin Hcb) as (n0 & E & Eh & Eo).
    exists n0. split; [|auto]. now apply lookup_app_l_Some.
Qed.

Lemma timers_ok_constructor o : follows (keeps timers_ok) (Notification.constructor o).
Proof.
  unfold Notification.constructor. follow.
  - intros w H. exact H.
  - now apply timers_ok_alloc.
  - apply follows_create; try (intros ? ? H; exact H).
    intros w. now apply timers_ok_alter.
  - apply timers_ok_open.
Qed.

Lemma timers_ok_set_promise p r w :
  keeps timers_ok w (upd_heap (alter (set_promise p) r) w).
Proof. now apply timers_ok_alter. Qed.

(** Every run keeps the timer discipline. *)
Lemma timers_ok_run es w : timers_ok w -> timers_ok (run es w).
Proof.
  revert w. change (forall w, keeps timers_ok w (run es w)). intros w.
  apply follows_run; try (intros; intro H; exact H).
  - apply timers_ok_clearTimeout.
  - apply timers_ok_constructor.
  - apply timers_ok_close.
  - apply timers_ok_destroy.
  - intros r a v. unfold resolve, assign. follow; try apply timers_ok_set_promise.
    intros H; exact H.
  - intros r e. unfold reject, assign. follow; apply timers_ok_set_promise.
  - intros r f. unfold then_, assign. follow; try apply timers_ok_set_promise.
    intros H; exact H.
Qed.

Lemma timers_ok_initial rnd : timers_ok (initial rnd).
Proof.
  split; [simpl; lia|]. split.
  - intros r n h Hn. simpl in Hn. rewrite lookup_nil in Hn. discriminate.
  - intros t r [].
Qed.

(** ** [close]: idempotence and the timer *)

Lemma timer_cancelled_rest r n :
  follows (keeps (timer_cancelled r))
    (if Options.animation (options n)
     then hide_classes n >>
          let* _ := setTimeout (CbDestroy r) (Options.animationDuration (options n)) in ret tt
     else Notification.destroy r).
Proof.
  destruct (Options.animation (options n)).
  - follow. intros w [Ht Hc]. split; [exact Ht|].
    intros t Hin. simpl in Hin. apply in_app_or in Hin as [Hin|[<-|[]]].
    + now apply Hc.
    + discriminate.
  - apply follows_destroy; intros ? ? H; exact H.
Qed.

(** A close that gets past the [willClose] hook cancels the timer. *)
Lemma close_cancels_timer r n w :
  timers_ok w -> heap w !! r = Some n -> live n = true ->
  quiet (Options.willClose (options n)) = true ->
  timer_cancelled r (snd (Notification.close r w)).
Proof.
  intros Hok Hn Hl Hq. rewrite (close_live r n w Hn Hl).
  set (w1 := upd_heap (alter (set_isClosing true) r) w).
  assert (Hok1 : timers_ok w1) by (now apply timers_ok_alter).
  assert (Hn1 : heap w1 !! r = Some (set_isClosing true n)).
  { unfold w1. simpl. now rewrite list_lookup_alter_eq, Hn. }
  apply bind_post.
  - intros e w2 E. pose proof (call_hook_quiet r WillClose _ w1 Hq) as H.
    rewrite E in H. discriminate.
  - intros [] w2 E.
    assert (H2 : timers_ok w2 /\ heap w2 !! r = Some (set_isClosing true n)).
    { pose proof (call_hook_cases r WillClose (Options.willClose (options n)) w1) as H.
      rewrite E in H. simpl in H. destruct H as [-> | ->]; split; assumption. }
    destruct H2 as [Hok2 Hn2].
    destruct (clearTimer_cancels r _ w2 Hok2 Hn2) as [Ec Hc].
    apply bind_post.
    + intros e w3 E3. rewrite E3 in Ec. discriminate.
    + intros [] w3 E3. apply (timer_cancelled_rest r n w3).
      now rewrite E3 in Hc.
Qed.

(** A second [close] finds the world the first one left and leaves it. *)
Lemma close_twice r w :
  let w1 := snd (Notification.close r w) in
  Notification.close r w1 = (fst (Notification.close r w1), w1).
Proof.
  intros w1. destruct (heap w !! r) as [n|] eqn:Hn.
  - destruct (isOpen n) eqn:Ho.
    + destruct (close_sets_isClosing r n w Hn Ho) as (n' & E & C).
      now rewrite (close_noop r n' w1 E) by auto.
    + assert (Ew : w1 = w) by (unfold w1; now rewrite (close_noop r n w Hn) by auto).
      rewrite Ew. now rewrite (close_noop r n w Hn) by auto.
  - assert (E : forall w0, heap w0 !! r = None ->
                  Notification.close r w0 = (Abrupt (TypeError "undefined receiver"), w0)).
    { intros w0 H0. unfold Notification.close, bind, this. now rewrite H0. }
    assert (Ew : w1 = w) by (unfold w1; now rewrite E).
    rewrite Ew. now rewrite E.
Qed.

(** C9, counterexample: the timer is cancelled after the [willClose] hook, so
    a hook that raises leaves the instance flagged closing with its timer
    armed. *)
Lemma C9_raising_willClose_leaves_the_timer_armed :
  let o := with_timer (Some 100) (with_willClose (Some (Raises 7)) defaultOptions) in
  let w := run [Fire o] (initial distinct_draws) in
  let w1 := step w (Close 0) in
  isClosing <$> heap w1 !! 0 = Some true
  /\ timer <$> heap w1 !! 0 = Some (Some 1)
  /\ timeouts w1 = [{| handle := 1; delay := 100; callback := CbClose 0 |}]
  /\ ~ timer_cancelled 0 w1.
Proof.
  vm_compute. repeat split. intros [H _]. discriminate.
Qed.

(** C9, as the code has it. [close] on an instance that is closing (or that
    never opened) returns at once and leaves the world as it is: no field
    changes, no hook is logged, no promise is settled. A destroyed instance is
    still flagged closing, because [destroy] assigns no field of any instance;
    so a second [close] after a first one never changes anything. An open
    instance is flagged closing by [close] whatever its hooks do. And in every
    world the event loop can reach, a [close] of an open instance whose
    [willClose] hook is absent or returns cancels the timer: the instance
    holds no handle any more and no auto-close callback of it is pending. *)
Theorem C9_close_is_idempotent_and_cancels_the_timer :
  (forall w r n,
     heap w !! r = Some n -> isClosing n = true \/ isOpen n = false ->
     Notification.close r w = (Normal tt, w))
  /\ (forall w r, heap (snd (Notification.destroy r w)) = heap w)
  /\ (forall w r, step (step w (Close r)) (Close r) = step w (Close r))
  /\ (forall w r n,
        heap w !! r = Some n -> isOpen n = true ->
        exists n', heap (step w (Close r)) !! r = Some n' /\ isClosing n' = true)
  /\ (forall es rnd r n,
        let w := run es (initial rnd) in
        heap w !! r = Some n -> live n = true ->
        quiet (Options.willClose (options n)) = true ->
        timer_cancelled r (step w (Close r))).
Proof.
  split; [|split; [|split; [|split]]].
  - intros w r n. apply close_noop.
  - intros w r. apply destroy_heap.
  - intros w r. unfold step, handler. now rewrite (close_twice r w).
  - intros w r n. apply close_sets_isClosing.
  - intros es rnd r n w Hn Hl Hq. apply (close_cancels_timer r n w); auto.
    apply timers_ok_run, timers_ok_initial.
Qed.

(** C9 at work: an instance with a timer of 100 ms is closed by hand; its
    timer is cancelled, and closing it again changes nothing. *)
Lemma C9_witness :
  let w := run [Fire (with_timer (Some 100) defaultOptions)] (initial distinct_draws) in
  let w1 := step w (Close 0) in
  timeouts w = [{| handle := 1; delay := 100; callback := CbClose 0 |}]
  /\ timer_cancelled 0 w1
  /\ Notification.close 0 w1 = (Normal tt, w1).
Proof.
  intros w w1.
  destruct C9_close_is_idempotent_and_cancels_the_timer as (Hnoop & _ & _ & _ & Hcancel).
  destruct (heap w !! 0) as [n|] eqn:Hn; [|vm_compute in Hn; discriminate].
  assert (Hf : live n = true /\ quiet (Options.willClose (options n)) = true).
  { vm_compute in Hn. inversion Hn. split; reflexivity. }
  destruct Hf as [Hl Hq].
  split; [reflexivity|]. split.
  - exact (Hcancel [Fire (with_timer (Some 100) defaultOptions)] distinct_draws 0 n Hn Hl Hq).
  - destruct (heap w1 !! 0) as [n1|] eqn:Hn1; [|vm_compute in Hn1; discriminate].
    apply (Hnoop w1 0 n1 Hn1). left. vm_compute in Hn1. inversion Hn1. reflexivity.
Defined.

(** ** Hooks *)

(** Runs a method on a receiver whose cell is known. *)
Ltac run_on Hn :=
  repeat (unfold bind, this, assign, modify, ret, throw, setTimeout, clearTimeout,
            call_hook, Notification.clearTimer, Notification.startTimer,
            Notification.destroy;
          simpl; rewrite ?list_lookup_alter_eq, ?Hn; simpl).

Lemma open_raises r n e w :
  heap w !! r = Some n -> isOpen n = false ->
  Options.willOpen (options n) = Some (Raises e) ->
  Notification.open r w
    = (Abrupt (UserValue e), upd_log (fun l => l ++ [(r, WillOpen)]) w).
Proof.
  intros Hn Ho Hh. unfold Notification.open.
  rewrite (bind_normal _ _ _ _ _ (this_some _ _ _ Hn)). rewrite Ho, Hh. reflexivity.
Qed.

Lemma close_raises r n e w :
  heap w !! r = Some n -> live n = true ->
  Options.willClose (options n) = Some (Raises e) ->
  Notification.close r w
    = (Abrupt (UserValue e),
       upd_log (fun l => l ++ [(r, WillClose)])
         (upd_heap (alter (set_isClosing true) r) w)).
Proof.
  intros Hn Hl Hh. rewrite (close_live r n w Hn Hl). rewrite Hh. reflexivity.
Qed.

Lemma destroy_raises r n e w :
  heap w !! r = Some n -> Options.didClose (options n) = Some (Raises e) ->
  Notification.destroy r w
    = (Abrupt (UserValue e), upd_log (fun l => l ++ [(r, DidClose)]) w).
Proof.
  intros Hn Hh. unfold Notification.destroy.
  rewrite (bind_normal _ _ _ _ _ (this_some _ _ _ Hn)). rewrite Hh. reflexivity.
Qed.

(** A hook that returns, or that is not there, completes; what it leaves is
    its line in the log. *)
Lemma call_hook_returns r name h w :
  quiet h = true ->
  call_hook r name h w = (Normal tt, upd_log (fun l => l ++ hook_line r name h) w).
Proof.
  destruct h as [[|e]|]; try discriminate; intros _; [reflexivity|].
  destruct w. unfold call_hook, ret, upd_log. simpl. now rewrite app_nil_r.
Qed.

Lemma destroy_didDestroy_raises r n e w :
  heap w !! r = Some n ->
  quiet (Options.didClose (options n)) = true ->
  Options.didDestroy (options n) = Some (Raises e) ->
  Notification.destroy r w
    = (Abrupt (UserValue e),
       upd_log (fun l => l ++ [(r, DidDestroy)])
         (upd_notifications (Map_delete (id n))
            (upd_log (fun l => l ++ hook_line r DidClose (Options.didClose (options n)))
               w))).
Proof.
  intros Hn Hq Hh. unfold Notification.destroy.
  rewrite (bind_normal _ _ _ _ _ (this_some _ _ _ Hn)).
  rewrite (bind_normal _ _ _ _ _ (call_hook_returns r DidClose _ w Hq)).
  rewrite Hh. reflexivity.
Qed.

Lemma opened_facts r n w :
  heap w !! r = Some n ->
  (if truthy (Options.timer (options n)) then Notification.startTimer r else ret tt)
    (upd_heap (alter (set_isOpen true) r)
       (upd_log (fun l => l ++ hook_line r WillOpen (Options.willOpen (options n))) w))
  = (Normal tt, opened r n w)
  /\ log (opened r n w)
     = log w ++ hook_line r WillOpen (Options.willOpen (options n))
  /\ isOpen <$> heap (opened r n w) !! r = Some true
  /\ notifications (opened r n w) = notifications w
  /\ (truthy (Options.timer (options n)) = true ->
      timer <$> heap (opened r n w) !! r = Some (Some (nextHandle w))
      /\ In {| handle := nextHandle w; delay := default 0 (Options.timer (options n));
               callback := CbClose r |} (timeouts (opened r n w))).
Proof.
  intros Hn. unfold opened.
  destruct (truthy (Options.timer (options n))); run_on Hn;
    rewrite ?list_lookup_alter_eq, ?Hn; simpl; repeat split; try reflexivity;
    try discriminate.
  apply in_or_app. right. now left.
Qed.

(** Up to [didOpen]: with a [willOpen] that returns and class names that are
    well formed, what is left of [open] is the call of [didOpen]. *)
Lemma open_to_didOpen r n w :
  heap w !! r = Some n -> isOpen n = false ->
  quiet (Options.willOpen (options n)) = true ->
  shows_cleanly n = true ->
  Notification.open r w
  = call_hook r DidOpen (Options.didOpen (options n)) (opened r n w).
Proof.
  intros Hn Ho Hq Hs. rewrite open_eq.
  rewrite (bind_normal _ _ _ _ _ (this_some _ _ _ Hn)). rewrite Ho.
  rewrite (bind_normal _ _ _ _ _ (call_hook_returns r WillOpen _ w Hq)).
  rewrite (bind_normal _ _ _ _ _ (show_classes_ok n _ Hs)).
  unfold assign. unfold bind at 1, modify.
  destruct (opened_facts r n w Hn) as (E & _).
  now rewrite (bind_normal _ _ _ _ _ E).
Qed.

(** With hooks that return and class names that are well formed, [open] runs
    to its end: both hooks are called, in order, within the call, and the
    instance is open. *)
Lemma open_quiet r n w :
  heap w !! r = Some n -> isOpen n = false ->
  quiet (Options.willOpen (options n)) = true ->
  shows_cleanly n = true ->
  quiet (Options.didOpen (options n)) = true ->
  exists w',
    Notification.open r w = (Normal tt, w')
    /\ log w' = log w ++ hook_line r WillOpen (Options.willOpen (options n))
                      ++ hook_line r DidOpen (Options.didOpen (options n))
    /\ isOpen <$> heap w' !! r = Some true.
Proof.
  intros Hn Ho Hq1 Hs Hq2. rewrite (open_to_didOpen r n w Hn Ho Hq1 Hs).
  destruct (opened_facts r n w Hn) as (_ & L & O & _).
  rewrite (call_hook_returns _ _ _ _ Hq2). eexists. split; [reflexivity|].
  simpl. rewrite L, <- app_assoc. split; [reflexivity|exact O].
Qed.

(** A [didOpen] that raises is reached with the instance open and its timer
    armed, and is not caught. *)
Lemma open_didOpen_raises r n e w :
  heap w !! r = Some n -> isOpen n = false ->
  quiet (Options.willOpen (options n)) = true ->
  shows_cleanly n = true ->
  Options.didOpen (options n) = Some (Raises e) ->
  Notification.open r w
    = (Abrupt (UserValue e), upd_log (fun l => l ++ [(r, DidOpen)]) (opened r n w)).
Proof.
  intros Hn Ho Hq Hs Hh. rewrite (open_to_didOpen r n w Hn Ho Hq Hs).
  rewrite Hh. reflexivity.
Qed.

(** Class names that are not well formed make [open] raise at its class-list
    calls: [willOpen] has run, the instance is not open, no timer is armed and
    [didOpen] is not called. *)
Lemma open_raises_at_classes r n w :
  heap w !! r = Some n -> isOpen n = false ->
  quiet (Options.willOpen (options n)) = true ->
  shows_cleanly n = false ->
  exists e,
    Notification.open r w
    = (Abrupt e,
       upd_log (fun l => l ++ hook_line r WillOpen (Options.willOpen (options n))) w).
Proof.
  intros Hn Ho Hq Hs. rewrite open_eq.
  rewrite (bind_normal _ _ _ _ _ (this_some _ _ _ Hn)). rewrite Ho.
  rewrite (bind_normal _ _ _ _ _ (call_hook_returns r WillOpen _ w Hq)).
  destruct (show_classes_raises n
              (upd_log (fun l => l ++ hook_line r WillOpen (Options.willOpen (options n))) w)
              Hs) as [e E].
  exists e. now rewrite (bind_abrupt _ _ _ _ _ E).
Qed.

(** With hooks that return and no exit animation, [close] runs to its end
    within the call: the three hooks are called in order and the instance
    leaves the registry. *)
Lemma close_quiet r n w :
  heap w !! r = Some n -> live n = true ->
  Options.animation (options n) = false ->
  quiet (Options.willClose (options n)) = true ->
  quiet (Options.didClose (options n)) = true ->
  quiet (Options.didDestroy (options n)) = true ->
  exists w',
    Notification.close r w = (Normal tt, w')
    /\ log w' = log w ++ hook_line r WillClose (Options.willClose (options n))
                      ++ hook_line r DidClose (Options.didClose (options n))
                      ++ hook_line r DidDestroy (Options.didDestroy (options n))
    /\ notifications w' = Map_delete (id n) (notifications w)
    /\ maxNotifications w' = maxNotifications w.
Proof.
  intros Hn Hl Ha Hq1 Hq2 Hq3. rewrite (close_live r n w Hn Hl). rewrite Ha.
  destruct (Options.willClose (options n)) as [[|e1]|]; try discriminate;
    destruct (Options.didClose (options n)) as [[|e2]|] eqn:E2; try discriminate;
    destruct (Options.didDestroy (options n)) as [[|e3]|] eqn:E3; try discriminate;
    destruct (timer n) as [[|h]|] eqn:Et;
    run_on Hn; rewrite ?Et, ?E2, ?E3; run_on Hn; rewrite ?E2, ?E3; simpl;
    eexists; (split; [reflexivity|]); simpl;
    rewrite ?app_nil_r, <- ?app_assoc; simpl; repeat split; reflexivity.
Qed.

(** C8, as the code has it. Hooks are called within the call of their
    transition, in order: with hooks that return and class names that are
    well formed, [open] calls [willOpen] and [didOpen] and leaves the instance
    open, and a [close] without exit animation calls [willClose], [didClose]
    and [didDestroy] and removes the instance from the registry. No hook,
    whatever it does, reaches a completion signal: [open], [close] and
    [destroy] leave every promise as it was. But none of the five hooks is
    caught when it raises: the exception goes to the caller and the rest of
    the transition is skipped. After a raising [willOpen] only the log has
    changed; a raising [didOpen] is reached with the instance open and its
    timer armed; after a raising [willClose] the instance is flagged closing
    and nothing else was done (the timer is not cancelled, no destruction is
    scheduled); after a raising [didClose] the instance is still in the
    registry; a raising [didDestroy] is reached with the instance removed. The
    class-list calls of [open] raise as well, when the class names of
    [showClass] are not well formed: then [willOpen] has run, the instance is
    not open and [didOpen] is not called. *)
Theorem C8_hooks_run_in_place_and_are_not_caught (w : World) (r : Ref) (n : Notification) :
  heap w !! r = Some n ->
  (forall r',
     promise_state (snd (Notification.open r w)) r' = promise_state w r'
     /\ promise_state (snd (Notification.close r w)) r' = promise_state w r'
     /\ promise_state (snd (Notification.destroy r w)) r' = promise_state w r')
  /\ (isOpen n = false ->
      quiet (Options.willOpen (options n)) = true ->
      shows_cleanly n = true ->
      quiet (Options.didOpen (options n)) = true ->
      exists w',
        Notification.open r w = (Normal tt, w')
        /\ log w' = log w ++ hook_line r WillOpen (Options.willOpen (options n))
                          ++ hook_line r DidOpen (Options.didOpen (options n))
        /\ isOpen <$> heap w' !! r = Some true)
  /\ (live n = true ->
      Options.animation (options n) = false ->
      quiet (Options.willClose (options n)) = true ->
      quiet (Options.didClose (options n)) = true ->
      quiet (Options.didDestroy (options n)) = true ->
      exists w',
        Notification.close r w = (Normal tt, w')
        /\ log w' = log w ++ hook_line r WillClose (Options.willClose (options n))
                          ++ hook_line r DidClose (Options.didClose (options n))
                          ++ hook_line r DidDestroy (Options.didDestroy (options n))
        /\ notifications w' = Map_delete (id n) (notifications w))
  /\ (forall e,
        isOpen n = false -> Options.willOpen (options n) = Some (Raises e) ->
        Notification.open r w
          = (Abrupt (UserValue e), upd_log (fun l => l ++ [(r, WillOpen)]) w))
  /\ (forall e,
        isOpen n = false ->
        quiet (Options.willOpen (options n)) = true ->
        shows_cleanly n = true ->
        Options.didOpen (options n) = Some (Raises e) ->
        Notification.open r w
          = (Abrupt (UserValue e),
             upd_log (fun l => l ++ [(r, DidOpen)]) (opened r n w))
        /\ isOpen <$> heap (opened r n w) !! r = Some true
        /\ (truthy (Options.timer (options n)) = true ->
            timer <$> heap (opened r n w) !! r = Some (Some (nextHandle w))
            /\ In {| handle := nextHandle w;
                     delay := default 0 (Options.timer (options n));
                     callback := CbClose r |} (timeouts (opened r n w))))
  /\ (forall e,
        live n = true -> Options.willClose (options n) = Some (Raises e) ->
        Notification.close r w
          = (Abrupt (UserValue e),
             upd_log (fun l => l ++ [(r, WillClose)])
               (upd_heap (alter (set_isClosing true) r) w)))
  /\ (forall e,
        Options.didClose (options n) = Some (Raises e) ->
        Notification.destroy r w
          = (Abrupt (UserValue e), upd_log (fun l => l ++ [(r, DidClose)]) w))
  /\ (forall e,
        quiet (Options.didClose (options n)) = true ->
        Options.didDestroy (options n) = Some (Raises e) ->
        Notification.destroy r w
          = (Abrupt (UserValue e),
             upd_log (fun l => l ++ [(r, DidDestroy)])
               (upd_notifications (Map_delete (id n))
                  (upd_log
                     (fun l => l ++ hook_line r DidClose (Options.didClose (options n)))
                     w))))
  /\ (isOpen n = false ->
      quiet (Options.willOpen (options n)) = true ->
      shows_cleanly n = false ->
      exists e,
        Notification.open r w
        = (Abrupt e,
           upd_log (fun l => l ++ hook_line r WillOpen (Options.willOpen (options n)))
             w)).
Proof.
  intros Hn. split; [|repeat apply conj].
  - intros r'. split; [apply open_same_promises|].
    split; [apply close_same_promises | apply destroy_same_promises].
  - now apply open_quiet.
  - intros Hl Ha Hq1 Hq2 Hq3.
    destruct (close_quiet r n w Hn Hl Ha Hq1 Hq2 Hq3) as (w' & E & L & D & _). eauto.
  - intros e. now apply open_raises.
  - intros e Ho Hq Hs Hh. split; [now apply open_didOpen_raises|].
    destruct (opened_facts r n w Hn) as (_ & _ & O & _ & T). auto.
  - intros e. now apply close_raises.
  - intros e. now apply destroy_raises.
  - intros e. now apply destroy_didDestroy_raises.
  - now apply open_raises_at_classes.
Qed.

(** C8 at work: an instance without exit animation whose [willClose] hook
    returns; [close] calls the hook and removes the instance, its promise
    still pending. *)
Lemma C8_witness :
  let o := with_animation false (with_willClose (Some Returns) defaultOptions) in
  let w := run [Fire o] (initial distinct_draws) in
  exists w',
    Notification.close 0 w = (Normal tt, w')
    /\ log w' = [(0, WillClose)]
    /\ notifications w' = []
    /\ promise_state w' 0 = Some Pending.
Proof.
  intros o w.
  destruct (heap w !! 0) as [n|] eqn:Hn; [|vm_compute in Hn; discriminate].
  assert (En : n = {| options := o; id := 0; backdrop := true; timer := None;
                      isOpen := true; isClosing := false;
                      promise := {| state := Pending; reactions := [] |} |}).
  { vm_compute in Hn. inversion Hn. reflexivity. }
  destruct (C8_hooks_run_in_place_and_are_not_caught w 0 n Hn) as (Hp & _ & Hc & _).
  subst n.
  destruct (Hc eq_refl eq_refl eq_refl eq_refl eq_refl) as (w' & E & L & D).
  exists w'. split; [exact E|]. split; [exact L|]. split; [exact D|].
  destruct (Hp 0) as (_ & Hcl & _). rewrite E in Hcl. exact Hcl.
Defined.

(** ** The constructor *)

Lemma constructor_eq o w :
  Notification.constructor o w
  = (Notification.create (length (heap w)) >>
     Notification.open (length (heap w)) >>
     ret (length (heap w))) (allocated o w).
Proof. reflexivity. Qed.

Lemma heap_allocated o w :
  heap (allocated o w) !! length (heap w) = Some (fresh o (random w (draws w))).
Proof. unfold allocated. simpl. now apply list_lookup_middle. Qed.

#[local] Instance same_registry_preorder : PreOrder same_registry.
Proof.
  split.
  - intros w. split; reflexivity.
  - intros w1 w2 w3 [H1 H2] [H3 H4]. split; congruence.
Qed.

Lemma create_frame r : follows (frame r) (Notification.create r).
Proof.
  apply follows_create; intros; intros r' Hr; simpl; try reflexivity;
    now rewrite list_lookup_alter_ne by congruence.
Qed.

Lemma open_frame r : follows (frame r) (Notification.open r).
Proof.
  apply follows_open; intros; intros r' Hr; simpl; try reflexivity;
    now rewrite list_lookup_alter_ne by congruence.
Qed.

(** The constructor touches no object that existed before. *)
Lemma constructor_frame o w r' :
  r' < length (heap w) ->
  heap (snd (Notification.constructor o w)) !! r' = heap w !! r'.
Proof.
  intros Hr. rewrite constructor_eq.
  assert (H : follows (frame (length (heap w)))
                (Notification.create (length (heap w)) >>
                 Notification.open (length (heap w)) >> ret (length (heap w)))).
  { follow; [apply create_frame | apply open_frame]. }
  rewrite (H (allocated o w) r') by lia.
  unfold allocated. simpl. now apply lookup_app_l.
Qed.

Lemma constructor_same_registry o : follows same_registry (Notification.constructor o).
Proof.
  unfold Notification.constructor. follow.
  - intros w. split; reflexivity.
  - intros w. split; reflexivity.
  - apply follows_create; intros; split; reflexivity.
  - apply follows_open; intros; split; reflexivity.
Qed.

(** [create] gives the instance its backdrop element and assigns no other
    field. *)
Lemma create_cell r n w :
  heap w !! r = Some n ->
  heap (snd (Notification.create r w)) !! r = Some (rendered n).
Proof.
  intros Hn. unfold Notification.create.
  rewrite (bind_normal _ _ _ _ _ (this_some _ _ _ Hn)). unfold rendered.
  destruct (Options.backdrop (options n)).
  - unfold assign. unfold bind at 1, modify.
    destruct (call_hook_cases r DidRender (Options.didRender (options n))
                (upd_heap (alter (set_backdrop true) r) w)) as [-> | ->];
      simpl; now rewrite list_lookup_alter_eq, Hn.
  - unfold bind at 1, ret.
    destruct (call_hook_cases r DidRender (Options.didRender (options n)) w) as [-> | ->];
      exact Hn.
Qed.

Lemma rendered_fields m :
  isOpen (rendered m) = isOpen m /\ isClosing (rendered m) = isClosing m
  /\ options (rendered m) = options m /\ id (rendered m) = id m
  /\ timer (rendered m) = timer m /\ promise (rendered m) = promise m.
Proof. unfold rendered. now destruct (Options.backdrop (options m)). Qed.

(** When [open] completes on an instance that was not open, the instance is
    open, and nothing else of it changed but its timer. *)
Lemma open_normal r n w w' :
  heap w !! r = Some n -> isOpen n = false ->
  Notification.open r w = (Normal tt, w') ->
  exists n', heap w' !! r = Some n' /\ isOpen n' = true
             /\ isClosing n' = isClosing n /\ options n' = options n /\ id n' = id n.
Proof.
  intros Hn Ho. rewrite open_eq.
  rewrite (bind_normal _ _ _ _ _ (this_some _ _ _ Hn)). rewrite Ho. intros E.
  apply bind_inv_normal in E as ([] & w1 & E1 & E).
  apply bind_inv_normal in E as ([] & w2 & E2 & E).
  pose proof (show_classes_world n w1) as Hs. rewrite E2 in Hs. simpl in Hs. subst w2.
  assert (Hn1 : heap w1 !! r = Some n).
  { destruct (call_hook_cases r WillOpen (Options.willOpen (options n)) w) as [H|H];
      rewrite E1 in H; simpl in H; subst w1; exact Hn. }
  clear E1 E2. revert E.
  destruct (Options.didOpen (options n)) as [[|e2]|];
    destruct (truthy (Options.timer (options n)));
    run_on Hn1; intros E; inversion E; subst; simpl;
    rewrite ?list_lookup_alter_eq, ?Hn1; simpl; eexists; repeat split.
Qed.

(** When the constructor completes, the new object is the last cell of the
    heap, carries the options and the drawn id, and is open and not closing. *)
Lemma constructor_normal o w r w1 :
  Notification.constructor o w = (Normal r, w1) ->
  r = length (heap w)
  /\ exists n, heap w1 !! r = Some n /\ options n = o
               /\ id n = random w (draws w) /\ live n = true.
Proof.
  rewrite constructor_eq. intros E.
  apply bind_inv_normal in E as ([] & wb & Ecreate & E).
  apply bind_inv_normal in E as ([] & wc & Eopen & E).
  inversion E; subst. split; [reflexivity|].
  assert (Hb : heap wb !! length (heap w)
               = Some (rendered (fresh o (random w (draws w))))).
  { pose proof (create_cell _ _ _ (heap_allocated o w)) as H.
    now rewrite Ecreate in H. }
  destruct (rendered_fields (fresh o (random w (draws w)))) as (R1 & R2 & R3 & R4 & _).
  destruct (open_normal _ _ _ _ Hb R1 Eopen) as (n' & En & Ho & Hc & Hopt & Hid).
  exists n'. split; [exact En|]. split; [now rewrite Hopt, R3|].
  split; [now rewrite Hid, R4|].
  unfold live. rewrite Ho, Hc, R2. reflexivity.
Qed.

(** ** The map *)

Lemma Map_set_present k v m :
  In k (map fst m) -> map fst (Map_set k v m) = map fst m.
Proof.
  induction m as [|[k' v'] m IH]; simpl; intros Hk; [tauto|].
  destruct (Nat.eqb_spec k' k) as [->|Hne]; simpl; [reflexivity|].
  rewrite IH; [reflexivity|]. destruct Hk; [congruence|assumption].
Qed.

Lemma Map_set_keys_NoDup k v m :
  NoDup (map fst m) -> NoDup (map fst (Map_set k v m)).
Proof.
  intros Hnd. destruct (in_dec Nat.eq_dec k (map fst m)) as [Hin|Hnin].
  - now rewrite Map_set_present.
  - rewrite Map_set_fresh by exact Hnin. rewrite map_app. simpl.
    apply NoDup_app. split; [exact Hnd|]. split.
    + intros x Hx Hx'. apply list_elem_of_In in Hx.
      apply list_elem_of_singleton in Hx'. congruence.
    + apply NoDup_singleton.
Qed.

Lemma Map_set_length k v m : length (Map_set k v m) <= S (length m).
Proof.
  induction m as [|[k' v'] m IH]; simpl; [lia|].
  destruct (k' =? k); simpl; lia.
Qed.

Lemma Map_set_In k v m k' v' :
  NoDup (map fst m) -> In (k', v') (Map_set k v m) ->
  (k' = k /\ v' = v) \/ (In (k', v') m /\ k' <> k).
Proof.
  induction m as [|[k1 v1] m IH]; simpl; intros Hnd Hin.
  - destruct Hin as [E|[]]. inversion E. auto.
  - apply NoDup_cons in Hnd as [Hk1 Hnd].
    destruct (Nat.eqb_spec k1 k) as [->|Hne]; simpl in Hin.
    + destruct Hin as [E|Hin]; [inversion E; auto|].
      right. split; [auto|]. intros ->. apply Hk1.
      apply list_elem_of_In. apply (in_map fst) in Hin. exact Hin.
    + destruct Hin as [E|Hin]; [inversion E; subst; auto|].
      destruct (IH Hnd Hin) as [H|[H1 H2]]; auto.
Qed.

(** ** The bound, without exit animations *)

Lemma calm_inv o :
  calm o = true ->
  Options.animation o = false /\ quiet (Options.willClose o) = true
  /\ quiet (Options.didClose o) = true /\ quiet (Options.didDestroy o) = true.
Proof.
  unfold calm. rewrite !andb_true_iff, negb_true_iff. tauto.
Qed.

(** Entries stay valid when the objects they point to are unchanged. *)
Lemma registry_ok_transport w w' :
  notifications w' = notifications w ->
  (forall k r, In (k, r) (notifications w) -> heap w' !! r = heap w !! r) ->
  registry_ok w -> registry_ok w'.
Proof.
  intros En Hh [Hnd Hent]. split; [now rewrite En|].
  intros k r Hin. rewrite En in Hin.
  destruct (Hent k r Hin) as (n & E & H). exists n. now rewrite (Hh k r Hin).
Qed.

(** Closing the first entry of a registry of calm instances removes it and
    keeps the others. *)
Lemma close_first_calm k0 r0 rest w :
  registry_ok w -> notifications w = (k0, r0) :: rest ->
  exists w',
    Notification.close r0 w = (Normal tt, w')
    /\ notifications w' = rest
    /\ maxNotifications w' = maxNotifications w
    /\ registry_ok w'.
Proof.
  intros [Hnd Hent] En.
  destruct (Hent k0 r0) as (n0 & Hn0 & Hid & Hl & Hcalm); [rewrite En; now left|].
  destruct (calm_inv _ Hcalm) as (Ha & Hq1 & Hq2 & Hq3).
  destruct (close_quiet r0 n0 w Hn0 Hl Ha Hq1 Hq2 Hq3) as (w' & E & _ & Hdel & Hmax).
  assert (Hrest : notifications w' = rest).
  { rewrite Hdel, En, Hid. simpl. now rewrite Nat.eqb_refl. }
  exists w'. split; [exact E|]. split; [exact Hrest|]. split; [exact Hmax|].
  rewrite En in Hnd. simpl in Hnd. apply NoDup_cons in Hnd as [Hk0 Hnd].
  split; [now rewrite Hrest|].
  intros k r Hin. rewrite Hrest in Hin.
  destruct (Hent k r) as (n & Hn & Hidn & H); [rewrite En; now right|].
  exists n. split; [|auto].
  assert (Hne : r <> r0).
  { intros ->. rewrite Hn0 in Hn. inversion Hn; subst n.
    apply Hk0. apply list_elem_of_In. apply (in_map fst) in Hin.
    simpl in Hin. congruence. }
  pose proof (close_frame r0 w r Hne) as Hf. rewrite E in Hf. simpl in Hf.
  now rewrite Hf.
Qed.

(** One call of [fire] with calm options keeps the registry valid and within
    the bound. *)
Lemma fire_keeps_bound o w :
  calm o = true -> registry_ok w -> bounded w ->
  registry_ok (step w (Fire o)) /\ bounded (step w (Fire o))
  /\ maxNotifications (step w (Fire o)) = maxNotifications w.
Proof.
  intros Hcalm Hok Hb. unfold step, handler. rewrite fire_is_a_method.
  assert (Es : forall m : JS nat, snd ((m >> ret tt) w) = snd (m w)).
  { intros m. unfold bind. now destruct (m w) as [[a|e] w']. }
  rewrite Es. clear Es.
  destruct (NotificationManager.fire o w) as [c w'] eqn:Ef. simpl.
  revert Ef. unfold NotificationManager.fire.
  pose proof (constructor_same_registry o w) as [Hsn Hsm].
  assert (Hframe : forall k r, In (k, r) (notifications w) ->
            heap (snd (Notification.constructor o w)) !! r = heap w !! r).
  { intros k r Hin. apply constructor_frame.
    destruct Hok as [_ Hent]. destruct (Hent k r Hin) as (n & Hn & _).
    now apply lookup_lt_Some in Hn. }
  pose proof (registry_ok_transport w _ Hsn Hframe Hok) as Hok1.
  destruct (Notification.constructor o w) as [[r|e] w1] eqn:Ec; simpl in *.
  - destruct (constructor_normal o w r w1 Ec) as (Hr & n & Hn & Hopt & Hid & Hl).
    rewrite (bind_normal _ _ _ _ _ Ec).
    rewrite (bind_normal _ _ _ _ _ (this_some _ _ _ Hn)).
    unfold bind at 1, modify. unfold bind at 1, get.
    set (w2 := upd_notifications (Map_set (id n) r) w1).
    assert (Hok2 : registry_ok w2).
    { destruct Hok1 as [Hnd Hent]. split.
      - unfold w2. simpl. now apply Map_set_keys_NoDup.
      - intros k' r' Hin. unfold w2 in Hin. simpl in Hin.
        apply Map_set_In in Hin as [[-> ->]|[Hin _]]; [| |exact Hnd].
        + exists n. rewrite Hopt. auto.
        + exact (Hent k' r' Hin). }
    assert (Hlen : length (notifications w2) <= S (maxNotifications w2)).
    { unfold w2. simpl. pose proof (Map_set_length (id n) r (notifications w1)).
      unfold bounded in Hb. rewrite <- Hsn, <- Hsm in Hb. lia. }
    destruct (maxNotifications w2 <? length (notifications w2)) eqn:Hfull.
    + apply Nat.ltb_lt in Hfull.
      destruct (notifications w2) as [|[k0 r0] rest] eqn:En2; [simpl in Hfull; lia|].
      simpl Map_values.
      destruct (close_first_calm k0 r0 rest w2 Hok2 En2) as (w3 & E & Hrest & Hmax & Hok3).
      rewrite (bind_normal _ _ _ _ _ E). intros Ef. inversion Ef; subst c w'.
      split; [exact Hok3|]. split.
      * unfold bounded. rewrite Hrest, Hmax. cbn [length] in Hlen. lia.
      * rewrite Hmax. exact Hsm.
    + apply Nat.ltb_ge in Hfull. intros Ef. inversion Ef; subst c w'.
      split; [exact Hok2|]. split; [exact Hfull|exact Hsm].
  - rewrite (bind_abrupt _ _ _ _ _ Ec). intros Ef. inversion Ef; subst c w'.
    split; [exact Hok1|]. split; [|exact Hsm].
    unfold bounded. rewrite Hsn, Hsm. exact Hb.
Qed.

Lemma fires_keep_bound opts w :
  Forall (fun o => calm o = true) opts -> registry_ok w -> bounded w ->
  registry_ok (run (map Fire opts) w) /\ bounded (run (map Fire opts) w)
  /\ maxNotifications (run (map Fire opts) w) = maxNotifications w.
Proof.
  intros Hall. revert w. induction Hall as [|o opts Ho Hall IH]; intros w Hok Hb; simpl.
  - auto.
  - destruct (fire_keeps_bound o w Ho Hok Hb) as (Hok1 & Hb1 & Hm1).
    destruct (IH _ Hok1 Hb1) as (Hok2 & Hb2 & Hm2).
    split; [exact Hok2|]. split; [exact Hb2|]. congruence.
Qed.

(** When the registry is full, [fire] calls [close] on its first entry, the
    oldest by insertion order: an open instance there is flagged closing when
    the call is over. *)
Lemma fire_closes_first o w k0 r0 n0 rest :
  notifications w = (k0, r0) :: rest ->
  heap w !! r0 = Some n0 -> isOpen n0 = true ->
  maxNotifications w <= length (notifications w) ->
  ~ In (random w (draws w)) (map fst (notifications w)) ->
  (exists r, fst (Notification.constructor o w) = Normal r) ->
  exists n', heap (step w (Fire o)) !! r0 = Some n' /\ isClosing n' = true.
Proof.
  intros En Hn0 Ho Hfull Hfresh [r Hc].
  unfold step, handler. rewrite fire_is_a_method.
  assert (Es : forall m : JS nat, snd ((m >> ret tt) w) = snd (m w)).
  { intros m. unfold bind. now destruct (m w) as [[a|e] w']. }
  rewrite Es. clear Es.
  destruct (NotificationManager.fire o w) as [c w'] eqn:Ef. simpl.
  revert Ef. unfold NotificationManager.fire.
  pose proof (constructor_same_registry o w) as [Hsn Hsm].
  pose proof (constructor_frame o w r0 (lookup_lt_Some _ _ _ Hn0)) as Hf.
  destruct (Notification.constructor o w) as [[r1|e] w1] eqn:Ec; simpl in *;
    [|discriminate].
  destruct (constructor_normal o w r1 w1 Ec) as (Hr & n & Hn & Hopt & Hid & Hl).
  rewrite (bind_normal _ _ _ _ _ Ec).
  rewrite (bind_normal _ _ _ _ _ (this_some _ _ _ Hn)).
  unfold bind at 1, modify. unfold bind at 1, get.
  set (w2 := upd_notifications (Map_set (id n) r1) w1).
  assert (En2 : notifications w2 = (k0, r0) :: rest ++ [(id n, r1)]).
  { unfold w2. simpl. rewrite Hsn, Hid.
    rewrite Map_set_fresh by exact Hfresh. now rewrite En. }
  assert (Hlt : (maxNotifications w2 <? length (notifications w2)) = true).
  { apply Nat.ltb_lt. rewrite En2. simpl. rewrite length_app. simpl.
    unfold w2. simpl. rewrite Hsm. rewrite En in Hfull. simpl in Hfull. lia. }
  rewrite Hlt, En2. simpl Map_values.
  assert (Hn2 : heap w2 !! r0 = Some n0) by (unfold w2; simpl; now rewrite Hf).
  destruct (close_sets_isClosing r0 n0 w2 Hn2 Ho) as (n' & E & C).
  unfold bind. destruct (Notification.close r0 w2) as [[[]|e] w3]; simpl in *;
    intros Ef; inversion Ef; subst; eauto.
Qed.

(** C2, as the code has it. When an insertion makes the map exceed
    [maxNotifications], [fire] calls [close] on the first entry of the map,
    the oldest by insertion order, within the same call: an open instance
    there is flagged closing. The entry leaves the map when [destroy] runs.
    Without exit animation, with closing hooks that return, and with hooks
    that do not call the library, this happens within the call too, so after
    any sequence of calls of [fire] the map holds at most [maxNotifications]
    entries, five by default; more generally such calls keep a registry of
    live, calm instances within its bound. The proviso on the hooks is needed:
    the options of the fourth part are calm as far as [Behaviour] tells, but
    [destroy] calls [didClose] before it deletes the entry, so when the
    [didClose] of the evicted instance calls [fire], the nested call adds an
    entry and evicts none, and the map is left with six entries, whatever the
    hooks of the nested call do. *)
Theorem C2_bound_holds_without_exit_animation :
  (forall rnd opts,
     Forall (fun o => calm o = true) opts ->
     let w := run (map Fire opts) (initial rnd) in
     length (notifications w) <= maxNotifications w /\ maxNotifications w = 5)
  /\ (forall w opts,
        Forall (fun o => calm o = true) opts -> registry_ok w -> bounded w ->
        registry_ok (run (map Fire opts) w) /\ bounded (run (map Fire opts) w))
  /\ (forall o w k0 r0 n0 rest,
        notifications w = (k0, r0) :: rest ->
        heap w !! r0 = Some n0 -> isOpen n0 = true ->
        maxNotifications w <= length (notifications w) ->
        ~ In (random w (draws w)) (map fst (notifications w)) ->
        (exists r, fst (Notification.constructor o w) = Normal r) ->
        exists n', heap (step w (Fire o)) !! r0 = Some n' /\ isClosing n' = true)
  /\ (forall inner : Ref -> Behaviour -> JS unit,
        let o := with_animation false defaultOptions in
        let w5 := run (Fire (with_didClose (Some Returns) o) :: replicate 4 (Fire o))
                    (initial distinct_draws) in
        let didClose :=
          fun (_ : Ref) (b : Behaviour) => Reentrant.fire inner o >> behave b in
        let w6 := snd (Reentrant.fire didClose o w5) in
        calm (with_didClose (Some Returns) o) = true
        /\ length (notifications w5) = 5
        /\ fst (Reentrant.fire didClose o w5) = Normal 5
        /\ length (notifications w6) = 6
        /\ maxNotifications w6 = 5).
Proof.
  split; [|split; [|split]].
  - intros rnd opts Hall w.
    assert (Hok : registry_ok (initial rnd)).
    { split; [constructor|]. intros k r []. }
    assert (Hb : bounded (initial rnd)) by (unfold bounded; simpl; lia).
    destruct (fires_keep_bound opts (initial rnd) Hall Hok Hb) as (_ & Hb' & Hm).
    split; [exact Hb'|exact Hm].
  - intros w opts Hall Hok Hb.
    destruct (fires_keep_bound opts w Hall Hok Hb) as (Hok' & Hb' & _). auto.
  - intros o w k0 r0 n0 rest. apply fire_closes_first.
  - intros inner o w5 didClose w6.
    destruct (didClose_that_fires_leaves_six_entries inner) as (E5 & Ef & E6 & Em & _).
    fold o w5 didClose w6 in E5, Ef, E6, Em.
    split; [reflexivity|]. split; [|split; [exact Ef|split; [|exact Em]]].
    + rewrite <- (length_map snd). unfold Map_values in E5. now rewrite E5.
    + rewrite <- (length_map snd). unfold Map_values in E6. now rewrite E6.
Qed.

(** C2 at work: seven calls of [fire] without exit animation leave five
    entries, the five most recent; and with the default options the sixth call
    flags the first instance closing. *)
Lemma C2_witness :
  let o := with_animation false defaultOptions in
  let w := run (map Fire (replicate 7 o)) (initial distinct_draws) in
  let w5 := run (replicate 5 (Fire defaultOptions)) (initial distinct_draws) in
  (length (notifications w) <= maxNotifications w /\ maxNotifications w = 5)
  /\ Map_values (notifications w) = [2; 3; 4; 5; 6]
  /\ exists n', heap (step w5 (Fire defaultOptions)) !! 0 = Some n' /\ isClosing n' = true.
Proof.
  intros o w w5.
  destruct C2_bound_holds_without_exit_animation as (Hbound & _ & Hfirst & _).
  split; [|split].
  - apply (Hbound distinct_draws (replicate 7 o)).
    repeat constructor.
  - vm_compute. reflexivity.
  - destruct (heap w5 !! 0) as [n0|] eqn:Hn0; [|vm_compute in Hn0; discriminate].
    assert (Ho : isOpen <$> heap w5 !! 0 = Some true) by (vm_compute; reflexivity).
    rewrite Hn0 in Ho. simpl in Ho.
    apply (Hfirst defaultOptions w5 0 0 n0 [(1, 1); (2, 2); (3, 3); (4, 4)]).
    + vm_compute. reflexivity.
    + exact Hn0.
    + congruence.
    + vm_compute. lia.
    + vm_compute. intros H. repeat (destruct H as [H|H]; [discriminate|]). exact H.
    + exists 5. vm_compute. reflexivity.
Defined.

(** ** The drain loop, reached by hand

    The exported [queue] raises before it reaches the method (C4), but the
    loop itself can be driven through the exported manager object, by pushing
    on [manager.queue] and calling [manager.processQueue]. *)

#[local] Instance same_queue_preorder : PreOrder same_queue.
Proof.
  split.
  - intros w. split; reflexivity.
  - intros w1 w2 w3 [H1 H2] [H3 H4]. split; congruence.
Qed.

(** An assignment that reaches neither the queue nor its flag. *)
Ltac no_queue := unfold follows; intros; split; reflexivity.

Lemma close_same_queue r : follows same_queue (Notification.close r).
Proof.
  apply follows_close; try apply follows_clearTimer; try apply follows_setTimeout;
    no_queue.
Qed.

Lemma destroy_same_queue r : follows same_queue (Notification.destroy r).
Proof. apply follows_destroy; no_queue. Qed.

Lemma constructor_same_queue o : follows same_queue (Notification.constructor o).
Proof.
  unfold Notification.constructor. follow; try no_queue.
  - apply follows_create; no_queue.
  - apply follows_open; no_queue.
Qed.

Lemma resolve_same_queue r o : follows same_queue (resolve r o).
Proof. unfold resolve, assign. follow; no_queue. Qed.

Lemma reject_same_queue r e : follows same_queue (reject r e).
Proof. unfold reject, assign. follow; no_queue. Qed.

(** Outside the queue events nothing reads or writes the queue. *)
Lemma other_events_same_queue e :
  queue_event e = false -> follows same_queue (handler e).
Proof.
  destruct e; try discriminate; intros _; unfold handler.
  - rewrite fire_is_a_method. follow.
    apply follows_fire; try no_queue;
      [apply constructor_same_queue | apply close_same_queue].
  - rewrite closeAll_is_a_method.
    apply follows_closeAll. apply close_same_queue.
  - apply close_same_queue.
  - apply follows_handleAction; try no_queue;
      [apply close_same_queue | intros; apply resolve_same_queue].
  - apply follows_onKeydown. apply close_same_queue.
  - apply follows_onClick. apply close_same_queue.
  - unfold fire_timeout, run_callback, clearTimeout. follow; try no_queue;
      [apply close_same_queue | apply destroy_same_queue].
  - unfold settle. follow; try no_queue.
    apply follows_on_settled;
      [apply close_same_queue | intros; apply resolve_same_queue
      | apply reject_same_queue].
Qed.

(** While an entry of the queue is in flight the loop admits nothing:
    [processQueue] returns at its guard, and the flag is only ever reset by
    the reaction attached to the promise of the entry in flight, which runs as
    a micro-task once that promise is fulfilled. Until then the queue can only
    grow. *)
Lemma drain_loop_is_serial w :
  isProcessing w = true ->
  NotificationManager.processQueue w = (Normal tt, w)
  /\ (forall e, e <> Microtask ->
        isProcessing (step w e) = true
        /\ exists more, queue (step w e) = queue w ++ more).
Proof.
  intros Hp.
  assert (Epq : NotificationManager.processQueue w = (Normal tt, w)).
  { unfold NotificationManager.processQueue, bind, get. now rewrite Hp. }
  split; [exact Epq|].
  intros e He. destruct (queue_event e) eqn:Hq.
  - destruct e; try discriminate; unfold step, handler.
    + split; [exact Hp|]. exists []. now rewrite app_nil_r.
    + split; [exact Hp|]. eexists. reflexivity.
    + rewrite Epq. split; [exact Hp|]. exists []. now rewrite app_nil_r.
    + congruence.
  - destruct (other_events_same_queue e Hq w) as [Eq Ef]. unfold step.
    split; [congruence|]. exists []. now rewrite app_nil_r.
Qed.

(** The micro-task of the reaction resets the flag and calls [processQueue];
    what that call may raise is lost with the promise [then] returned. *)
Lemma drain_reaction_runs w ms :
  microtasks w = DrainQueue :: ms ->
  step w Microtask
    = snd (NotificationManager.processQueue
             (upd_isProcessing false (upd_microtasks (fun _ => ms) w))).
Proof.
  intros Hm. unfold step, handler, run_microtask.
  unfold bind at 1, get. rewrite Hm.
  unfold bind at 1, modify. unfold try_catch, NotificationManager.run_reaction.
  unfold bind at 1, modify.
  destruct (NotificationManager.processQueue _) as [[[]|e] w']; reflexivity.
Qed.

(** C5, as the code has it. The continuation of the drain loop is attached
    with a fulfilment handler only. When the signal of the entry in flight is
    fulfilled, the reactions attached to it are queued as micro-tasks, and the
    micro-task of the drain reaction resets [isProcessing] and calls
    [processQueue] again. When the signal is rejected nothing is queued and
    the flag and the queue are left alone; and as long as the flag is set no
    event but such a micro-task resets it or takes an entry from the queue, so
    after a rejection the loop admits nothing more. *)
Theorem C5_drain_continues_on_fulfilment_only (w : World) :
  (forall r n o,
     heap w !! r = Some n -> state (promise n) = Pending ->
     microtasks (snd (resolve r o w)) = microtasks w ++ reactions (promise n))
  /\ (forall ms,
        microtasks w = DrainQueue :: ms ->
        step w Microtask
          = snd (NotificationManager.processQueue
                   (upd_isProcessing false (upd_microtasks (fun _ => ms) w))))
  /\ (forall r e,
        microtasks (snd (reject r e w)) = microtasks w
        /\ isProcessing (snd (reject r e w)) = isProcessing w
        /\ queue (snd (reject r e w)) = queue w)
  /\ (isProcessing w = true ->
      NotificationManager.processQueue w = (Normal tt, w)
      /\ forall e, e <> Microtask ->
           isProcessing (step w e) = true
           /\ exists more, queue (step w e) = queue w ++ more).
Proof.
  split; [|split; [|split]].
  - intros r n o Hn Hp. now rewrite (resolve_pending r n o w Hn Hp).
  - apply drain_reaction_runs.
  - intros r e. destruct (reject_wakes_nothing r e w) as (H1 & H2 & H3 & _). auto.
  - apply drain_loop_is_serial.
Qed.

(** C5 at work: an entry admitted through the loop, its confirm button
    pressed; the fulfilment queues the drain reaction, whose micro-task admits
    the next entry. *)
Lemma C5_witness :
  let w := run [QueuePush defaultOptions; QueuePush defaultOptions; ProcessQueue]
             (initial distinct_draws) in
  let w1 := step w (HandleAction 0 "confirm") in
  let w2 := step w1 (Microtask) in
  (isProcessing w = true /\ queue w = [defaultOptions] /\ length (heap w) = 1)
  /\ NotificationManager.processQueue w = (Normal tt, w)
  /\ microtasks w1 = [DrainQueue]
  /\ w2 = snd (NotificationManager.processQueue
                 (upd_isProcessing false (upd_microtasks (fun _ => []) w1)))
  /\ (queue w2 = [] /\ length (heap w2) = 2).
Proof.
  intros w w1 w2.
  destruct (C5_drain_continues_on_fulfilment_only w) as (_ & _ & _ & Hserial).
  destruct (C5_drain_continues_on_fulfilment_only w1) as (_ & Hrun & _ & _).
  assert (Hp : isProcessing w = true) by reflexivity.
  destruct (Hserial Hp) as [Hpq _].
  split; [repeat split|]. split; [exact Hpq|]. split; [reflexivity|].
  split; [exact (Hrun [] eq_refl)|]. split; reflexivity.
Defined.

(** * More of the file: proofs *)

(** ** Laws of the map *)

Lemma Map_get_In k v m : Map_get k m = Some v -> In (k, v) m.
Proof.
  induction m as [|[k' v'] m IH]; simpl; [discriminate|].
  destruct (Nat.eqb_spec k' k) as [->|Hne]; intros H.
  - inversion H. now left.
  - right. auto.
Qed.

Lemma Map_In_get k v m : NoDup (map fst m) -> In (k, v) m -> Map_get k m = Some v.
Proof.
  induction m as [|[k' v'] m IH]; simpl; intros Hnd Hin; [tauto|].
  apply NoDup_cons in Hnd as [Hk Hnd].
  destruct Hin as [E|Hin].
  - inversion E; subst. now rewrite Nat.eqb_refl.
  - destruct (Nat.eqb_spec k' k) as [->|Hne]; [|auto].
    exfalso. apply Hk. apply list_elem_of_In. apply (in_map fst) in Hin. exact Hin.
Qed.

Lemma Map_get_None k m : Map_get k m = None <-> ~ In k (map fst m).
Proof.
  induction m as [|[k' v'] m IH]; simpl; [tauto|].
  destruct (Nat.eqb_spec k' k) as [->|Hne].
  - split; [discriminate|]. intros H. exfalso. apply H. now left.
  - rewrite IH. tauto.
Qed.

Lemma Map_get_set_same k v m : Map_get k (Map_set k v m) = Some v.
Proof.
  induction m as [|[k' v'] m IH]; simpl.
  - now rewrite Nat.eqb_refl.
  - destruct (Nat.eqb_spec k' k) as [->|Hne]; simpl.
    + now rewrite Nat.eqb_refl.
    + destruct (Nat.eqb_spec k' k); [congruence|exact IH].
Qed.

Lemma Map_get_set_other k k0 v m :
  k0 <> k -> Map_get k0 (Map_set k v m) = Map_get k0 m.
Proof.
  intros Hne. induction m as [|[k' v'] m IH]; simpl.
  - destruct (Nat.eqb_spec k k0); [congruence|reflexivity].
  - destruct (Nat.eqb_spec k' k) as [->|Hne']; simpl.
    + destruct (Nat.eqb_spec k k0); [congruence|reflexivity].
    + destruct (k' =? k0); [reflexivity|exact IH].
Qed.

Lemma Map_delete_In x k m : In x (Map_delete k m) -> In x m.
Proof.
  induction m as [|[k' v'] m IH]; simpl; [tauto|].
  destruct (k' =? k); simpl; intros H; [now right|].
  destruct H; [now left | right; auto].
Qed.

Lemma Map_delete_In_other k0 v0 k m :
  k0 <> k -> In (k0, v0) m -> In (k0, v0) (Map_delete k m).
Proof.
  intros Hne. induction m as [|[k' v'] m IH]; simpl; [tauto|].
  destruct (Nat.eqb_spec k' k) as [->|Hne']; simpl; intros H.
  - destruct H as [E|H]; [inversion E; congruence|exact H].
  - destruct H; [now left | right; auto].
Qed.

Lemma Map_delete_keys_NoDup k m :
  NoDup (map fst m) -> NoDup (map fst (Map_delete k m)).
Proof.
  induction m as [|[k' v'] m IH]; simpl; intros Hnd; [exact Hnd|].
  apply NoDup_cons in Hnd as [Hk Hnd].
  destruct (k' =? k); simpl; [exact Hnd|].
  apply NoDup_cons. split; [|auto].
  intros Hin. apply Hk. apply list_elem_of_In in Hin. apply list_elem_of_In.
  apply in_map_iff in Hin as ([k1 v1] & E & Hin). simpl in E. subst k1.
  apply Map_delete_In in Hin. apply (in_map fst) in Hin. exact Hin.
Qed.

Lemma Map_get_delete_same k m :
  NoDup (map fst m) -> Map_get k (Map_delete k m) = None.
Proof.
  induction m as [|[k' v'] m IH]; simpl; intros Hnd; [reflexivity|].
  apply NoDup_cons in Hnd as [Hk Hnd].
  destruct (Nat.eqb_spec k' k) as [->|Hne]; simpl.
  - apply Map_get_None. intros Hin. apply Hk. now apply list_elem_of_In.
  - destruct (Nat.eqb_spec k' k); [congruence|auto].
Qed.


(** ** A second skeleton for the event loop

    The same walk as before, for relations that [fire] respects as a whole
    but not assignment by assignment. *)
Section Loop_with_fire.
Context {R : World -> World -> Prop} `{!PreOrder R}.
Hypothesis R_queue : forall f w, R w (upd_queue f w).
Hypothesis R_isProcessing : forall b w, R w (upd_isProcessing b w).
Hypothesis R_deferreds : forall f w, R w (upd_deferreds f w).
Hypothesis R_microtasks : forall f w, R w (upd_microtasks f w).
Hypothesis R_clearTimeout : forall h, follows R (clearTimeout h).
Hypothesis R_fire : forall o, follows R (NotificationManager.fire o).
Hypothesis R_close : forall r, follows R (Notification.close r).
Hypothesis R_destroy : forall r, follows R (Notification.destroy r).
Hypothesis R_resolve : forall r a v, follows R (resolve r (Notification.outcome a v)).
Hypothesis R_reject : forall r e, follows R (reject r e).
Hypothesis R_then : forall r f, follows R (then_ r f).

Lemma follows_processQueue' : follows R NotificationManager.processQueue.
Proof.
  unfold NotificationManager.processQueue. follow;
    try apply R_isProcessing; try apply R_queue; apply R_fire.
Qed.

Lemma follows_handler' e : follows R (handler e).
Proof.
  destruct e; unfold handler, AYdocsNotifications.fire, AYdocsNotifications.queue,
    AYdocsNotifications.closeAll, NotificationManager.queue, fire_timeout,
    run_callback, settle, run_microtask, NotificationManager.run_reaction.
  all: follow.
  all: try apply R_queue; try apply R_deferreds; try apply R_microtasks;
    try apply R_isProcessing.
  all: first [ apply follows_processQueue'
             | apply follows_closeAll; assumption
             | apply follows_handleAction; assumption
             | apply follows_onKeydown; assumption
             | apply follows_onClick; assumption
             | apply follows_on_settled; assumption ].
Qed.

Lemma follows_run' es w : R w (run es w).
Proof.
  revert w. induction es as [|e es IH]; intros w; simpl.
  - reflexivity.
  - etransitivity; [apply follows_handler' | apply IH].
Qed.
End Loop_with_fire.

(** ** The registry stays well formed *)

Lemma registry_wf_alter f r w :
  (forall n, id (f n) = id n) -> (forall n, isOpen n = true -> isOpen (f n) = true) ->
  keeps registry_wf w (upd_heap (alter f r) w).
Proof.
  intros Hid Ho [Hnd Hent]. split; [exact Hnd|].
  intros k r0 Hin. destruct (Hent k r0 Hin) as (n & Hn & Hk & Hopen). simpl.
  destruct (decide (r0 = r)) as [->|Hne].
  - exists (f n). rewrite list_lookup_alter_eq, Hn. simpl. rewrite Hid. auto.
  - exists n. rewrite list_lookup_alter_ne by congruence. auto.
Qed.

Lemma registry_wf_alloc n : follows (keeps registry_wf) (alloc n).
Proof.
  intros w [Hnd Hent]. split; [exact Hnd|].
  intros k r0 Hin. destruct (Hent k r0 Hin) as (n0 & Hn & H). exists n0.
  split; [|exact H]. simpl. now apply lookup_app_l_Some.
Qed.

Lemma registry_wf_delete k w :
  keeps registry_wf w (upd_notifications (Map_delete k) w).
Proof.
  intros [Hnd Hent]. split; [now apply Map_delete_keys_NoDup|].
  intros k0 r0 Hin. simpl in Hin. apply Map_delete_In in Hin. exact (Hent k0 r0 Hin).
Qed.

(** An assignment the invariant does not look at. *)
Ltac not_seen := unfold follows; intros; let H := fresh in intro H; exact H.

Lemma registry_wf_close r : follows (keeps registry_wf) (Notification.close r).
Proof.
  apply follows_close; try not_seen.
  - intros k w. apply registry_wf_delete.
  - intros w. now apply registry_wf_alter.
  - apply follows_clearTimer; try not_seen. intros t w. now apply registry_wf_alter.
Qed.

Lemma registry_wf_destroy r : follows (keeps registry_wf) (Notification.destroy r).
Proof. apply follows_destroy; try not_seen. intros k w. apply registry_wf_delete. Qed.

Lemma registry_wf_constructor o : follows (keeps registry_wf) (Notification.constructor o).
Proof.
  unfold Notification.constructor. follow; try not_seen.
  - apply registry_wf_alloc.
  - apply follows_create; try not_seen. intros w. now apply registry_wf_alter.
  - apply follows_open; try not_seen; intros; now apply registry_wf_alter.
Qed.

Lemma registry_wf_set_promise p r w :
  keeps registry_wf w (upd_heap (alter (set_promise p) r) w).
Proof. now apply registry_wf_alter. Qed.

(** [fire] files the new instance under its own id, once it is open. *)
Lemma registry_wf_fire o : follows (keeps registry_wf) (NotificationManager.fire o).
Proof.
  intros w Hwf.
  destruct (NotificationManager.fire o w) as [c w'] eqn:Ef. simpl.
  revert Ef. unfold NotificationManager.fire.
  pose proof (registry_wf_constructor o w Hwf) as Hwf1.
  destruct (Notification.constructor o w) as [[r|e] w1] eqn:Ec; simpl in Hwf1.
  - destruct (constructor_normal o w r w1 Ec) as (Hr & n & Hn & Hopt & Hid & Hl).
    rewrite (bind_normal _ _ _ _ _ Ec).
    rewrite (bind_normal _ _ _ _ _ (this_some _ _ _ Hn)).
    unfold bind at 1, modify. unfold bind at 1, get.
    set (w2 := upd_notifications (Map_set (id n) r) w1).
    assert (Hwf2 : registry_wf w2).
    { destruct Hwf1 as [Hnd Hent]. split.
      - unfold w2. simpl. now apply Map_set_keys_NoDup.
      - intros k' r' Hin. unfold w2 in Hin. simpl in Hin.
        apply Map_set_In in Hin as [[-> ->]|[Hin _]]; [| |exact Hnd].
        + exists n. unfold live in Hl. apply andb_true_iff in Hl as [Ho _]. auto.
        + exact (Hent k' r' Hin). }
    intros Ef.
    assert (Hrest : forall m : JS unit,
              follows (keeps registry_wf) m ->
              (m >> ret r) w2 = (c, w') -> registry_wf w').
    { intros m Hm E. pose proof (Hm w2 Hwf2) as H. unfold bind in E.
      destruct (m w2) as [[[]|e] w3]; inversion E; subst; exact H. }
    revert Ef. apply Hrest.
    destruct (maxNotifications w2 <? length (notifications w2)); [|apply follows_ret].
    destruct (Map_values (notifications w2)); [apply follows_throw|].
    apply registry_wf_close.
  - rewrite (bind_abrupt _ _ _ _ _ Ec). intros Ef. inversion Ef; subst. exact Hwf1.
Qed.

Lemma registry_wf_update k p : follows (keeps registry_wf) (Manager.update k p).
Proof.
  unfold Manager.update, NotificationInstance.update, assign. follow.
  now apply registry_wf_alter.
Qed.

Lemma registry_wf_call c : follows (keeps registry_wf) (call_handler c).
Proof.
  destruct c as [e|k p]; simpl.
  - apply follows_handler'; try not_seen.
    + apply registry_wf_fire.
    + apply registry_wf_close.
    + apply registry_wf_destroy.
    + intros r a v. unfold resolve, assign. follow; try not_seen.
      apply registry_wf_set_promise.
    + intros r e0. unfold reject, assign. follow. apply registry_wf_set_promise.
    + intros r f. unfold then_, assign. follow; try not_seen.
      apply registry_wf_set_promise.
  - apply follows_call_method. apply registry_wf_update.
Qed.

Lemma registry_wf_initial rnd : registry_wf (initial rnd).
Proof. split; [constructor|]. intros k r []. Qed.

Lemma registry_wf_run_calls cs w : registry_wf w -> registry_wf (run_calls cs w).
Proof.
  revert w. induction cs as [|c cs IH]; intros w Hwf; simpl; [exact Hwf|].
  apply IH. now apply registry_wf_call.
Qed.

Lemma run_calls_events es w : run_calls (map Ev es) w = run es w.
Proof. revert w. induction es as [|e es IH]; intros w; simpl; [reflexivity|apply IH]. Qed.

(** Worlds reached by events alone are reached by calls. *)
Lemma registry_wf_run es rnd : registry_wf (run es (initial rnd)).
Proof.
  rewrite <- run_calls_events. apply registry_wf_run_calls, registry_wf_initial.
Qed.

(** ** Lookup by id *)

(** X1. In every world the page can reach, by events and by [update],
    [getNotification(k)] answers [undefined] or an instance that exists, is
    open, and has [k] for id; and an instance of the registry is the one
    found under its own id, so no entry hides another. *)
Theorem X1_getNotification_finds_the_instance_of_that_id
    (cs : list Call) (rnd : nat -> Id) (k : Id) (r : Ref) :
  let w := run_calls cs (initial rnd) in
  (fst (Manager.getNotification k w) = Normal (Some r) ->
   exists n, heap w !! r = Some n /\ id n = k /\ isOpen n = true)
  /\ (In (k, r) (notifications w) ->
      Manager.getNotification k w = (Normal (Some r), w)).
Proof.
  intros w.
  assert (Hwf : registry_wf w) by apply registry_wf_run_calls, registry_wf_initial.
  destruct Hwf as [Hnd Hent]. split.
  - unfold Manager.getNotification, bind, get, ret. simpl. intros E.
    inversion E as [E']. apply Map_get_In in E'. exact (Hent k r E').
  - intros Hin. unfold Manager.getNotification, bind, get, ret.
    now rewrite (Map_In_get k r _ Hnd Hin).
Qed.

(** X1 at work: two instances, the second one updated; each is found under
    its id. *)
Lemma X1_witness :
  let cs := [Ev (Fire defaultOptions); Ev (Fire defaultOptions);
             Update 1 (Patch.mk (Some (Some 50)) None None None None None None None
                         None None None None None None None None)] in
  let w := run_calls cs (initial distinct_draws) in
  fst (Manager.getNotification 1 w) = Normal (Some 1)
  /\ exists n, heap w !! 1 = Some n /\ id n = 1 /\ isOpen n = true.
Proof.
  intros cs w.
  assert (E : fst (Manager.getNotification 1 w) = Normal (Some 1))
    by (vm_compute; reflexivity).
  split; [exact E|].
  exact (proj1 (X1_getNotification_finds_the_instance_of_that_id cs distinct_draws 1 1) E).
Defined.

Lemma Map_delete_snoc k k0 v0 m :
  k0 <> k -> Map_delete k (m ++ [(k0, v0)]) = Map_delete k m ++ [(k0, v0)].
Proof.
  intros Hne. induction m as [|[k' v'] m IH]; simpl.
  - destruct (Nat.eqb_spec k0 k); [congruence|reflexivity].
  - destruct (k' =? k); [reflexivity|]. now rewrite IH.
Qed.

(** What [destroy] does to the registry: nothing when [didClose] raises, and
    otherwise it deletes the key that is the id of its receiver. *)
Lemma destroy_registry r n w :
  heap w !! r = Some n ->
  notifications (snd (Notification.destroy r w)) = notifications w
  \/ notifications (snd (Notification.destroy r w)) = Map_delete (id n) (notifications w).
Proof.
  intros Hn. unfold Notification.destroy.
  rewrite (bind_normal _ _ _ _ _ (this_some _ _ _ Hn)).
  destruct (Options.didClose (options n)) as [[|e1]|];
    destruct (Options.didDestroy (options n)) as [[|e2]|]; simpl; auto.
Qed.


(** The timer methods and the hooks leave the registry and the ids alone. *)
Lemma clearTimer_registry r n w :
  heap w !! r = Some n ->
  notifications (snd (Notification.clearTimer r w)) = notifications w
  /\ exists n', heap (snd (Notification.clearTimer r w)) !! r = Some n'
                /\ id n' = id n /\ options n' = options n.
Proof.
  intros Hn. unfold Notification.clearTimer.
  rewrite (bind_normal _ _ _ _ _ (this_some _ _ _ Hn)).
  destruct (timer n) as [[|h]|]; simpl; rewrite ?list_lookup_alter_eq, ?Hn; simpl; eauto.
Qed.

(** What [close] does to the registry: nothing, or it deletes the id of its
    receiver. *)
Lemma close_registry r n w :
  heap w !! r = Some n ->
  notifications (snd (Notification.close r w)) = notifications w
  \/ notifications (snd (Notification.close r w)) = Map_delete (id n) (notifications w).
Proof.
  intros Hn. destruct (live n) eqn:Hl.
  - rewrite (close_live r n w Hn Hl).
    set (w1 := upd_heap (alter (set_isClosing true) r) w).
    assert (Hn1 : heap w1 !! r = Some (set_isClosing true n)).
    { unfold w1. simpl. now rewrite list_lookup_alter_eq, Hn. }
    apply bind_post.
    + intros e w2 E.
      pose proof (call_hook_cases r WillClose (Options.willClose (options n)) w1) as H.
      rewrite E in H. simpl in H. destruct H as [-> | ->]; now left.
    + intros [] w2 E.
      assert (H2 : notifications w2 = notifications w
                   /\ heap w2 !! r = Some (set_isClosing true n)).
      { pose proof (call_hook_cases r WillClose (Options.willClose (options n)) w1) as H.
        rewrite E in H. simpl in H. destruct H as [-> | ->]; split; auto. }
      destruct H2 as [Hnot2 Hn2].
      destruct (clearTimer_registry r _ w2 Hn2) as (Hnot3 & n3 & Hn3 & Hid3 & _).
      apply bind_post.
      * intros e w3 E3. rewrite E3 in Hnot3. simpl in Hnot3. left. congruence.
      * intros [] w3 E3. rewrite E3 in Hnot3, Hn3. simpl in Hnot3, Hn3.
        destruct (Options.animation (options n)).
        -- left. pose proof (hide_classes_world n w3) as Hs.
           apply bind_post; [intros e w4 E4 | intros [] w4 E4];
             rewrite E4 in Hs; simpl in Hs; subst w4; simpl; congruence.
        -- destruct (destroy_registry r n3 w3 Hn3) as [H|H]; rewrite H, Hnot3, Hnot2.
           ++ now left.
           ++ right. now rewrite Hid3.
  - left. rewrite (close_noop r n w Hn); [reflexivity|].
    unfold live in Hl. apply andb_false_iff in Hl as [Hl|Hl]; [now right|].
    left. now apply negb_false_iff in Hl.
Qed.

(** Where [fire] leaves the instance it created: at the end of the registry,
    under the id it drew. *)
Lemma fire_registry (o : Options.t) (w : World) (r : Ref) :
  registry_wf w ->
  ~ In (random w (draws w)) (map fst (notifications w)) ->
  notifications w <> [] \/ 1 <= maxNotifications w ->
  fst (Notification.constructor o w) = Normal r ->
  exists m, notifications (step w (Fire o)) = m ++ [(random w (draws w), r)]
            /\ NoDup (map fst (m ++ [(random w (draws w), r)])).
Proof.
  intros Hwf Hfresh Hne Hc. set (w' := step w (Fire o)).
  unfold w', step, handler. rewrite fire_is_a_method.
  assert (Es : forall m : JS nat, snd ((m >> ret tt) w) = snd (m w)).
  { intros m. unfold bind. now destruct (m w) as [[a|e] w0]. }
  rewrite Es. clear Es.
  destruct (NotificationManager.fire o w) as [c wf] eqn:Ef. simpl.
  revert Ef. unfold NotificationManager.fire.
  pose proof (constructor_same_registry o w) as [Hsn Hsm].
  pose proof (registry_wf_constructor o w Hwf) as Hwf1.
  assert (Hframe : forall r', r' < length (heap w) ->
            heap (snd (Notification.constructor o w)) !! r' = heap w !! r')
    by (intros; now apply constructor_frame).
  destruct (Notification.constructor o w) as [[r1|e] w1] eqn:Ec; simpl in *;
    [|discriminate].
  inversion Hc; subst r1.
  destruct (constructor_normal o w r w1 Ec) as (Hr & n & Hn & Hopt & Hid & Hl).
  rewrite (bind_normal _ _ _ _ _ Ec).
  rewrite (bind_normal _ _ _ _ _ (this_some _ _ _ Hn)).
  unfold bind at 1, modify. unfold bind at 1, get.
  set (w2 := upd_notifications (Map_set (id n) r) w1).
  assert (En2 : notifications w2 = notifications w ++ [(random w (draws w), r)]).
  { unfold w2. simpl. rewrite Hsn, Hid. now apply Map_set_fresh. }
  assert (Hnd2 : NoDup (map fst (notifications w2))).
  { unfold w2. simpl. apply Map_set_keys_NoDup. apply Hwf1. }
  destruct (maxNotifications w2 <? length (notifications w2)) eqn:Hfull.
  - destruct (notifications w) as [|[k0 r0] rest] eqn:En.
    + exfalso. apply Nat.ltb_lt in Hfull. rewrite En2 in Hfull. simpl in Hfull.
      unfold w2 in Hfull. simpl in Hfull. rewrite Hsm in Hfull.
      destruct Hne as [Hne|Hne]; [congruence|lia].
    + rewrite En2. simpl Map_values.
      destruct Hwf as [Hnd Hent].
      destruct (Hent k0 r0) as (n0 & Hn0 & Hid0 & _); [rewrite En; now left|].
      assert (Hn02 : heap w2 !! r0 = Some n0).
      { unfold w2. simpl. rewrite Hframe; [exact Hn0|]. now apply lookup_lt_Some in Hn0. }
      assert (Hk0 : random w (draws w) <> k0).
      { intros E. apply Hfresh. rewrite E. now left. }
      pose proof (close_registry r0 n0 w2 Hn02) as Hcl.
      unfold bind. destruct (Notification.close r0 w2) as [[[]|e] w3]; cbn [snd] in Hcl;
        intros Ef; inversion Ef; subst c wf.
      * destruct Hcl as [H|H]; rewrite H, En2.
        -- exists ((k0, r0) :: rest). split; [reflexivity|]. now rewrite <- En2.
        -- rewrite Hid0. change (((k0, r0) :: rest) ++ [(random w (draws w), r)])
             with ((k0, r0) :: (rest ++ [(random w (draws w), r)])).
           simpl. rewrite Nat.eqb_refl. exists rest. split; [reflexivity|].
           rewrite En2 in Hnd2. simpl in Hnd2. now apply NoDup_cons in Hnd2 as [_ ?].
      * destruct Hcl as [H|H]; rewrite H, En2.
        -- exists ((k0, r0) :: rest). split; [reflexivity|]. now rewrite <- En2.
        -- rewrite Hid0. change (((k0, r0) :: rest) ++ [(random w (draws w), r)])
             with ((k0, r0) :: (rest ++ [(random w (draws w), r)])).
           simpl. rewrite Nat.eqb_refl. exists rest. split; [reflexivity|].
           rewrite En2 in Hnd2. simpl in Hnd2. now apply NoDup_cons in Hnd2 as [_ ?].
  - intros Ef. inversion Ef; subst.
    exists (notifications w). split; [exact En2|]. now rewrite <- En2.
Qed.





(** ** [update] *)

Lemma update_known k r n p w :
  Map_get k (notifications w) = Some r -> heap w !! r = Some n ->
  Manager.update k p w
    = (Normal tt, upd_heap (alter (set_options (Object_assign (options n) p)) r) w).
Proof.
  intros Hk Hn. unfold Manager.update, bind at 1, get. rewrite Hk.
  unfold NotificationInstance.update. now rewrite (bind_normal _ _ _ _ _ (this_some _ _ _ Hn)).
Qed.

Lemma update_unknown k p w :
  Map_get k (notifications w) = None -> Manager.update k p w = (Normal tt, w).
Proof. intros Hk. unfold Manager.update, bind, get. now rewrite Hk. Qed.

Lemma update_world k p w :
  snd (Manager.update k p w) = w
  \/ exists r n, Map_get k (notifications w) = Some r /\ heap w !! r = Some n
       /\ snd (Manager.update k p w)
          = upd_heap (alter (set_options (Object_assign (options n) p)) r) w.
Proof.
  destruct (Map_get k (notifications w)) as [r|] eqn:Hk.
  - destruct (heap w !! r) as [n|] eqn:Hn.
    + right. exists r, n. now rewrite (update_known k r n p w Hk Hn).
    + left. unfold Manager.update, bind at 1, get. rewrite Hk.
      unfold NotificationInstance.update, bind, this. now rewrite Hn.
  - left. now rewrite update_unknown.
Qed.

(** X4. [update] changes the options of the instance found under the id and
    nothing else: the registry, the pending timeouts (a new [timer] option
    arms nothing), the flags, the timer handle and the promise of every
    instance, the queue and its flag are as they were, and no other instance
    is touched. Under an id that is not in the registry it does nothing. *)
Theorem X4_update_changes_the_options_only (w : World) (k : Id) (p : Patch.t) :
  let w' := snd (Manager.update k p w) in
  same_lifecycle w w' /\ same_promises w w' /\ same_queue w w'
  /\ (Map_get k (notifications w) = None -> Manager.update k p w = (Normal tt, w))
  /\ (forall r n,
        Map_get k (notifications w) = Some r -> heap w !! r = Some n ->
        fst (Manager.update k p w) = Normal tt
        /\ options <$> heap w' !! r = Some (Object_assign (options n) p)
        /\ forall r', r' <> r -> heap w' !! r' = heap w !! r').
Proof.
  intros w'. split; [|split; [|split; [|split]]].
  - destruct (update_world k p w) as [E|(r & n & Hk & Hn & E)]; fold w' in E; rewrite E.
    + repeat split.
    + split; [reflexivity|]. split; [reflexivity|]. intros r0. simpl.
      destruct (decide (r0 = r)) as [->|Hne].
      * now rewrite list_lookup_alter_eq, Hn.
      * now rewrite list_lookup_alter_ne by congruence.
  - destruct (update_world k p w) as [E|(r & n & Hk & Hn & E)]; fold w' in E; rewrite E.
    + intros r0. reflexivity.
    + intros r0. now apply promise_state_alter.
  - destruct (update_world k p w) as [E|(r & n & Hk & Hn & E)]; fold w' in E; rewrite E;
      split; reflexivity.
  - apply update_unknown.
  - intros r n Hk Hn. unfold w'. rewrite (update_known k r n p w Hk Hn). simpl.
    split; [reflexivity|]. split.
    + now rewrite list_lookup_alter_eq, Hn.
    + intros r' Hr. now rewrite list_lookup_alter_ne by congruence.
Qed.

(** X4 at work: a timer given by [update] to an open instance arms nothing. *)
Lemma X4_witness :
  let w := run [Fire defaultOptions] (initial distinct_draws) in
  let p := Patch.mk (Some (Some 50)) None None None None None None None None None None
             None None None None None in
  let w' := snd (Manager.update 0 p w) in
  exists n, heap w !! 0 = Some n
  /\ Map_get 0 (notifications w) = Some 0
  /\ options <$> heap w' !! 0 = Some (Object_assign (options n) p)
  /\ timeouts w' = timeouts w.
Proof.
  intros w p w'.
  destruct (heap w !! 0) as [n|] eqn:Hn; [|vm_compute in Hn; discriminate].
  assert (Hk : Map_get 0 (notifications w) = Some 0) by (vm_compute; reflexivity).
  destruct (X4_update_changes_the_options_only w 0 p) as ((_ & Ht & _) & _ & _ & _ & H).
  destruct (H 0 n Hk Hn) as (_ & Ho & _).
  exists n. split; [reflexivity|]. split; [exact Hk|]. split; [exact Ho|exact Ht].
Defined.

(** [Object.assign] twice is [Object.assign] of the spread. *)
Lemma Object_assign_spread o p1 p2 :
  Object_assign (Object_assign o p1) p2 = Object_assign o (spread p1 p2).
Proof.
  destruct p1, p2. unfold Object_assign, spread, or_else. simpl.
  f_equal;
    match goal with
    | |- context [default _ ?x] => destruct x; reflexivity
    end.
Qed.

Lemma Object_assign_empty o : Object_assign o Patch.empty = o.
Proof. now destruct o. Qed.

(** X5. Two calls of [update] on one id amount to one call with the spread
    of the two objects, the later keys winning; and [update] with an empty
    object changes nothing at all. *)
Theorem X5_updates_compose (w : World) (k : Id) (p1 p2 : Patch.t) :
  snd (Manager.update k p2 (snd (Manager.update k p1 w)))
    = snd (Manager.update k (spread p1 p2) w)
  /\ snd (Manager.update k Patch.empty w) = w.
Proof.
  split.
  - destruct (Map_get k (notifications w)) as [r|] eqn:Hk.
    + destruct (heap w !! r) as [n|] eqn:Hn.
      * rewrite (update_known k r n p1 w Hk Hn), (update_known k r n _ w Hk Hn). simpl.
        set (w1 := upd_heap _ w).
        assert (Hn1 : heap w1 !! r = Some (set_options (Object_assign (options n) p1) n)).
        { unfold w1. simpl. now rewrite list_lookup_alter_eq, Hn. }
        rewrite (update_known k r _ p2 w1 Hk Hn1). simpl.
        unfold w1, upd_heap. simpl. f_equal.
        apply list_eq. intros i. destruct (decide (i = r)) as [->|Hne].
        -- rewrite !list_lookup_alter_eq, Hn. simpl. unfold set_options. simpl.
           now rewrite Object_assign_spread.
        -- now rewrite !list_lookup_alter_ne by congruence.
      * assert (E : forall p w0, Map_get k (notifications w0) = Some r ->
                      heap w0 !! r = None -> snd (Manager.update k p w0) = w0).
        { intros p w0 Hk0 Hn0. unfold Manager.update, bind at 1, get. rewrite Hk0.
          unfold NotificationInstance.update, bind, this. now rewrite Hn0. }
        rewrite (E p1 w Hk Hn), (E p2 w Hk Hn), (E _ w Hk Hn). reflexivity.
    + rewrite (update_unknown k p1 w Hk), (update_unknown k (spread p1 p2) w Hk). simpl.
      now rewrite (update_unknown k p2 w Hk).
  - destruct (update_world k Patch.empty w) as [E|(r & n & Hk & Hn & E)]; rewrite E;
      [reflexivity|].
    destruct w as [nots q ip mx hp ts nh ds ms rd dr lg]. unfold upd_heap. simpl in *.
    f_equal. apply list_eq. intros i. destruct (decide (i = r)) as [->|Hne].
    + rewrite list_lookup_alter_eq, Hn. simpl. rewrite Object_assign_empty.
      now destruct n.
    + now rewrite list_lookup_alter_ne by congruence.
Qed.

(** ** The listeners after [update] *)

(** X6. [update] switches the global listeners on and off: once the top
    instance has been updated with [allowEscapeKey] (or [allowOutsideClick])
    set to false, the escape key (or a click outside) changes nothing; set to
    true, the listener calls [close] on that instance, whatever the option
    was when the notification was fired. *)
Theorem X6_update_switches_the_listeners
    (w : World) (k : Id) (r : Ref) (n : Notification) (p : Patch.t) :
  Map_get k (notifications w) = Some r ->
  last (Map_values (notifications w)) = Some r ->
  heap w !! r = Some n ->
  let w1 := call_step w (Update k p) in
  (forall b, Patch.allowEscapeKey p = Some b ->
     NotificationManager.onKeydown "Escape" w1
       = if b then Notification.close r w1 else (Normal tt, w1))
  /\ (forall b, Patch.allowOutsideClick p = Some b ->
        NotificationManager.onClick true w1
          = if b then Notification.close r w1 else (Normal tt, w1)).
Proof.
  intros Hk Ht Hn w1.
  assert (E : w1 = upd_heap (alter (set_options (Object_assign (options n) p)) r) w).
  { unfold w1, call_step, call_handler.
    change (call_method "update" (Manager.update k p)) with (Manager.update k p).
    now rewrite (update_known k r n p w Hk Hn). }
  assert (Ht1 : last (Map_values (notifications w1)) = Some r) by (rewrite E; exact Ht).
  assert (Hn1 : heap w1 !! r = Some (set_options (Object_assign (options n) p) n)).
  { rewrite E. simpl. now rewrite list_lookup_alter_eq, Hn. }
  split; intros b Hb.
  - rewrite (onKeydown_top r _ w1 Ht1 Hn1). simpl. now rewrite Hb.
  - rewrite (onClick_top r _ w1 Ht1 Hn1). simpl. now rewrite Hb.
Qed.

(** X6 at work: a default notification, then [update] forbids the escape
    key. *)
Lemma X6_witness :
  let w := run [Fire defaultOptions] (initial distinct_draws) in
  let p := Patch.mk None None None None (Some false) None None None None None None
             None None None None None in
  let w1 := call_step w (Update 0 p) in
  step w (Keydown "Escape") <> w
  /\ NotificationManager.onKeydown "Escape" w1 = (Normal tt, w1).
Proof.
  intros w p w1. split.
  - intros E. apply (f_equal timeouts) in E. vm_compute in E. discriminate.
  - destruct (heap w !! 0) as [n|] eqn:Hn; [|vm_compute in Hn; discriminate].
    assert (Hk : Map_get 0 (notifications w) = Some 0) by (vm_compute; reflexivity).
    assert (Ht : last (Map_values (notifications w)) = Some 0) by (vm_compute; reflexivity).
    destruct (X6_update_switches_the_listeners w 0 0 n p Hk Ht Hn) as [H _].
    exact (H false eq_refl).
Defined.

(** ** The notification just fired *)

#[local] Instance same_options_preorder : PreOrder same_options.
Proof.
  split.
  - intros w r n Hn. eauto.
  - intros w1 w2 w3 H12 H23 r n Hn.
    destruct (H12 r n Hn) as (n2 & Hn2 & E2).
    destruct (H23 r n2 Hn2) as (n3 & Hn3 & E3). exists n3. split; congruence.
Qed.

Lemma same_options_alter f r w :
  (forall n, options (f n) = options n) -> same_options w (upd_heap (alter f r) w).
Proof.
  intros Hf r0 n Hn. simpl. destruct (decide (r0 = r)) as [->|Hne].
  - exists (f n). rewrite list_lookup_alter_eq, Hn. auto.
  - exists n. now rewrite list_lookup_alter_ne by congruence.
Qed.

(** An assignment that reaches no heap cell. *)
Ltac no_heap := unfold follows; intros; intros ? ? Hcell; eexists; split; [exact Hcell|reflexivity].

Lemma close_same_options r : follows same_options (Notification.close r).
Proof.
  apply follows_close.
  - intros f w r0 n Hn. eauto.
  - intros k w r0 n Hn. eauto.
  - intros w. now apply same_options_alter.
  - apply follows_clearTimer.
    + intros f w r0 n Hn. eauto.
    + intros t w. now apply same_options_alter.
  - intros ms. apply follows_setTimeout; intros ? w r0 n Hn; eauto.
Qed.

Lemma step_fire o w : step w (Fire o) = snd (NotificationManager.fire o w).
Proof.
  unfold step, handler. rewrite fire_is_a_method. unfold bind.
  now destruct (NotificationManager.fire o w) as [[a|e] w'].
Qed.

(** The instance [fire] creates still carries the options it was fired with
    when the call is over. *)
Lemma fire_options o w r :
  fst (Notification.constructor o w) = Normal r ->
  exists n, heap (step w (Fire o)) !! r = Some n /\ options n = o.
Proof.
  intros Hc. rewrite step_fire.
  destruct (NotificationManager.fire o w) as [c w'] eqn:Ef. simpl.
  revert Ef. unfold NotificationManager.fire.
  destruct (Notification.constructor o w) as [[r1|e] w1] eqn:Ec; simpl in Hc;
    [|discriminate].
  inversion Hc; subst r1.
  destruct (constructor_normal o w r w1 Ec) as (Hr & n & Hn & Hopt & Hid & Hl).
  rewrite (bind_normal _ _ _ _ _ Ec).
  rewrite (bind_normal _ _ _ _ _ (this_some _ _ _ Hn)).
  unfold bind at 1, modify. unfold bind at 1, get.
  set (w2 := upd_notifications (Map_set (id n) r) w1).
  assert (Hn2 : heap w2 !! r = Some n) by exact Hn.
  assert (Hrest : forall m : JS unit,
            follows same_options m ->
            (m >> ret r) w2 = (c, w') -> exists n', heap w' !! r = Some n' /\ options n' = o).
  { intros m Hm E. destruct (Hm w2 r n Hn2) as (n' & Hn' & Ho). unfold bind in E.
    destruct (m w2) as [[[]|e] w3]; simpl in Hn'; inversion E; subst; exists n';
      split; congruence. }
  apply Hrest.
  destruct (maxNotifications w2 <? length (notifications w2)); [|apply follows_ret].
  destruct (Map_values (notifications w2)); [apply follows_throw|].
  apply close_same_options.
Qed.

(** The listeners treat the instance just fired according to the options it
    was fired with. *)
Lemma listeners_after_fire o w r :
  registry_wf w ->
  ~ In (random w (draws w)) (map fst (notifications w)) ->
  notifications w <> [] \/ 1 <= maxNotifications w ->
  fst (Notification.constructor o w) = Normal r ->
  let w' := step w (Fire o) in
  NotificationManager.onKeydown "Escape" w'
    = (if Options.allowEscapeKey o then Notification.close r w' else (Normal tt, w'))
  /\ NotificationManager.onClick true w'
    = (if Options.allowOutsideClick o then Notification.close r w' else (Normal tt, w')).
Proof.
  intros Hwf Hfresh Hne Hc w'.
  destruct (fire_registry o w r Hwf Hfresh Hne Hc) as (m & Em & _). fold w' in Em.
  assert (Ht' : last (Map_values (notifications w')) = Some r).
  { rewrite Em. unfold Map_values. rewrite map_app. simpl. apply last_snoc. }
  destruct (fire_options o w r Hc) as (n & Hn & Ho). fold w' in Hn.
  rewrite (onKeydown_top r n w' Ht' Hn), (onClick_top r n w' Ht' Hn), Ho. auto.
Qed.

(** ** Relations that every call of the page follows *)

Section Calls.
Context {R : World -> World -> Prop} `{!PreOrder R}.
Hypothesis R_queue : forall f w, R w (upd_queue f w).
Hypothesis R_isProcessing : forall b w, R w (upd_isProcessing b w).
Hypothesis R_deferreds : forall f w, R w (upd_deferreds f w).
Hypothesis R_microtasks : forall f w, R w (upd_microtasks f w).
Hypothesis R_set : forall k r w, R w (upd_notifications (Map_set k r) w).
Hypothesis R_clearTimeout : forall h, follows R (clearTimeout h).
Hypothesis R_constructor : forall o, follows R (Notification.constructor o).
Hypothesis R_close : forall r, follows R (Notification.close r).
Hypothesis R_destroy : forall r, follows R (Notification.destroy r).
Hypothesis R_promise : forall p r w, R w (upd_heap (alter (set_promise p) r) w).
Hypothesis R_options : forall o r w, R w (upd_heap (alter (set_options o) r) w).

Lemma follows_resolve r o : follows R (resolve r o).
Proof. unfold resolve, assign. follow; try apply R_promise. apply R_microtasks. Qed.

Lemma follows_reject r e : follows R (reject r e).
Proof. unfold reject, assign. follow. apply R_promise. Qed.

Lemma follows_then r f : follows R (then_ r f).
Proof. unfold then_, assign. follow; try apply R_promise. apply R_microtasks. Qed.

Lemma follows_update k p : follows R (Manager.update k p).
Proof. unfold Manager.update, NotificationInstance.update, assign. follow. apply R_options. Qed.

Lemma follows_call c : follows R (call_handler c).
Proof.
  destruct c as [e|k p]; simpl.
  - apply follows_handler; auto using follows_resolve, follows_reject, follows_then.
  - apply follows_call_method, follows_update.
Qed.

Lemma follows_run_calls cs w : R w (run_calls cs w).
Proof.
  revert w. induction cs as [|c cs IH]; intros w; simpl.
  - reflexivity.
  - etransitivity; [apply follows_call | apply IH].
Qed.
End Calls.

(** For a relation that holds across any assignment of one field. *)
Section Fields.
Context {R : World -> World -> Prop} `{!PreOrder R}.
Hypothesis R_notifications : forall f w, R w (upd_notifications f w).
Hypothesis R_queue : forall f w, R w (upd_queue f w).
Hypothesis R_isProcessing : forall b w, R w (upd_isProcessing b w).
Hypothesis R_heap : forall f w, R w (upd_heap f w).
Hypothesis R_timeouts : forall f w, R w (upd_timeouts f w).
Hypothesis R_nextHandle : forall h w, R w (upd_nextHandle h w).
Hypothesis R_deferreds : forall f w, R w (upd_deferreds f w).
Hypothesis R_microtasks : forall f w, R w (upd_microtasks f w).
Hypothesis R_draws : forall d w, R w (upd_draws d w).
Hypothesis R_log : forall f w, R w (upd_log f w).

Lemma fields_close r : follows R (Notification.close r).
Proof.
  apply follows_close; auto.
  - apply follows_clearTimer; auto.
  - intros ms. apply follows_setTimeout; auto.
Qed.

Lemma fields_constructor o : follows R (Notification.constructor o).
Proof.
  unfold Notification.constructor. follow.
  - intros w. apply R_draws.
  - intros w. apply R_heap.
  - apply follows_create; auto.
  - apply follows_open; auto.
Qed.

Lemma fields_run_calls cs w : R w (run_calls cs w).
Proof.
  apply follows_run_calls; auto.
  - intros h. unfold clearTimeout. follow. apply R_timeouts.
  - apply fields_constructor.
  - apply fields_close.
  - intros r. apply follows_destroy; auto.
Qed.
End Fields.

#[local] Instance same_bound_preorder : PreOrder same_bound.
Proof. split; unfold same_bound; [intros w|intros w1 w2 w3]; congruence. Qed.

Lemma same_bound_run_calls cs w : maxNotifications (run_calls cs w) = maxNotifications w.
Proof. apply (fields_run_calls (R := same_bound)); intros; reflexivity. Qed.

(** ** Timer handles *)

Lemma NoDup_handles_filter (f : Timeout -> bool) ts :
  NoDup (map handle ts) -> NoDup (map handle (List.filter f ts)).
Proof.
  induction ts as [|t ts IH]; simpl; intros Hnd; [constructor|].
  apply NoDup_cons in Hnd as [Hnot Hnd]. destruct (f t); simpl; [|auto].
  apply NoDup_cons. split; [|auto].
  rewrite list_elem_of_In, in_map_iff in *. intros (t' & E & Hin).
  apply Hnot. exists t'. split; [exact E|]. apply filter_In in Hin. tauto.
Qed.

Lemma handles_ok_alter f r w :
  (forall n h, timer (f n) = Some h -> timer n = Some h \/ h < nextHandle w) ->
  keeps handles_ok w (upd_heap (alter f r) w).
Proof.
  intros Hf (H1 & H2 & H3). split; [exact H1|]. split; [exact H2|].
  intros r0 n h. simpl. intros Hn Hh. destruct (decide (r0 = r)) as [->|Hne].
  - rewrite list_lookup_alter_eq in Hn.
    destruct (heap w !! r) as [n0|] eqn:E; [|discriminate].
    simpl in Hn. inversion Hn; subst. destruct (Hf n0 h Hh) as [Hh'|Hlt]; [|exact Hlt].
    eapply H3; eauto.
  - rewrite list_lookup_alter_ne in Hn by congruence. eapply H3; eauto.
Qed.

Lemma handles_ok_clearTimeout h : follows (keeps handles_ok) (clearTimeout h).
Proof.
  intros w (H1 & H2 & H3). split; [|split; [|exact H3]]; simpl.
  - now apply NoDup_handles_filter.
  - intros t Hin. apply In_remove_handle in Hin as [Hin _]. auto.
Qed.

Lemma handles_ok_setTimeout cb ms : follows (keeps handles_ok) (setTimeout cb ms).
Proof.
  intros w (H1 & H2 & H3). split; [|split]; simpl.
  - rewrite map_app. simpl. apply NoDup_app. split; [exact H1|]. split.
    + intros h Hin Hh. apply list_elem_of_In in Hin. apply in_map_iff in Hin.
      destruct Hin as (t & E & Hin). apply H2 in Hin.
      apply list_elem_of_In in Hh. destruct Hh as [Hh|[]]. lia.
    + apply NoDup_singleton.
  - intros t Hin. apply in_app_or in Hin as [Hin|[<-|[]]].
    + apply H2 in Hin. lia.
    + simpl. lia.
  - intros r n h Hn Hh. specialize (H3 r n h Hn Hh). lia.
Qed.

Lemma handles_ok_clearTimer r : follows (keeps handles_ok) (Notification.clearTimer r).
Proof.
  unfold Notification.clearTimer, assign. follow.
  - apply handles_ok_clearTimeout.
  - apply handles_ok_alter. intros n0 h0 Hh. discriminate.
Qed.

Lemma handles_ok_startTimer r : follows (keeps handles_ok) (Notification.startTimer r).
Proof.
  intros w Hok. unfold Notification.startTimer, bind, this.
  destruct (heap w !! r) as [n|] eqn:Hn; simpl; [|exact Hok].
  apply (handles_ok_alter (set_timer (Some (nextHandle w))) r
           (snd (setTimeout (CbClose r) (default 0 (Options.timer (options n))) w))).
  - intros n0 h Hh. simpl in Hh. inversion Hh; subst. right. simpl. lia.
  - now apply handles_ok_setTimeout.
Qed.

Lemma handles_ok_field f r w :
  (forall n, timer (f n) = timer n) -> keeps handles_ok w (upd_heap (alter f r) w).
Proof. intros Hf. apply handles_ok_alter. intros n h Hh. left. now rewrite <- Hf. Qed.

Lemma handles_ok_open r : follows (keeps handles_ok) (Notification.open r).
Proof.
  unfold Notification.open, assign. follow; try not_seen.
  - apply follows_call_hook. not_seen.
  - now apply handles_ok_field.
  - apply handles_ok_startTimer.
  - apply follows_call_hook. not_seen.
Qed.

Lemma handles_ok_close r : follows (keeps handles_ok) (Notification.close r).
Proof.
  apply follows_close; try not_seen.
  - intros w. now apply handles_ok_field.
  - apply handles_ok_clearTimer.
  - intros ms. apply handles_ok_setTimeout.
Qed.

Lemma handles_ok_alloc n : timer n = None -> follows (keeps handles_ok) (alloc n).
Proof.
  intros Ht w (H1 & H2 & H3). split; [exact H1|]. split; [exact H2|].
  intros r0 n0 h0. simpl. intros Hn0 Hh0.
  apply lookup_app_Some in Hn0 as [Hn0|[_ Hn0]].
  - eapply H3; eauto.
  - destruct (r0 - length (heap w)) as [|k]; simpl in Hn0; [|discriminate].
    inversion Hn0; subst. congruence.
Qed.

Lemma handles_ok_constructor o : follows (keeps handles_ok) (Notification.constructor o).
Proof.
  unfold Notification.constructor. follow.
  - not_seen.
  - now apply handles_ok_alloc.
  - apply follows_create; try not_seen. intros w. now apply handles_ok_field.
  - apply handles_ok_open.
Qed.

Lemma handles_ok_call c : follows (keeps handles_ok) (call_handler c).
Proof.
  apply follows_call; try not_seen.
  - apply handles_ok_clearTimeout.
  - apply handles_ok_constructor.
  - apply handles_ok_close.
  - intros r. apply follows_destroy; not_seen.
  - intros p r w. now apply handles_ok_field.
  - intros o r w. now apply handles_ok_field.
Qed.

Lemma handles_ok_initial rnd : handles_ok (initial rnd).
Proof.
  split; [constructor|]. split; [intros t []|].
  intros r n h Hn. simpl in Hn. rewrite lookup_nil in Hn. discriminate.
Qed.

Lemma timers_ok_call c : follows (keeps timers_ok) (call_handler c).
Proof.
  destruct c as [e|k p].
  - intros w. exact (timers_ok_run [e] w).
  - simpl. apply follows_call_method. unfold Manager.update, NotificationInstance.update, assign.
    follow. now apply timers_ok_alter.
Qed.

Lemma sound_call c : follows (keeps sound) (call_handler c).
Proof.
  intros w (Hwf & Ht & Hh & Hm). split; [|split; [|split]].
  - now apply registry_wf_call.
  - now apply timers_ok_call.
  - now apply handles_ok_call.
  - rewrite <- Hm. exact (same_bound_run_calls [c] w).
Qed.

Lemma sound_run_calls cs w : sound w -> sound (run_calls cs w).
Proof.
  revert w. induction cs as [|c cs IH]; intros w Hs; simpl; [exact Hs|].
  apply IH. now apply sound_call.
Qed.

Lemma sound_initial rnd : sound (initial rnd).
Proof.
  split; [apply registry_wf_initial|]. split; [apply timers_ok_initial|].
  split; [apply handles_ok_initial|reflexivity].
Qed.

(** ** The presets *)

(** X7. A notification fired by [loading] is closed by neither the escape key
    nor a click outside, unless the options of the caller say so: the keys of
    the caller are spread last, so [allowEscapeKey: true] (or
    [allowOutsideClick: true]) passed to [loading] brings the listener back. *)
Theorem X7_loading_is_closed_by_no_listener_unless_asked
    (p : Patch.t) (w : World) (r : Ref) :
  registry_wf w ->
  ~ In (random w (draws w)) (map fst (notifications w)) ->
  notifications w <> [] \/ 1 <= maxNotifications w ->
  fst (Notification.constructor
         (Object_assign defaultOptions (spread Manager.loading_keys p)) w) = Normal r ->
  let w' := snd (Manager.loading p w) in
  NotificationManager.onKeydown "Escape" w'
    = (if default false (Patch.allowEscapeKey p)
       then Notification.close r w' else (Normal tt, w'))
  /\ NotificationManager.onClick true w'
    = (if default false (Patch.allowOutsideClick p)
       then Notification.close r w' else (Normal tt, w')).
Proof.
  intros Hwf Hfresh Hne Hc w'.
  destruct (listeners_after_fire _ w r Hwf Hfresh Hne Hc) as [Hk Hcl].
  rewrite step_fire in Hk, Hcl. fold (Manager.fire_object (spread Manager.loading_keys p)) in Hk, Hcl.
  fold (Manager.loading p) in Hk, Hcl. fold w' in Hk, Hcl.
  rewrite Hk, Hcl. unfold Object_assign, spread, Manager.loading_keys.
  cbn [Options.allowEscapeKey Options.allowOutsideClick Patch.allowEscapeKey
       Patch.allowOutsideClick].
  split.
  - destruct (Patch.allowEscapeKey p) as [[|]|]; reflexivity.
  - destruct (Patch.allowOutsideClick p) as [[|]|]; reflexivity.
Qed.

(** X7 at work: [loading] with an empty options object on a fresh page. *)
Lemma X7_witness :
  let w := initial distinct_draws in
  let w' := snd (Manager.loading Patch.empty w) in
  NotificationManager.onKeydown "Escape" w' = (Normal tt, w')
  /\ NotificationManager.onClick true w' = (Normal tt, w').
Proof.
  intros w w'.
  apply (X7_loading_is_closed_by_no_listener_unless_asked Patch.empty w 0).
  - apply registry_wf_initial.
  - simpl. tauto.
  - right. simpl. lia.
  - vm_compute. reflexivity.
Defined.

(** ** The timer of the notification just fired *)

Lemma create_timeouts r w :
  timeouts (snd (Notification.create r w)) = timeouts w
  /\ nextHandle (snd (Notification.create r w)) = nextHandle w.
Proof.
  apply (@follows_create
           (fun w w' => timeouts w' = timeouts w /\ nextHandle w' = nextHandle w));
    try (intros; split; reflexivity).
  split; [intros ?; split; reflexivity|].
  intros w1 w2 w3 [H1 H2] [H3 H4]. split; congruence.
Qed.

(** When [open] completes on an instance that was not open, its timer is armed
    if and only if the option [timer] is truthy. *)
Lemma open_timer r n w w' :
  heap w !! r = Some n -> isOpen n = false ->
  Notification.open r w = (Normal tt, w') ->
  exists n', heap w' !! r = Some n' /\ promise n' = promise n
    /\ if truthy (Options.timer (options n)) then
         timeouts w' = timeouts w ++ [{| handle := nextHandle w;
                                         delay := default 0 (Options.timer (options n));
                                         callback := CbClose r |}]
         /\ timer n' = Some (nextHandle w)
       else timeouts w' = timeouts w /\ timer n' = timer n.
Proof.
  intros Hn Ho. rewrite open_eq.
  rewrite (bind_normal _ _ _ _ _ (this_some _ _ _ Hn)). rewrite Ho. intros E.
  apply bind_inv_normal in E as ([] & w1 & E1 & E).
  apply bind_inv_normal in E as ([] & w2 & E2 & E).
  pose proof (show_classes_world n w1) as Hs. rewrite E2 in Hs. simpl in Hs. subst w2.
  assert (Hw1 : w1 = w \/ w1 = upd_log (fun l => l ++ [(r, WillOpen)]) w).
  { pose proof (call_hook_cases r WillOpen (Options.willOpen (options n)) w) as H.
    now rewrite E1 in H. }
  clear E1 E2. revert E.
  destruct Hw1 as [-> | ->];
    destruct (Options.didOpen (options n)) as [[|e2]|];
    destruct (truthy (Options.timer (options n)));
    run_on Hn; intros E; inversion E; subst; simpl;
    rewrite ?list_lookup_alter_eq, ?Hn; simpl; eexists; repeat split.
Qed.

Lemma constructor_timer o w r w1 :
  Notification.constructor o w = (Normal r, w1) ->
  exists n, heap w1 !! r = Some n /\ state (promise n) = Pending
    /\ if truthy (Options.timer o) then
         timeouts w1 = timeouts w ++ [{| handle := nextHandle w;
                                         delay := default 0 (Options.timer o);
                                         callback := CbClose r |}]
       else timeouts w1 = timeouts w.
Proof.
  rewrite constructor_eq. intros E.
  apply bind_inv_normal in E as ([] & wb & Ecreate & E).
  apply bind_inv_normal in E as ([] & wc & Eopen & E).
  inversion E; subst.
  pose proof (create_timeouts (length (heap w)) (allocated o w)) as [Ht Hh].
  pose proof (create_cell _ _ _ (heap_allocated o w)) as Hn.
  rewrite Ecreate in Ht, Hh, Hn. cbn [snd] in Ht, Hh, Hn.
  destruct (rendered_fields (fresh o (random w (draws w))))
    as (R1 & _ & R3 & _ & _ & R6).
  destruct (open_timer _ _ _ _ Hn R1 Eopen) as (n' & En & Hp & Htim).
  exists n'. split; [exact En|]. split; [now rewrite Hp, R6|].
  rewrite R3 in Htim. simpl in Htim, Ht, Hh. destruct (truthy (Options.timer o)).
  - destruct Htim as [Htim _]. now rewrite Htim, Ht, Hh.
  - destruct Htim as [Htim _]. now rewrite Htim, Ht.
Qed.

(** What [fire] does after the constructor: it files the instance and, over
    the bound, closes an instance that is older. *)
Lemma fire_cases o w r w1 n :
  registry_wf w ->
  ~ In (random w (draws w)) (map fst (notifications w)) ->
  notifications w <> [] \/ 1 <= maxNotifications w ->
  Notification.constructor o w = (Normal r, w1) ->
  heap w1 !! r = Some n ->
  let w2 := upd_notifications (Map_set (id n) r) w1 in
  snd (NotificationManager.fire o w) = w2
  \/ exists r0 n0, r0 < r /\ heap w !! r0 = Some n0 /\ heap w2 !! r0 = Some n0
       /\ snd (NotificationManager.fire o w) = snd (Notification.close r0 w2).
Proof.
  intros Hwf Hfresh Hne Ec Hn w2.
  destruct (NotificationManager.fire o w) as [c wf] eqn:Ef. cbn [snd].
  revert Ef. unfold NotificationManager.fire.
  pose proof (constructor_same_registry o w) as [Hsn Hsm].
  assert (Hframe : forall r', r' < length (heap w) ->
            heap (snd (Notification.constructor o w)) !! r' = heap w !! r')
    by (intros; now apply constructor_frame).
  rewrite Ec in Hsn, Hsm, Hframe. cbn [snd] in Hsn, Hsm, Hframe.
  destruct (constructor_normal o w r w1 Ec) as (Hr & n' & Hn' & Hopt & Hid & Hl).
  rewrite Hn in Hn'. inversion Hn'; subst n'. clear Hn'.
  rewrite (bind_normal _ _ _ _ _ Ec).
  rewrite (bind_normal _ _ _ _ _ (this_some _ _ _ Hn)).
  unfold bind at 1, modify. unfold bind at 1, get. fold w2.
  assert (En2 : notifications w2 = notifications w ++ [(random w (draws w), r)]).
  { unfold w2. simpl. rewrite Hsn, Hid. now apply Map_set_fresh. }
  destruct (maxNotifications w2 <? length (notifications w2)) eqn:Hfull.
  - destruct (notifications w) as [|[k0 r0] rest] eqn:En.
    + exfalso. apply Nat.ltb_lt in Hfull. rewrite En2 in Hfull. simpl in Hfull.
      unfold w2 in Hfull. simpl in Hfull. rewrite Hsm in Hfull.
      destruct Hne as [Hne|Hne]; [congruence|lia].
    + rewrite En2. simpl Map_values.
      destruct Hwf as [Hnd Hent].
      destruct (Hent k0 r0) as (n0 & Hn0 & Hid0 & _); [rewrite En; now left|].
      assert (Hlt : r0 < r) by (rewrite Hr; now apply lookup_lt_Some in Hn0).
      assert (Hn02 : heap w2 !! r0 = Some n0).
      { unfold w2. simpl. rewrite Hframe; [exact Hn0|]. now rewrite <- Hr. }
      intros Ef. right. exists r0, n0. split; [exact Hlt|]. split; [exact Hn0|].
      split; [exact Hn02|]. unfold bind in Ef.
      destruct (Notification.close r0 w2) as [[[]|e] w3]; now inversion Ef.
  - intros Ef. inversion Ef; subst. now left.
Qed.

(** [close] on an instance leaves a pending timeout alone when the instance
    does not hold its handle. *)
Lemma close_spares t r0 w :
  (forall n0 h, heap w !! r0 = Some n0 -> timer n0 = Some h -> h <> handle t) ->
  In t (timeouts w) -> In t (timeouts (snd (Notification.close r0 w))).
Proof.
  intros Hh Hin.
  set (I := fun w : World =>
         In t (timeouts w)
         /\ forall n0 h, heap w !! r0 = Some n0 -> timer n0 = Some h -> h <> handle t).
  assert (Halter : forall f w0, (forall m h, timer (f m) = Some h -> timer m = Some h) ->
                     keeps I w0 (upd_heap (alter f r0) w0)).
  { intros f w0 Hf [H1 H2]. split; [exact H1|]. intros n0 h. simpl.
    rewrite list_lookup_alter_eq. destruct (heap w0 !! r0) as [m|] eqn:E; [|discriminate].
    simpl. intros Hn0 Ht. inversion Hn0; subst. apply (H2 m h eq_refl). now apply Hf. }
  assert (H : follows (keeps I) (Notification.close r0)).
  { apply follows_close; try not_seen.
    - intros w0. apply Halter. auto.
    - intros w0 HI. pose proof HI as [H1 H2]. unfold Notification.clearTimer, bind, this.
      destruct (heap w0 !! r0) as [n0|] eqn:Hn0; simpl; [|exact HI].
      destruct (timer n0) as [[|h]|] eqn:Ht; simpl; try exact HI.
      split.
      + apply In_remove_handle. split; [exact H1|]. intros E. now apply (H2 n0 (S h)).
      + intros m h0. simpl. rewrite list_lookup_alter_eq, Hn0. simpl. intros Hm.
        inversion Hm. discriminate.
    - intros ms w0 [H1 H2]. split; [|exact H2]. simpl. apply in_or_app. now left. }
  apply (H w). now split.
Qed.

(** [close] arms no auto-close timer. *)
Lemma close_arms_nothing r r0 w :
  (forall t, In t (timeouts w) -> callback t <> CbClose r) ->
  forall t, In t (timeouts (snd (Notification.close r0 w))) -> callback t <> CbClose r.
Proof.
  set (I := fun w : World => forall t, In t (timeouts w) -> callback t <> CbClose r).
  assert (H : follows (keeps I) (Notification.close r0)).
  { apply follows_close; try not_seen.
    - intros w0 HI. unfold Notification.clearTimer, bind, this.
      destruct (heap w0 !! r0) as [n0|] eqn:Hn0; simpl; [|exact HI].
      destruct (timer n0) as [[|h]|] eqn:Ht; simpl; try exact HI.
      intros t Hin. simpl in Hin. apply In_remove_handle in Hin as [Hin _]. now apply HI.
    - intros ms w0 HI t Hin. simpl in Hin. apply in_app_or in Hin as [Hin|[<-|[]]].
      + now apply HI.
      + discriminate. }
  exact (H w).
Qed.

Lemma find_handle t ts :
  NoDup (map handle ts) -> In t ts ->
  List.find (fun t' => handle t' =? handle t) ts = Some t.
Proof.
  induction ts as [|t0 ts IH]; simpl; intros Hnd Hin; [tauto|].
  apply NoDup_cons in Hnd as [Hnot Hnd]. destruct Hin as [->|Hin].
  - now rewrite Nat.eqb_refl.
  - destruct (Nat.eqb_spec (handle t0) (handle t)) as [E|_]; [|auto].
    exfalso. apply Hnot. rewrite E. apply list_elem_of_In, in_map, Hin.
Qed.

(** When a pending auto-close callback fires, its instance is flagged closing
    and its promise is as it was. *)
Lemma timeout_closes t r n w :
  handles_ok w -> In t (timeouts w) -> callback t = CbClose r ->
  heap w !! r = Some n -> isOpen n = true ->
  (exists n', heap (step w (TimeoutFires (handle t))) !! r = Some n'
              /\ isClosing n' = true)
  /\ promise_state (step w (TimeoutFires (handle t))) r = promise_state w r.
Proof.
  intros (Hnd & _) Hin Hcb Hn Ho.
  set (w1 := upd_timeouts (remove_handle (handle t)) w).
  assert (E : step w (TimeoutFires (handle t)) = snd (Notification.close r w1)).
  { unfold step, handler, fire_timeout. unfold bind at 1, get.
    rewrite (find_handle t _ Hnd Hin), Hcb. reflexivity. }
  rewrite E.
  assert (Hn1 : heap w1 !! r = Some n) by exact Hn.
  split.
  - exact (close_sets_isClosing r n w1 Hn1 Ho).
  - exact (close_same_promises r w1 r).
Qed.

(** The timer of the instance [fire] creates: armed with the delay of the
    option [timer] when that is truthy, not armed otherwise. *)
Lemma fire_timer o w r :
  sound w ->
  ~ In (random w (draws w)) (map fst (notifications w)) ->
  fst (Notification.constructor o w) = Normal r ->
  let w' := step w (Fire o) in
  (exists n, heap w' !! r = Some n /\ isOpen n = true /\ state (promise n) = Pending)
  /\ if truthy (Options.timer o) then
       In {| handle := nextHandle w; delay := default 0 (Options.timer o);
             callback := CbClose r |} (timeouts w')
     else forall t, In t (timeouts w') -> callback t <> CbClose r.
Proof.
  intros (Hwf & Hto & Hh & Hmax) Hfresh Hc w'.
  destruct (Notification.constructor o w) as [[r1|e] w1] eqn:Ec; simpl in Hc;
    [|discriminate].
  inversion Hc; subst r1. clear Hc.
  destruct (constructor_timer o w r w1 Ec) as (n & Hn & Hp & Htim).
  destruct (constructor_normal o w r w1 Ec) as (Hr & n' & Hn' & _ & _ & Hl).
  rewrite Hn in Hn'. inversion Hn'; subst n'. clear Hn'.
  apply andb_true_iff in Hl as [Ho _].
  assert (Hne : notifications w <> [] \/ 1 <= maxNotifications w) by (right; lia).
  pose proof (fire_cases o w r w1 n Hwf Hfresh Hne Ec Hn) as Hcases.
  unfold w'. rewrite step_fire.
  set (w2 := upd_notifications (Map_set (id n) r) w1) in *.
  destruct Hcases as [-> | (r0 & n0 & Hlt & Hn0 & Hn02 & ->)].
  - split; [exists n; auto|].
    destruct (truthy (Options.timer o)).
    + change (timeouts w2) with (timeouts w1). rewrite Htim. apply in_or_app. right. now left.
    + change (timeouts w2) with (timeouts w1). rewrite Htim. intros t Hin Hcb.
      destruct Hto as (_ & _ & H3). destruct (H3 t r Hin Hcb) as (m & Hm & _).
      apply lookup_lt_Some in Hm. lia.
  - split.
    + exists n. rewrite (close_frame r0 w2 r) by lia. auto.
    + destruct (truthy (Options.timer o)).
      * apply close_spares.
        -- intros m h Hm Ht. rewrite Hn02 in Hm. inversion Hm; subst m. simpl.
           destruct Hh as (_ & _ & H3). specialize (H3 r0 n0 h Hn0 Ht). lia.
        -- change (timeouts w2) with (timeouts w1). rewrite Htim. apply in_or_app.
           right. now left.
      * apply close_arms_nothing.
        change (timeouts w2) with (timeouts w1). rewrite Htim. intros t Hin Hcb.
        destruct Hto as (_ & _ & H3). destruct (H3 t r Hin Hcb) as (m & Hm & _).
        apply lookup_lt_Some in Hm. lia.
Qed.

(** X8. [toast] arms a timer of three seconds on the notification it fires,
    unless the options of the caller have a [timer] key of their own, which
    wins. When the timer expires the notification is closing and its promise
    is still pending: a toast that times out delivers no outcome. A caller who
    passes [timer: 0] or [timer: null] gets a toast that never closes by
    itself. *)
Theorem X8_toast_arms_a_three_second_timer
    (p : Patch.t) (w : World) (r : Ref) :
  sound w ->
  ~ In (random w (draws w)) (map fst (notifications w)) ->
  fst (Notification.constructor
         (Object_assign defaultOptions (spread Manager.toast_keys p)) w) = Normal r ->
  let w' := snd (Manager.toast p w) in
  let ms := default (Some 3000) (Patch.timer p) in
  if truthy ms then
    In {| handle := nextHandle w; delay := default 0 ms; callback := CbClose r |}
       (timeouts w')
    /\ (exists n', heap (step w' (TimeoutFires (nextHandle w))) !! r = Some n'
                   /\ isClosing n' = true)
    /\ promise_state (step w' (TimeoutFires (nextHandle w))) r = Some Pending
  else forall t, In t (timeouts w') -> callback t <> CbClose r.
Proof.
  intros Hs Hfresh Hc w' ms.
  set (o := Object_assign defaultOptions (spread Manager.toast_keys p)) in *.
  assert (Ew : w' = step w (Fire o)) by (unfold w'; now rewrite step_fire).
  assert (Ems : Options.timer o = ms).
  { unfold ms, o, Object_assign, spread, Manager.toast_keys.
    cbn [Options.timer Patch.timer]. now destruct (Patch.timer p). }
  destruct (fire_timer o w r Hs Hfresh Hc) as [(n & Hn & Ho & Hp) Htim].
  rewrite <- Ew in Hn. rewrite <- Ew, Ems in Htim. destruct (truthy ms); [|exact Htim].
  split; [exact Htim|].
  assert (Hh : handles_ok w').
  { rewrite Ew. apply (sound_call (Ev (Fire o)) w Hs). }
  destruct (timeout_closes _ r n w' Hh Htim eq_refl Hn Ho) as [Hcl Hpr].
  split; [exact Hcl|]. simpl in Hpr. rewrite Hpr. unfold promise_state.
  rewrite Hn. simpl. now rewrite Hp.
Qed.

(** X8 at work: a toast on a fresh page. *)
Lemma X8_witness :
  let w := initial distinct_draws in
  let w' := snd (Manager.toast Patch.empty w) in
  In {| handle := 1; delay := 3000; callback := CbClose 0 |} (timeouts w')
  /\ (exists n', heap (step w' (TimeoutFires 1)) !! 0 = Some n' /\ isClosing n' = true)
  /\ promise_state (step w' (TimeoutFires 1)) 0 = Some Pending.
Proof.
  intros w w'.
  apply (X8_toast_arms_a_three_second_timer Patch.empty w 0).
  - apply sound_initial.
  - simpl. tauto.
  - vm_compute. reflexivity.
Defined.

(** ** The lifecycle goes one way *)

#[local] Instance one_way_preorder : PreOrder one_way.
Proof.
  split.
  - intros w r n Hn. exists n. auto.
  - intros w1 w2 w3 H12 H23 r n Hn.
    destruct (H12 r n Hn) as (n2 & Hn2 & Hi2 & Ho2 & Hc2).
    destruct (H23 r n2 Hn2) as (n3 & Hn3 & Hi3 & Ho3 & Hc3).
    exists n3. split; [exact Hn3|]. split; [congruence|]. split; auto.
Qed.

Lemma one_way_alter f r w :
  (forall n, id (f n) = id n) ->
  (forall n, isOpen n = true -> isOpen (f n) = true) ->
  (forall n, isClosing n = true -> isClosing (f n) = true) ->
  one_way w (upd_heap (alter f r) w).
Proof.
  intros Hi Ho Hc r0 n Hn. simpl. destruct (decide (r0 = r)) as [->|Hne].
  - exists (f n). rewrite list_lookup_alter_eq, Hn. simpl. auto.
  - exists n. rewrite list_lookup_alter_ne by congruence. auto.
Qed.

(** An assignment that reaches no instance. *)
Ltac same_heap := unfold follows; intros; intros ? ? Hcell; eexists; split; [exact Hcell|auto].

Lemma one_way_close r : follows one_way (Notification.close r).
Proof.
  apply follows_close; try same_heap.
  - intros w. now apply one_way_alter.
  - apply follows_clearTimer; try same_heap. intros t w. now apply one_way_alter.
Qed.

Lemma one_way_constructor o : follows one_way (Notification.constructor o).
Proof.
  unfold Notification.constructor. follow.
  - same_heap.
  - intros w r n Hn. exists n. simpl. split; [now apply lookup_app_l_Some|auto].
  - apply follows_create; try same_heap. intros w. now apply one_way_alter.
  - apply follows_open; try same_heap; intros; now apply one_way_alter.
Qed.

Lemma one_way_run_calls cs w : one_way w (run_calls cs w).
Proof.
  apply follows_run_calls; try same_heap.
  - apply one_way_constructor.
  - apply one_way_close.
  - intros r. apply follows_destroy; same_heap.
  - intros p r w0. now apply one_way_alter.
  - intros o r w0. now apply one_way_alter.
Qed.

(** X9. The lifecycle goes one way. Whatever the page calls afterwards
    ([fire], the presets' [fire], [update], [closeAll], a button, a key, a
    click, a timeout, a settled pre-handler, a reaction), an instance stays
    in place with the id it drew, an open instance stays open and a closing
    instance stays closing: nothing resets [isOpen] or [isClosing], and
    nothing reopens a closed notification. *)
Theorem X9_no_call_reopens_an_instance
    (cs : list Call) (w : World) (r : Ref) (n : Notification) :
  heap w !! r = Some n ->
  exists n', heap (run_calls cs w) !! r = Some n'
    /\ id n' = id n
    /\ (isOpen n = true -> isOpen n' = true)
    /\ (isClosing n = true -> isClosing n' = true).
Proof. intros Hn. exact (one_way_run_calls cs w r n Hn). Qed.

(** X9 at work: a notification closed by the escape key, then updated and
    clicked. *)
Lemma X9_witness :
  let w := run [Fire defaultOptions; Keydown "Escape"] (initial distinct_draws) in
  let cs := [Update 0 Patch.empty; Ev (HandleAction 0 "confirm"); Ev (Fire defaultOptions)] in
  exists n', heap (run_calls cs w) !! 0 = Some n'
    /\ id n' = 0 /\ isOpen n' = true /\ isClosing n' = true.
Proof.
  intros w cs.
  destruct (heap w !! 0) as [n|] eqn:Hn; [|vm_compute in Hn; discriminate].
  destruct (X9_no_call_reopens_an_instance cs w 0 n Hn) as (n' & Hn' & Hi & Ho & Hc).
  assert (E : (fun m => (id m, isOpen m, isClosing m)) <$> heap w !! 0
               = Some (0, true, true)) by (vm_compute; reflexivity).
  rewrite Hn in E. simpl in E.
  assert (E1 : id n = 0) by congruence.
  assert (E2 : isOpen n = true) by congruence.
  assert (E3 : isClosing n = true) by congruence.
  exists n'. split; [exact Hn'|]. split; [congruence|]. split; [apply Ho|apply Hc]; assumption.
Defined.

(** ** [closeAll] *)

Lemma Map_delete_not_In k v (m : list (Id * Ref)) : NoDup (map fst m) -> ~ In (k, v) (Map_delete k m).
Proof.
  intros Hnd Hin.
  pose proof (Map_In_get k v _ (Map_delete_keys_NoDup k m Hnd) Hin) as E.
  rewrite Map_get_delete_same in E by exact Hnd. discriminate.
Qed.

Lemma Map_In_same_key k v1 v2 (m : list (Id * Ref)) :
  NoDup (map fst m) -> In (k, v1) m -> In (k, v2) m -> v1 = v2.
Proof.
  intros Hnd H1 H2. apply (Map_In_get _ _ _ Hnd) in H1, H2. congruence.
Qed.

Lemma existsb_key k v m : In (k, v) m -> existsb (fun kv : Id * Ref => fst kv =? k) m = true.
Proof.
  intros Hin. apply existsb_exists. exists (k, v). split; [exact Hin|]. apply Nat.eqb_refl.
Qed.

(** With closing hooks that return and class names that are well formed,
    [close] on an open instance completes; the instance leaves the registry
    within the call unless it lingers. *)
Lemma close_completes r n w :
  heap w !! r = Some n -> isOpen n = true ->
  quiet (Options.willClose (options n)) = true ->
  quiet (Options.didClose (options n)) = true ->
  quiet (Options.didDestroy (options n)) = true ->
  hides_cleanly n = true ->
  exists w1, Notification.close r w = (Normal tt, w1)
    /\ notifications w1 = (if lingers w r then notifications w
                           else Map_delete (id n) (notifications w)).
Proof.
  intros Hn Ho Hq1 Hq2 Hq3 Hh. unfold lingers. rewrite Hn.
  destruct (isClosing n) eqn:Hc.
  - rewrite (close_noop r n w Hn) by auto. eauto.
  - rewrite (close_live r n w Hn) by (unfold live; now rewrite Ho, Hc).
    destruct (Options.animation (options n)) eqn:Ha;
    destruct (Options.willClose (options n)) as [[|e1]|]; try discriminate;
    destruct (Options.didClose (options n)) as [[|e2]|] eqn:E2; try discriminate;
    destruct (Options.didDestroy (options n)) as [[|e3]|] eqn:E3; try discriminate;
    destruct (timer n) as [[|h]|] eqn:Et;
    run_on Hn; rewrite ?Et, ?E2, ?E3; run_on Hn; rewrite ?E2, ?E3; simpl;
    try rewrite (hide_classes_ok n _ Ha Hh); simpl;
    eexists; split; reflexivity.
Qed.

Lemma lingers_frame r r0 w w' : frame r w w' -> r0 <> r -> lingers w' r0 = lingers w r0.
Proof. intros Hf Hne. unfold lingers. now rewrite (Hf r0 Hne). Qed.

Lemma forEach_close_quiet entries :
  forall w,
  NoDup (map fst (notifications w)) ->
  NoDup (map fst entries) ->
  (forall k r, In (k, r) entries ->
     In (k, r) (notifications w)
     /\ closes_quietly w r /\ hides_its_classes w r
     /\ exists n, heap w !! r = Some n /\ id n = k /\ isOpen n = true) ->
  let w' := snd (NotificationManager.forEach_close entries w) in
  fst (NotificationManager.forEach_close entries w) = Normal tt
  /\ (forall k r, In (k, r) entries ->
        exists n', heap w' !! r = Some n' /\ isClosing n' = true)
  /\ (forall k r, In (k, r) (notifications w') <->
        In (k, r) (notifications w) /\ (In (k, r) entries -> lingers w r = true)).
Proof.
  induction entries as [|[k r] rest IH]; intros w Hnd Hnde Hent; simpl.
  - split; [reflexivity|]. split; [intros k r []|]. intros k r. tauto.
  - destruct (Hent k r)
      as (Hin & (m & Hm & Hq1 & Hq2 & Hq3) & (m' & Hm' & Hh) & n & Hn & Hid & Ho);
      [now left|].
    rewrite Hn in Hm, Hm'. inversion Hm; subst m. inversion Hm'; subst m'. clear Hm Hm'.
    unfold bind at 1 3 5, get. rewrite (existsb_key k r _ Hin).
    destruct (close_completes r n w Hn Ho Hq1 Hq2 Hq3 Hh) as (w1 & Ec & En1).
    rewrite !(bind_normal _ _ _ _ _ Ec).
    pose proof (close_frame r w) as Hfr. rewrite Ec in Hfr. cbn [snd] in Hfr.
    pose proof (close_sets_isClosing r n w Hn Ho) as Hcl. rewrite Ec in Hcl. cbn [snd] in Hcl.
    change (NoDup (k :: map fst rest)) in Hnde. apply NoDup_cons in Hnde as [Hk Hnde].
    assert (Hkey : forall k' r', In (k', r') rest -> k' <> k).
    { intros k' r' Hin' ->. apply Hk. apply list_elem_of_In.
      change k with (fst (k, r')). now apply in_map. }
    assert (Href : forall k' r', In (k', r') rest -> r' <> r).
    { intros k' r' Hin' ->.
      destruct (Hent k' r) as (_ & _ & _ & n2 & Hn2 & Hid2 & _); [now right|].
      apply (Hkey k' r Hin'). congruence. }
    assert (Hnd1 : NoDup (map fst (notifications w1))).
    { rewrite En1. destruct (lingers w r); [exact Hnd|now apply Map_delete_keys_NoDup]. }
    assert (Hent1 : forall k' r', In (k', r') rest ->
              In (k', r') (notifications w1)
              /\ closes_quietly w1 r' /\ hides_its_classes w1 r'
              /\ exists n', heap w1 !! r' = Some n' /\ id n' = k' /\ isOpen n' = true).
    { intros k' r' Hin'.
      destruct (Hent k' r') as (Hin0 & Hq & Hc & Hn0); [now right|].
      unfold closes_quietly, hides_its_classes. rewrite (Hfr r' (Href k' r' Hin')).
      split; [|split; [|split]; assumption].
      rewrite En1. destruct (lingers w r); [exact Hin0|].
      apply Map_delete_In_other; [|exact Hin0]. rewrite Hid. exact (Hkey k' r' Hin'). }
    destruct (IH w1 Hnd1 Hnde Hent1) as (Hfst & Hclosing & Hreg).
    split; [exact Hfst|]. split.
    + intros k0 r0 [E|Hin0].
      * inversion E; subst k0 r0.
        destruct Hcl as (n1 & Hn1 & Hc1).
        pose proof (@follows_forEach_close one_way _ one_way_close rest w1 r n1 Hn1)
          as (n2 & Hn2 & _ & _ & Hc2).
        exists n2. split; [exact Hn2|auto].
      * exact (Hclosing k0 r0 Hin0).
    + intros k0 r0. rewrite Hreg. split.
      * intros [Hin1 Hl]. split.
        -- rewrite En1 in Hin1. destruct (lingers w r); [exact Hin1|].
           now apply Map_delete_In in Hin1.
        -- intros [E|Hin0].
           ++ inversion E; subst k0 r0. destruct (lingers w r) eqn:El; [reflexivity|].
              exfalso. rewrite En1, Hid in Hin1. exact (Map_delete_not_In _ _ _ Hnd Hin1).
           ++ rewrite <- (lingers_frame r r0 w w1 Hfr (Href k0 r0 Hin0)). auto.
      * intros [Hin0 Hl]. split.
        -- rewrite En1. destruct (lingers w r) eqn:El; [exact Hin0|].
           apply Map_delete_In_other; [|exact Hin0]. rewrite Hid. intros ->.
           pose proof (Map_In_same_key _ _ _ _ Hnd Hin0 Hin) as ->.
           rewrite Hl in El by now left. discriminate.
        -- intros Hin1. rewrite (lingers_frame r r0 w w1 Hfr (Href k0 r0 Hin1)).
           apply Hl. now right.
Qed.

(** [closeAll] catches nothing of the class-list calls either. Two default
    notifications, the older one fired with [hideClass: { popup: 'x' }], which
    has no [backdrop]: [close] of the older one raises a TypeError after it
    has flagged the instance and before it schedules [destroy], the exception
    leaves [closeAll], and the other instance is not visited. *)
Lemma closeAll_stops_at_a_missing_class_name :
  let hide := {| ClassNames.popup := Some "x"%string; ClassNames.backdrop := None |} in
  let w := run [Fire (with_hideClass hide defaultOptions); Fire defaultOptions]
             (initial distinct_draws) in
  let w' := snd (NotificationManager.closeAll w) in
  fst (NotificationManager.closeAll w) = Abrupt (TypeError "split is not a function")
  /\ isClosing <$> heap w' !! 0 = Some true
  /\ isClosing <$> heap w' !! 1 = Some false
  /\ timeouts w' = []
  /\ Map_values (notifications w') = [0; 1].
Proof. vm_compute. repeat split. Qed.

(** X10. [closeAll] on instances that close without raising (closing hooks
    that return, and class names of [showClass] and [hideClass] that are well
    formed where [close] reads them): the call completes, every
    registered instance is closing afterwards, the registry keeps exactly the
    instances that linger (those that were closing already and those with an
    exit animation, whose [destroy] is still to come), in their order, and no
    promise is settled. *)
Theorem X10_closeAll_closes_every_registered_instance (w : World) :
  registry_wf w ->
  (forall k r, In (k, r) (notifications w) -> closes_quietly w r) ->
  (forall k r, In (k, r) (notifications w) -> hides_its_classes w r) ->
  let w' := snd (NotificationManager.closeAll w) in
  fst (NotificationManager.closeAll w) = Normal tt
  /\ (forall k r, In (k, r) (notifications w) ->
        exists n', heap w' !! r = Some n' /\ isClosing n' = true)
  /\ (forall k r, In (k, r) (notifications w') <->
        In (k, r) (notifications w) /\ lingers w r = true)
  /\ same_promises w w'.
Proof.
  intros [Hnd Hent] Hq Hc w'.
  assert (E : NotificationManager.closeAll w
              = NotificationManager.forEach_close (notifications w) w) by reflexivity.
  unfold w'. rewrite E.
  destruct (forEach_close_quiet (notifications w) w Hnd Hnd) as (H1 & H2 & H3).
  { intros k r Hin. split; [exact Hin|]. split; [exact (Hq k r Hin)|].
    split; [exact (Hc k r Hin)|exact (Hent k r Hin)]. }
  split; [exact H1|]. split; [exact H2|]. split.
  - intros k r. rewrite H3. tauto.
  - apply (@follows_forEach_close same_promises _ close_same_promises).
Qed.

(** X10 at work: three default notifications, the second already closed by
    its button. *)
Lemma X10_witness :
  let w := run [Fire defaultOptions; Fire (with_animation false defaultOptions);
                Fire defaultOptions; HandleAction 0 "confirm"]
             (initial distinct_draws) in
  let w' := snd (NotificationManager.closeAll w) in
  fst (NotificationManager.closeAll w) = Normal tt
  /\ (forall k r, In (k, r) (notifications w) ->
        exists n', heap w' !! r = Some n' /\ isClosing n' = true)
  /\ (forall k r, In (k, r) (notifications w') <->
        In (k, r) (notifications w) /\ lingers w r = true)
  /\ same_promises w w'.
Proof.
  intros w w'. apply (X10_closeAll_closes_every_registered_instance w).
  - apply registry_wf_run.
  - intros k r Hin. vm_compute in Hin.
    repeat (destruct Hin as [Hin|Hin];
            [inversion Hin; subst; eexists; split; [vm_compute; reflexivity|];
             repeat split; reflexivity|]).
    destruct Hin.
  - intros k r Hin. vm_compute in Hin.
    repeat (destruct Hin as [Hin|Hin];
            [inversion Hin; subst; eexists; split; [vm_compute; reflexivity|];
             reflexivity|]).
    destruct Hin.
Defined.

(** X11. [closeAll] is a [forEach] with nothing caught: when [willClose] of
    the first registered instance raises, the exception leaves [closeAll], the
    instance is flagged closing with its timer still armed, and no other
    instance is visited: the heap changed at that one cell only, and the
    registry and the pending timeouts are as they were. *)
Theorem X11_closeAll_stops_at_a_raising_hook
    (w : World) (k : Id) (r : Ref) (rest : list (Id * Ref)) (n : Notification)
    (e : Value) :
  notifications w = (k, r) :: rest ->
  heap w !! r = Some n -> live n = true ->
  Options.willClose (options n) = Some (Raises e) ->
  NotificationManager.closeAll w
    = (Abrupt (UserValue e),
       upd_log (fun l => l ++ [(r, WillClose)])
         (upd_heap (alter (set_isClosing true) r) w)).
Proof.
  intros En Hn Hl Hh. unfold NotificationManager.closeAll. unfold bind at 1, get.
  rewrite En. cbn [NotificationManager.forEach_close]. unfold bind at 1, get.
  rewrite En. cbn [existsb fst]. rewrite Nat.eqb_refl. cbn [orb].
  unfold bind. now rewrite (close_raises r n e w Hn Hl Hh).
Qed.

(** X11 at work: two notifications, the older one with a raising
    [willClose]. *)
Lemma X11_witness :
  let w := run [Fire (with_willClose (Some (Raises 7)) defaultOptions); Fire defaultOptions]
             (initial distinct_draws) in
  exists n, heap w !! 0 = Some n
    /\ NotificationManager.closeAll w
       = (Abrupt (UserValue 7),
          upd_log (fun l => l ++ [(0, WillClose)])
            (upd_heap (alter (set_isClosing true) 0) w)).
Proof.
  intros w. destruct (heap w !! 0) as [n|] eqn:Hn; [|vm_compute in Hn; discriminate].
  exists n. split; [reflexivity|].
  assert (E : (fun m => (live m, Options.willClose (options m))) <$> heap w !! 0
              = Some (true, Some (Raises 7))) by (vm_compute; reflexivity).
  rewrite Hn in E. simpl in E.
  apply (X11_closeAll_stops_at_a_raising_hook w 0 0 [(1, 1)] n 7).
  - vm_compute. reflexivity.
  - exact Hn.
  - congruence.
  - congruence.
Defined.

(** X12. However the page got there, at most one auto-close timeout is
    pending for an instance, and it is the one whose handle the instance
    holds: [startTimer] runs once, from [open], and neither [update] nor any
    other call arms a second timer. *)
Theorem X12_one_auto_close_timeout_per_instance
    (cs : list Call) (rnd : nat -> Id) (t1 t2 : Timeout) (r : Ref) :
  let w := run_calls cs (initial rnd) in
  In t1 (timeouts w) -> In t2 (timeouts w) ->
  callback t1 = CbClose r -> callback t2 = CbClose r ->
  t1 = t2 /\ timer <$> heap w !! r = Some (Some (handle t1)).
Proof.
  intros w H1 H2 Hc1 Hc2.
  destruct (sound_run_calls cs (initial rnd) (sound_initial rnd))
    as (_ & (_ & _ & Hto) & (Hnd & _) & _). fold w in Hto, Hnd.
  destruct (Hto t1 r H1 Hc1) as (n1 & Hn1 & Ht1 & _).
  destruct (Hto t2 r H2 Hc2) as (n2 & Hn2 & Ht2 & _).
  assert (Eh : handle t2 = handle t1) by congruence.
  split.
  - pose proof (find_handle t1 _ Hnd H1) as F1.
    pose proof (find_handle t2 _ Hnd H2) as F2. rewrite Eh in F2. congruence.
  - rewrite Hn1. simpl. now rewrite Ht1.
Qed.

(** X12 at work: a notification with a timer, updated with another timer. *)
Lemma X12_witness :
  let cs := [Ev (Fire (with_timer (Some 5000) defaultOptions));
             Update 0 (Patch.mk (Some (Some 100)) None None None None None None None None
                         None None None None None None None)] in
  let w := run_calls cs (initial distinct_draws) in
  let t := {| handle := 1; delay := 5000; callback := CbClose 0 |} in
  t = t /\ timer <$> heap w !! 0 = Some (Some 1).
Proof.
  intros cs w t.
  apply (X12_one_auto_close_timeout_per_instance cs distinct_draws t t 0).
  - vm_compute. now left.
  - vm_compute. now left.
  - reflexivity.
  - reflexivity.
Defined.

(** ** The action buttons *)

Lemma handleAction_on_confirm r :
  Notification.handleAction r "confirm" = Notification.confirm r.
Proof. reflexivity. Qed.

Lemma handleAction_on_deny r :
  Notification.handleAction r "deny" = Notification.deny r.
Proof. reflexivity. Qed.

(** X13. [buildActions] renders a button only if its show option is set,
    never more than two, and the value it writes in [data-action] is one
    [handleAction] knows. The click listener reads that attribute off the
    target of the click, not off the button it was put on. So a click whose
    target is the element of the confirm button runs [confirm], and one whose
    target is the element of the cancel button runs [deny]; but a click that
    lands on an element inside the button, from markup in the button's text,
    runs what the [data-action] of that element says: nothing when it has
    none, or one that is neither ['confirm'] nor ['deny']. *)
Theorem X13_every_button_confirms_or_denies
    (o : ButtonOptions.t) (r : Ref) (b : Button.t) :
  In b (NotificationInstance.buildActions o) ->
  length (NotificationInstance.buildActions o) <= 2
  /\ ((ButtonOptions.showConfirmButton o = true
       /\ Button.text b = ButtonOptions.confirmButtonText o
       /\ Button.color b = ButtonOptions.confirmButtonColor o
       /\ forall target, NotificationInstance.button_element b = Some target ->
            NotificationInstance.onButtonClick r target = Notification.confirm r)
      \/ (ButtonOptions.showCancelButton o = true
          /\ Button.text b = ButtonOptions.cancelButtonText o
          /\ Button.color b = ButtonOptions.cancelButtonColor o
          /\ forall target, NotificationInstance.button_element b = Some target ->
               NotificationInstance.onButtonClick r target = Notification.deny r))
  /\ (forall inside w,
        match Element.data_action inside with
        | Some a => a <> "confirm"%string /\ a <> "deny"%string
        | None => True
        end ->
        NotificationInstance.onButtonClick r inside w = (Normal tt, w))
  /\ (has_quote (Button.color b) = false ->
      exists target, NotificationInstance.button_element b = Some target).
Proof.
  intros Hin. split; [|split; [|split]].
  - unfold NotificationInstance.buildActions.
    destruct (ButtonOptions.showCancelButton o), (ButtonOptions.showConfirmButton o),
      (ButtonOptions.reverseButtons o); simpl; lia.
  - assert (Hel : forall a target,
              Button.action b = a -> NotificationInstance.button_element b = Some target ->
              NotificationInstance.onButtonClick r target = Notification.handleAction r a).
    { intros a target Ha. unfold NotificationInstance.button_element.
      destruct (has_quote (Button.color b)); [discriminate|].
      intros E. inversion E. subst. reflexivity. }
    revert Hin. unfold NotificationInstance.buildActions.
    destruct (ButtonOptions.showCancelButton o), (ButtonOptions.showConfirmButton o),
      (ButtonOptions.reverseButtons o); simpl; intros Hin;
      repeat (destruct Hin as [<-|Hin];
              [first [ left; repeat split; intros target Ht;
                       rewrite <- handleAction_on_confirm; now apply Hel
                     | right; repeat split; intros target Ht;
                       rewrite <- handleAction_on_deny; now apply Hel ]|]);
      destruct Hin.
  - intros inside w. unfold NotificationInstance.onButtonClick,
      Element.getAttribute_data_action, NotificationInstance.handleAction,
      Notification.handleAction.
    destruct (Element.data_action inside) as [a|]; [|reflexivity].
    intros [H1 H2]. apply String.eqb_neq in H1, H2. now rewrite H1, H2.
  - intros Hq. unfold NotificationInstance.button_element. rewrite Hq. eauto.
Qed.

(** X13 at work: the two buttons of a question, reversed, the confirm button
    with a text in bold. A click on the cancel button runs [deny]; a click on
    the bold text of the confirm button lands on the [b] element, which has no
    [data-action], and runs nothing. *)
Lemma X13_witness :
  let o := ButtonOptions.mk true true "<b>OK</b>" "Cancel" "#6366f1" "#6b7280" true in
  let b := Button.mk "Cancel" "notification-button notification-button-cancel"
             "#6b7280" "deny" in
  let bold := {| Element.data_action := None |} in
  NotificationInstance.buildActions o
    = [Button.mk "<b>OK</b>" "notification-button notification-button-confirm" "#6366f1"
         "confirm";
       b]
  /\ NotificationInstance.onButtonClick 0 {| Element.data_action := Some "deny"%string |}
     = Notification.deny 0
  /\ forall w, NotificationInstance.onButtonClick 0 bold w = (Normal tt, w).
Proof.
  intros o b bold. split; [reflexivity|].
  assert (Hin : In b (NotificationInstance.buildActions o)) by (simpl; right; now left).
  destruct (X13_every_button_confirms_or_denies o 0 b Hin)
    as (_ & [(_ & E & _)|(_ & _ & _ & H)] & Hins & _).
  - discriminate E.
  - split; [now apply H|]. intros w. now apply (Hins bold w).
Defined.

(** ** The other presets *)

(** [success], [error], [warning], [info] and [question] pass the options of
    the caller to [fire] as they are. *)
Lemma or_else_None {A} (x : option A) : or_else x None = x.
Proof. now destruct x. Qed.

Lemma spread_empty p : spread Patch.empty p = p.
Proof.
  destruct p as [t a d oc ek pc pd h1 h2 h3 h4 h5 h6 b sc hc]. unfold spread. simpl.
  now rewrite !or_else_None.
Qed.

Lemma success_is_fire p : Manager.success p = Manager.fire_object p.
Proof. unfold Manager.success. now rewrite spread_empty. Qed.

(** ** No hook runs twice *)

Lemma alter_last {A} (f : A -> A) (l : list A) (x : A) :
  alter f (length l) (l ++ [x]) = l ++ [f x].
Proof.
  apply list_eq. intros i. destruct (decide (i = length l)) as [->|Hne].
  - rewrite list_lookup_alter_eq, !list_lookup_middle by reflexivity. reflexivity.
  - rewrite list_lookup_alter_ne by congruence.
    destruct (decide (i < length l)) as [Hlt|Hge].
    + now rewrite !lookup_app_l by exact Hlt.
    + rewrite !lookup_ge_None_2; [reflexivity| |]; rewrite length_app; simpl; lia.
Qed.

(** What [close] appends to the log and does to the pending timeouts. *)
Lemma close_log_eq r n w :
  heap w !! r = Some n -> live n = true ->
  log (snd (Notification.close r w)) = log w ++ close_log r (options n)
  /\ timeouts (snd (Notification.close r w))
     = (if quiet (Options.willClose (options n)) then
          match timer n with
          | Some (S h) => remove_handle (S h) (timeouts w)
          | _ => timeouts w
          end
          ++ (if Options.animation (options n) && hides_cleanly n
              then [{| handle := nextHandle w;
                       delay := Options.animationDuration (options n);
                       callback := CbDestroy r |}]
              else [])
        else timeouts w).
Proof.
  intros Hn Hl. rewrite (close_live r n w Hn Hl).
  unfold close_log, destroy_log, hook_line, quiet.
  destruct (Options.animation (options n)) eqn:Ha;
    [destruct (hides_cleanly n) eqn:Hh|];
    destruct (Options.willClose (options n)) as [[|e1]|];
    destruct (Options.didClose (options n)) as [[|e2]|] eqn:E2;
    destruct (Options.didDestroy (options n)) as [[|e3]|] eqn:E3;
    destruct (timer n) as [[|h]|] eqn:Et;
    run_on Hn; rewrite ?Et, ?E2, ?E3; run_on Hn; rewrite ?E2, ?E3; simpl;
    try rewrite (hide_classes_ok n _ Ha Hh);
    try (match goal with
         | |- context [hide_classes n ?w0] =>
             destruct (hide_classes_raises n w0 Hh) as [e0 ->]
         end);
    simpl; rewrite ?app_nil_r, <- ?app_assoc; simpl; split; reflexivity.
Qed.

Lemma destroy_log_eq r n w :
  heap w !! r = Some n ->
  log (snd (Notification.destroy r w)) = log w ++ destroy_log r (options n)
  /\ timeouts (snd (Notification.destroy r w)) = timeouts w.
Proof.
  intros Hn. unfold destroy_log, hook_line, quiet.
  destruct (Options.didClose (options n)) as [[|e2]|] eqn:E2;
    destruct (Options.didDestroy (options n)) as [[|e3]|] eqn:E3;
    run_on Hn; rewrite ?E2, ?E3; simpl;
    rewrite ?app_nil_r, <- ?app_assoc; simpl; split; reflexivity.
Qed.

(** A hook leaves its line in the log, whatever it does, and nothing else. *)
Lemma call_hook_world r name h w :
  let w' := snd (call_hook r name h w) in
  log w' = log w ++ hook_line r name h
  /\ timeouts w' = timeouts w /\ nextHandle w' = nextHandle w /\ heap w' = heap w.
Proof.
  destruct h as [[|e]|]; simpl; rewrite ?app_nil_r; repeat split; reflexivity.
Qed.

(** The world [open] has built when it reaches [didOpen]. *)
Lemma opened_cells r n w :
  heap w !! r = Some n ->
  (timeouts (opened r n w) = timeouts w
   \/ timeouts (opened r n w)
      = timeouts w ++ [{| handle := nextHandle w;
                          delay := default 0 (Options.timer (options n));
                          callback := CbClose r |}])
  /\ exists f, heap (opened r n w) = alter f r (heap w)
               /\ forall m, isClosing (f m) = isClosing m.
Proof.
  intros Hn. unfold opened.
  destruct (truthy (Options.timer (options n))); run_on Hn.
  - split; [right; reflexivity|].
    exists (set_timer (Some (nextHandle w)) ∘ set_isOpen true).
    split; [now rewrite list_alter_alter_eq|reflexivity].
  - split; [left; reflexivity|]. exists (set_isOpen true). split; reflexivity.
Qed.

(** What [open] appends to the log, arms and assigns. *)
Lemma open_log_eq r n w :
  heap w !! r = Some n -> isOpen n = false ->
  let w1 := snd (Notification.open r w) in
  log w1 = log w ++ open_log r n
  /\ (timeouts w1 = timeouts w
      \/ timeouts w1 = timeouts w ++ [{| handle := nextHandle w;
                                         delay := default 0 (Options.timer (options n));
                                         callback := CbClose r |}])
  /\ exists f, heap w1 = alter f r (heap w) /\ forall m, isClosing (f m) = isClosing m.
Proof.
  intros Hn Ho w1. unfold w1, open_log.
  assert (Hid : exists f : Notification -> Notification,
            heap w = alter f r (heap w) /\ forall m, isClosing (f m) = isClosing m).
  { exists (fun m => m). split; [|reflexivity]. symmetry. apply list_alter_id. reflexivity. }
  destruct (quiet (Options.willOpen (options n))) eqn:Hq.
  - destruct (shows_cleanly n) eqn:Hs; cbn [andb].
    + rewrite (open_to_didOpen r n w Hn Ho Hq Hs).
      destruct (opened_facts r n w Hn) as (_ & L & _).
      destruct (opened_cells r n w Hn) as (T & F).
      destruct (call_hook_world r DidOpen (Options.didOpen (options n)) (opened r n w))
        as (L1 & T1 & _ & H1).
      rewrite L1, L, T1, H1, <- app_assoc. auto.
    + destruct (open_raises_at_classes r n w Hn Ho Hq Hs) as [e ->]. simpl.
      rewrite app_nil_r. auto.
  - destruct (Options.willOpen (options n)) as [[|e]|] eqn:Hw; try discriminate.
    rewrite (open_raises r n e w Hn Ho Hw). simpl. auto.
Qed.

(** What [create] appends to the log and assigns. *)
Lemma create_log_eq r n w :
  heap w !! r = Some n ->
  let w1 := snd (Notification.create r w) in
  log w1 = log w ++ hook_line r DidRender (Options.didRender (options n))
  /\ timeouts w1 = timeouts w /\ nextHandle w1 = nextHandle w
  /\ heap w1 = alter (fun _ => rendered n) r (heap w).
Proof.
  intros Hn w1. unfold w1, Notification.create.
  rewrite (bind_normal _ _ _ _ _ (this_some _ _ _ Hn)). unfold rendered.
  destruct (Options.backdrop (options n)).
  - rewrite (bind_normal _ _ _ _ _
               (eq_refl : assign r (set_backdrop true) w
                          = (Normal tt, upd_heap (alter (set_backdrop true) r) w))).
    destruct (call_hook_world r DidRender (Options.didRender (options n))
                (upd_heap (alter (set_backdrop true) r) w)) as (L & T & N & H).
    rewrite L, T, N, H. simpl. repeat split; try reflexivity.
    apply list_eq. intros i. destruct (decide (i = r)) as [->|Hne].
    + now rewrite !list_lookup_alter_eq, Hn.
    + now rewrite !list_lookup_alter_ne by congruence.
  - rewrite (bind_normal _ _ _ _ _ (eq_refl : ret tt w = (Normal tt, w))).
    destruct (call_hook_world r DidRender (Options.didRender (options n)) w)
      as (L & T & N & H).
    rewrite L, T, N, H. repeat split; try reflexivity.
    apply list_eq. intros i. destruct (decide (i = r)) as [->|Hne].
    + now rewrite list_lookup_alter_eq, Hn.
    + now rewrite list_lookup_alter_ne by congruence.
Qed.

(** What the constructor appends to the log, arms and allocates. *)
Lemma constructor_log_eq o w :
  let w1 := snd (Notification.constructor o w) in
  log w1 = log w ++ constructor_log (length (heap w)) o (random w (draws w))
  /\ (timeouts w1 = timeouts w
      \/ timeouts w1 = timeouts w ++ [{| handle := nextHandle w;
                                         delay := default 0 (Options.timer o);
                                         callback := CbClose (length (heap w)) |}])
  /\ exists n', heap w1 = heap w ++ [n'] /\ isClosing n' = false.
Proof.
  intros w1. unfold w1. rewrite constructor_eq.
  set (r := length (heap w)). set (n0 := fresh o (random w (draws w))).
  pose proof (heap_allocated o w) as Hn. fold r n0 in Hn.
  destruct (create_log_eq r n0 _ Hn) as (L1 & T1 & N1 & H1).
  destruct (rendered_fields n0) as (R1 & R2 & R3 & _).
  assert (Ha : heap (allocated o w) = heap w ++ [n0]) by reflexivity.
  rewrite Ha in H1. unfold r in H1. rewrite alter_last in H1. fold r in H1.
  unfold constructor_log. fold n0.
  destruct (Notification.create r (allocated o w)) as [[[]|e] wb] eqn:Ec;
    cbn [snd] in L1, T1, N1, H1.
  - rewrite (bind_normal _ _ _ _ _ Ec).
    assert (Hq : quiet (Options.didRender o) = true).
    { destruct (Options.didRender o) as [[|e]|] eqn:Hd; try reflexivity.
      exfalso. revert Ec. unfold Notification.create.
      rewrite (bind_normal _ _ _ _ _ (this_some _ _ _ Hn)). simpl (options n0).
      rewrite Hd. destruct (Options.backdrop o); discriminate. }
    rewrite Hq.
    assert (Hb : heap wb !! r = Some (rendered n0)).
    { rewrite H1. unfold r. now apply list_lookup_middle. }
    destruct (open_log_eq r (rendered n0) wb Hb R1) as (L2 & T2 & f & H2 & Hf).
    assert (Es : forall m : JS unit, snd ((m >> ret r) wb) = snd (m wb)).
    { intros m. unfold bind. now destruct (m wb) as [[a|e] w']. }
    rewrite Es. rewrite L2, L1. simpl (options n0). rewrite <- app_assoc.
    split; [reflexivity|]. split.
    + rewrite R3 in T2. simpl (options n0) in T2. rewrite T1, N1 in T2. exact T2.
    + exists (f (rendered n0)). rewrite H2, H1. unfold r. rewrite alter_last.
      split; [reflexivity|]. now rewrite Hf, R2.
  - rewrite (bind_abrupt _ _ _ _ _ Ec). cbn [snd].
    assert (Hq : quiet (Options.didRender o) = false).
    { destruct (Options.didRender o) as [[|e']|] eqn:Hd; try reflexivity; exfalso;
        revert Ec; unfold Notification.create;
        rewrite (bind_normal _ _ _ _ _ (this_some _ _ _ Hn)); simpl (options n0);
        rewrite Hd; destruct (Options.backdrop o); discriminate. }
    rewrite Hq, app_nil_r, L1. simpl (options n0).
    split; [reflexivity|]. split; [left; exact T1|].
    exists (rendered n0). split; [exact H1|]. now rewrite R2.
Qed.

(** A step that appends lines [L] to the log and arms at most the [destroy]
    callback [tnew] keeps the hooks in order, under the side conditions that
    [close], [destroy] and the constructor each meet. *)
Lemma hooks_ok_extend (L : list (Ref * HookName)) (tnew : Timeout) (w w' : World) :
  hooks_ok w ->
  log w' = log w ++ L ->
  NoDup L ->
  (forall r0 name, In (r0, name) L ->
     is_Some (heap w' !! r0) /\ ~ In (r0, name) (log w)) ->
  (forall r0, is_Some (heap w !! r0) -> is_Some (heap w' !! r0)) ->
  (forall r0 n', heap w' !! r0 = Some n' -> isClosing n' = false ->
     (heap w !! r0 = None \/ exists n0, heap w !! r0 = Some n0 /\ isClosing n0 = false)
     /\ ~ In (r0, WillClose) L /\ ~ In (r0, DidClose) L /\ ~ In (r0, DidDestroy) L) ->
  (forall t r0, In t (timeouts w') -> callback t = CbDestroy r0 ->
     (In t (timeouts w) /\ ~ In (r0, DidClose) L /\ ~ In (r0, DidDestroy) L)
     \/ (t = tnew /\ is_Some (heap w' !! r0)
         /\ (forall t', In t' (timeouts w) -> callback t' <> CbDestroy r0)
         /\ ~ In (r0, DidClose) (log w ++ L) /\ ~ In (r0, DidDestroy) (log w ++ L)
         /\ (forall n', heap w' !! r0 = Some n' -> isClosing n' = true))) ->
  hooks_ok w'.
Proof.
  intros (L1 & L2 & L3 & L4 & L5 & L6) Hlog HL Hnew Hmono Hcell Hts.
  assert (Hold : forall r0 n' name, heap w' !! r0 = Some n' -> isClosing n' = false ->
            name = WillClose \/ name = DidClose \/ name = DidDestroy ->
            ~ In (r0, name) (log w)).
  { intros r0 n' name Hn' Hc Hname Hin.
    destruct (Hcell r0 n' Hn' Hc) as [[Hnone|(n0 & Hn0 & Hc0)] _].
    - destruct (L2 r0 name Hin) as [x Hx]. congruence.
    - destruct (L4 r0 n0 Hn0 Hc0) as (A & B & C & _).
      destruct Hname as [->|[->| ->]]; contradiction. }
  split; [|split; [|split; [|split; [|split]]]].
  - rewrite Hlog. apply NoDup_app. split; [exact L1|]. split; [|exact HL].
    intros [r0 name] Hin HinL. apply list_elem_of_In in Hin, HinL.
    destruct (Hnew r0 name HinL) as [_ Hnot]. contradiction.
  - intros r0 name Hin. rewrite Hlog in Hin. apply in_app_or in Hin as [Hin|Hin].
    + apply Hmono. exact (L2 r0 name Hin).
    + apply (Hnew r0 name Hin).
  - intros t r0 Hin Hcb. destruct (Hts t r0 Hin Hcb) as [[Hin0 _]|(_ & Hs & _)]; [|exact Hs].
    apply Hmono. exact (L3 t r0 Hin0 Hcb).
  - intros r0 n' Hn' Hc. destruct (Hcell r0 n' Hn' Hc) as (Hwas & A & B & C).
    rewrite Hlog. split; [|split; [|split]].
    + intros Hin. apply in_app_or in Hin as [Hin|Hin]; [|contradiction].
      exact (Hold r0 n' WillClose Hn' Hc (or_introl eq_refl) Hin).
    + intros Hin. apply in_app_or in Hin as [Hin|Hin]; [|contradiction].
      exact (Hold r0 n' DidClose Hn' Hc (or_intror (or_introl eq_refl)) Hin).
    + intros Hin. apply in_app_or in Hin as [Hin|Hin]; [|contradiction].
      exact (Hold r0 n' DidDestroy Hn' Hc (or_intror (or_intror eq_refl)) Hin).
    + intros t Hin Hcb.
      destruct (Hts t r0 Hin Hcb) as [[Hin0 _]|(_ & _ & _ & _ & _ & Hclosing)].
      * destruct Hwas as [Hnone|(n0 & Hn0 & Hc0)].
        -- destruct (L3 t r0 Hin0 Hcb) as [x Hx]. congruence.
        -- destruct (L4 r0 n0 Hn0 Hc0) as (_ & _ & _ & Hno). exact (Hno t Hin0 Hcb).
      * rewrite (Hclosing n' Hn') in Hc. discriminate.
  - intros t r0 Hin Hcb. rewrite Hlog.
    destruct (Hts t r0 Hin Hcb) as [(Hin0 & A & B)|(_ & _ & _ & A & B & _)].
    + destruct (L5 t r0 Hin0 Hcb) as [C D]. split; intros H;
        apply in_app_or in H as [H|H]; contradiction.
    + exact (conj A B).
  - intros t1 t2 r0 H1 H2 Hc1 Hc2.
    destruct (Hts t1 r0 H1 Hc1) as [(Hin1 & _)|(E1 & _ & Hno1 & _)];
      destruct (Hts t2 r0 H2 Hc2) as [(Hin2 & _)|(E2 & _ & Hno2 & _)].
    + exact (L6 t1 t2 r0 Hin1 Hin2 Hc1 Hc2).
    + destruct (Hno2 t1 Hin1 Hc1).
    + destruct (Hno1 t2 Hin2 Hc2).
    + congruence.
Qed.

(** A step that logs nothing, arms nothing and resets no flag. *)
Lemma hooks_ok_transport (w w' : World) :
  log w' = log w ->
  (forall t, In t (timeouts w') -> In t (timeouts w)) ->
  (forall r0, is_Some (heap w !! r0) -> is_Some (heap w' !! r0)) ->
  (forall r0 n', heap w' !! r0 = Some n' -> isClosing n' = false ->
     exists n0, heap w !! r0 = Some n0 /\ isClosing n0 = false) ->
  hooks_ok w -> hooks_ok w'.
Proof.
  intros Hlog Hts Hmono Hcell Hok.
  apply (hooks_ok_extend [] {| handle := 0; delay := 0; callback := CbClose 0 |} w w' Hok).
  - now rewrite app_nil_r.
  - constructor.
  - intros r0 name [].
  - exact Hmono.
  - intros r0 n' Hn' Hc. split; [right; exact (Hcell r0 n' Hn' Hc)|]. simpl. tauto.
  - intros t r0 Hin _. left. split; [exact (Hts t Hin)|]. simpl. tauto.
Qed.

Lemma hooks_ok_alter f r w :
  (forall n, isClosing (f n) = isClosing n) ->
  keeps hooks_ok w (upd_heap (alter f r) w).
Proof.
  intros Hf. unfold keeps. apply hooks_ok_transport; simpl; auto.
  - intros r0 [n Hn]. destruct (decide (r0 = r)) as [->|Hne].
    + exists (f n). now rewrite list_lookup_alter_eq, Hn.
    + exists n. now rewrite list_lookup_alter_ne by congruence.
  - intros r0 n' Hn' Hc. destruct (decide (r0 = r)) as [->|Hne].
    + rewrite list_lookup_alter_eq in Hn'.
      destruct (heap w !! r) as [n|]; [|discriminate]. simpl in Hn'.
      inversion Hn'; subst. rewrite Hf in Hc. eauto.
    + rewrite list_lookup_alter_ne in Hn' by congruence. eauto.
Qed.

Lemma hooks_ok_clearTimeout h : follows (keeps hooks_ok) (clearTimeout h).
Proof.
  intros w. unfold keeps. apply hooks_ok_transport; simpl; eauto.
  intros t Hin. now apply In_remove_handle in Hin as [Hin _].
Qed.

Ltac distinct_lines :=
  repeat (apply NoDup_cons_2;
          [rewrite ?elem_of_cons, ?elem_of_nil; intuition congruence|]);
  apply NoDup_nil_2.

Lemma close_log_lines r o x :
  In x (close_log r o) -> x = (r, WillClose) \/ x = (r, DidClose) \/ x = (r, DidDestroy).
Proof.
  unfold close_log, destroy_log, hook_line, quiet.
  destruct (Options.willClose o) as [[|e1]|], (Options.animation o),
    (Options.didClose o) as [[|e2]|], (Options.didDestroy o) as [[|e3]|];
    simpl; intuition.
Qed.

Lemma close_log_NoDup r o : NoDup (close_log r o).
Proof.
  unfold close_log, destroy_log, hook_line, quiet.
  destruct (Options.willClose o) as [[|e1]|], (Options.animation o),
    (Options.didClose o) as [[|e2]|], (Options.didDestroy o) as [[|e3]|];
    simpl; distinct_lines.
Qed.

Lemma close_log_animated r o x :
  Options.animation o = true -> In x (close_log r o) -> x = (r, WillClose).
Proof.
  intros Ha. unfold close_log, hook_line, quiet. rewrite Ha.
  destruct (Options.willClose o) as [[|e1]|]; simpl; intuition.
Qed.

Lemma destroy_log_lines r o x :
  In x (destroy_log r o) -> x = (r, DidClose) \/ x = (r, DidDestroy).
Proof.
  unfold destroy_log, hook_line, quiet.
  destruct (Options.didClose o) as [[|e2]|], (Options.didDestroy o) as [[|e3]|];
    simpl; intuition.
Qed.

Lemma destroy_log_NoDup r o : NoDup (destroy_log r o).
Proof.
  unfold destroy_log, hook_line, quiet.
  destruct (Options.didClose o) as [[|e2]|], (Options.didDestroy o) as [[|e3]|];
    simpl; distinct_lines.
Qed.

Lemma constructor_log_lines r o i x :
  In x (constructor_log r o i) ->
  x = (r, DidRender) \/ x = (r, WillOpen) \/ x = (r, DidOpen).
Proof.
  unfold constructor_log, open_log, hook_line, quiet.
  destruct (rendered_fields (fresh o i)) as (_ & _ & -> & _).
  destruct (shows_cleanly (rendered (fresh o i))). all: simpl.
  all: destruct (Options.didRender o) as [[|e1]|], (Options.willOpen o) as [[|e2]|],
    (Options.didOpen o) as [[|e3]|]; simpl; intuition.
Qed.

Lemma constructor_log_NoDup r o i : NoDup (constructor_log r o i).
Proof.
  unfold constructor_log, open_log, hook_line, quiet.
  destruct (rendered_fields (fresh o i)) as (_ & _ & -> & _).
  destruct (shows_cleanly (rendered (fresh o i))). all: simpl.
  all: destruct (Options.didRender o) as [[|e1]|], (Options.willOpen o) as [[|e2]|],
    (Options.didOpen o) as [[|e3]|]; simpl; distinct_lines.
Qed.

Lemma close_absent r w : heap w !! r = None -> snd (Notification.close r w) = w.
Proof. intros Hn. unfold Notification.close, bind, this. now rewrite Hn. Qed.

Lemma hooks_ok_close r : follows (keeps hooks_ok) (Notification.close r).
Proof.
  intros w Hok. destruct (heap w !! r) as [n|] eqn:Hn; [|now rewrite close_absent].
  destruct (live n) eqn:Hl.
  2:{ rewrite (close_noop r n w Hn); [exact Hok|]. unfold live in Hl.
      destruct (isOpen n), (isClosing n); auto; discriminate. }
  pose proof Hl as Hl'. apply andb_true_iff in Hl' as [Ho Hc]. apply negb_true_iff in Hc.
  destruct (close_log_eq r n w Hn Hl) as [Hlog Hts].
  pose proof (close_frame r w) as Hfr.
  destruct (close_sets_isClosing r n w Hn Ho) as (n1 & Hn1 & Hc1).
  pose proof Hok as (_ & _ & _ & L4 & _). destruct (L4 r n Hn Hc) as (A & B & C & Hno).
  set (w' := snd (Notification.close r w)) in *.
  set (tnew := {| handle := nextHandle w; delay := Options.animationDuration (options n);
                  callback := CbDestroy r |}) in *.
  assert (Hline : forall r0 name, In (r0, name) (close_log r (options n)) ->
            r0 = r /\ (name = WillClose \/ name = DidClose \/ name = DidDestroy)).
  { intros r0 name Hin. apply close_log_lines in Hin.
    destruct Hin as [E|[E|E]]; inversion E; auto. }
  apply (hooks_ok_extend (close_log r (options n)) tnew w w' Hok Hlog).
  - apply close_log_NoDup.
  - intros r0 name Hin. destruct (Hline r0 name Hin) as [-> Hname].
    split; [now exists n1|]. destruct Hname as [->|[->| ->]]; assumption.
  - intros r0 Hs. destruct (decide (r0 = r)) as [->|Hne]; [now exists n1|].
    now rewrite (Hfr r0 Hne).
  - intros r0 n' Hn' Hc'.
    assert (Hne : r0 <> r) by (intros ->; congruence).
    rewrite (Hfr r0 Hne) in Hn'. split; [right; eauto|].
    repeat split; intros Hin; apply Hline in Hin as [? _]; contradiction.
  - intros t r0 Hin Hcb.
    assert (Hold : In t (timeouts w) ->
              In t (timeouts w) /\ ~ In (r0, DidClose) (close_log r (options n))
              /\ ~ In (r0, DidDestroy) (close_log r (options n))).
    { intros Hin0. split; [exact Hin0|].
      split; intros HinL; apply Hline in HinL as [-> _]; exact (Hno t Hin0 Hcb). }
    rewrite Hts in Hin. destruct (quiet (Options.willClose (options n))); [|left; auto].
    apply in_app_or in Hin as [Hin|Hin].
    + left. apply Hold. destruct (timer n) as [[|h]|]; try exact Hin.
      now apply In_remove_handle in Hin as [Hin _].
    + destruct (Options.animation (options n)) eqn:Ha; [|destruct Hin].
      destruct (hides_cleanly n); [|destruct Hin].
      destruct Hin as [<-|[]]. simpl in Hcb. inversion Hcb; subst r0. right.
      split; [reflexivity|]. split; [now exists n1|]. split; [exact Hno|].
      split; [|split].
      * intros H. apply in_app_or in H as [H|H]; [contradiction|].
        apply (close_log_animated r _ _ Ha) in H. discriminate.
      * intros H. apply in_app_or in H as [H|H]; [contradiction|].
        apply (close_log_animated r _ _ Ha) in H. discriminate.
      * intros n' Hn'. congruence.
Qed.

Lemma hooks_ok_fire_timeout h : follows (keeps hooks_ok) (fire_timeout h).
Proof.
  intros w Hok. unfold fire_timeout. unfold bind at 1, get.
  destruct (List.find (fun t => handle t =? h) (timeouts w)) as [t|] eqn:Ef; [|exact Hok].
  apply find_some in Ef as [Hin Hh]. apply Nat.eqb_eq in Hh.
  pose proof (hooks_ok_clearTimeout h w Hok) as Hok0.
  unfold bind, clearTimeout, modify in *. cbn [snd] in Hok0.
  set (w0 := upd_timeouts (remove_handle h) w) in *.
  unfold run_callback. destruct (callback t) as [r|r] eqn:Hcb; [now apply hooks_ok_close|].
  pose proof Hok as (_ & _ & L3 & L4 & L5 & L6).
  destruct (L3 t r Hin Hcb) as [n Hn].
  assert (Hn0 : heap w0 !! r = Some n) by exact Hn.
  destruct (destroy_log_eq r n w0 Hn0) as [Hlog Hts].
  pose proof (destroy_heap r w0) as Hheap.
  destruct (L5 t r Hin Hcb) as [A B].
  set (w' := snd (Notification.destroy r w0)) in *.
  assert (Hline : forall r0 name, In (r0, name) (destroy_log r (options n)) ->
            r0 = r /\ (name = DidClose \/ name = DidDestroy)).
  { intros r0 name Hi. apply destroy_log_lines in Hi.
    destruct Hi as [E|E]; inversion E; auto. }
  assert (Hclosing : isClosing n = true).
  { destruct (isClosing n) eqn:Hc; [reflexivity|].
    destruct (L4 r n Hn Hc) as (_ & _ & _ & Hno). destruct (Hno t Hin Hcb). }
  apply (hooks_ok_extend (destroy_log r (options n)) t w0 w' Hok0 Hlog).
  - apply destroy_log_NoDup.
  - intros r0 name Hi. destruct (Hline r0 name Hi) as [-> Hname].
    split; [rewrite Hheap; now exists n|]. destruct Hname as [->| ->]; assumption.
  - intros r0 Hs. now rewrite Hheap.
  - intros r0 n' Hn' Hc'. rewrite Hheap in Hn'. split; [right; eauto|].
    assert (Hne : r0 <> r) by (intros ->; congruence).
    repeat split; intros Hi; apply Hline in Hi as [? _]; contradiction.
  - intros t' r0 Hin' Hcb'. rewrite Hts in Hin'. left. split; [exact Hin'|].
    assert (Hne : r0 <> r).
    { intros ->. simpl in Hin'. apply In_remove_handle in Hin' as [Hin' Hh'].
      apply Hh'. rewrite <- Hh. f_equal. exact (L6 t' t r Hin' Hin Hcb' Hcb). }
    split; intros Hi; apply Hline in Hi as [? _]; contradiction.
Qed.

Lemma hooks_ok_constructor o : follows (keeps hooks_ok) (Notification.constructor o).
Proof.
  intros w Hok. destruct (constructor_log_eq o w) as (Hlog & Hts & n' & Hheap & Hc).
  set (w1 := snd (Notification.constructor o w)) in *.
  set (r := length (heap w)) in *.
  pose proof Hok as (_ & L2 & _).
  set (i := random w (draws w)) in *.
  assert (Hline : forall r0 name, In (r0, name) (constructor_log r o i) ->
            r0 = r /\ (name = DidRender \/ name = WillOpen \/ name = DidOpen)).
  { intros r0 name Hi. apply constructor_log_lines in Hi.
    destruct Hi as [E|[E|E]]; inversion E; auto. }
  apply (hooks_ok_extend (constructor_log r o i)
           {| handle := 0; delay := 0; callback := CbClose 0 |} w w1 Hok Hlog).
  - apply constructor_log_NoDup.
  - intros r0 name Hi. destruct (Hline r0 name Hi) as [-> _]. split.
    + rewrite Hheap. exists n'. now apply list_lookup_middle.
    + intros Hin. destruct (L2 r name Hin) as [x Hx]. apply lookup_lt_Some in Hx.
      unfold r in Hx. lia.
  - intros r0 [x Hx]. rewrite Hheap. exists x. now apply lookup_app_l_Some.
  - intros r0 n0 Hn0 Hc0. split.
    + rewrite Hheap in Hn0. destruct (decide (r0 < length (heap w))) as [Hlt|Hge].
      * rewrite lookup_app_l in Hn0 by exact Hlt. right. eauto.
      * left. apply lookup_ge_None_2. lia.
    + repeat split; intros Hi; apply Hline in Hi as [_ [?|[?|?]]]; discriminate.
  - intros t r0 Hin Hcb. left.
    assert (Hin0 : In t (timeouts w)).
    { destruct Hts as [Hts|Hts]; rewrite Hts in Hin; [exact Hin|].
      apply in_app_or in Hin as [Hin|[<-|[]]]; [exact Hin|discriminate]. }
    split; [exact Hin0|].
    split; intros Hi; apply Hline in Hi as [_ [?|[?|?]]]; discriminate.
Qed.

Lemma hooks_ok_fire o : follows (keeps hooks_ok) (NotificationManager.fire o).
Proof.
  unfold NotificationManager.fire. follow; try not_seen.
  - apply hooks_ok_constructor.
  - apply hooks_ok_close.
Qed.

(** The page's calls, for a relation known to hold across [fire], [close]
    and a timeout that fires. *)
Section Loop_with_timeout.
Context {R : World -> World -> Prop} `{!PreOrder R}.
Hypothesis R_queue : forall f w, R w (upd_queue f w).
Hypothesis R_isProcessing : forall b w, R w (upd_isProcessing b w).
Hypothesis R_deferreds : forall f w, R w (upd_deferreds f w).
Hypothesis R_microtasks : forall f w, R w (upd_microtasks f w).
Hypothesis R_fire : forall o, follows R (NotificationManager.fire o).
Hypothesis R_close : forall r, follows R (Notification.close r).
Hypothesis R_fire_timeout : forall h, follows R (fire_timeout h).
Hypothesis R_promise : forall p r w, R w (upd_heap (alter (set_promise p) r) w).
Hypothesis R_options : forall o r w, R w (upd_heap (alter (set_options o) r) w).

Lemma follows_call_of_the_page c : follows R (call_handler c).
Proof.
  assert (R_resolve : forall r a v, follows R (resolve r (Notification.outcome a v))).
  { intros r a v. unfold resolve, assign. follow; try apply R_promise. apply R_microtasks. }
  assert (R_reject : forall r e, follows R (reject r e)).
  { intros r e. unfold reject, assign. follow. apply R_promise. }
  assert (R_then : forall r f, follows R (then_ r f)).
  { intros r f. unfold then_, assign. follow; try apply R_promise. apply R_microtasks. }
  assert (R_processQueue : follows R NotificationManager.processQueue).
  { unfold NotificationManager.processQueue. follow;
      try apply R_isProcessing; try apply R_queue; apply R_fire. }
  destruct c as [e|k p]; simpl.
  - destruct e; unfold handler, AYdocsNotifications.fire, AYdocsNotifications.queue,
      AYdocsNotifications.closeAll, NotificationManager.queue,
      settle, run_microtask, NotificationManager.run_reaction.
    all: follow.
    all: try apply R_queue; try apply R_deferreds; try apply R_microtasks;
      try apply R_isProcessing.
    all: first [ apply follows_closeAll; assumption
               | apply follows_handleAction; assumption
               | apply follows_onKeydown; assumption
               | apply follows_onClick; assumption
               | apply follows_on_settled; assumption ].
  - apply follows_call_method. unfold Manager.update, NotificationInstance.update, assign. follow.
    apply R_options.
Qed.
End Loop_with_timeout.

Lemma hooks_ok_call c : follows (keeps hooks_ok) (call_handler c).
Proof.
  apply follows_call_of_the_page; try not_seen.
  - apply hooks_ok_fire.
  - apply hooks_ok_close.
  - apply hooks_ok_fire_timeout.
  - intros p r w. now apply hooks_ok_alter.
  - intros o r w. now apply hooks_ok_alter.
Qed.

Lemma hooks_ok_initial rnd : hooks_ok (initial rnd).
Proof.
  split; [apply NoDup_nil_2|]. split; [intros r name []|]. split; [intros t r []|].
  split; [|split; [intros t r []|intros t1 t2 r []]].
  intros r n Hn. simpl in Hn. rewrite lookup_nil in Hn. discriminate.
Qed.

Lemma hooks_ok_run_calls cs w : hooks_ok w -> hooks_ok (run_calls cs w).
Proof.
  revert w. induction cs as [|c cs IH]; intros w Hok; simpl; [exact Hok|].
  apply IH. now apply hooks_ok_call.
Qed.

(** X18. No hook runs twice for the same notification. Whatever the page
    calls, with hooks that return or raise, every entry of the log of hook
    calls (the instance and the name of the hook) occurs once: [didRender],
    [willOpen] and [didOpen] are called by the constructor only, [willClose]
    behind the [isClosing] guard, and [didClose] and [didDestroy] by the one
    [destroy] that [close] runs or schedules. *)
Theorem X18_no_hook_runs_twice (cs : list Call) (rnd : nat -> Id) :
  NoDup (log (run_calls cs (initial rnd))).
Proof. apply (hooks_ok_run_calls cs (initial rnd) (hooks_ok_initial rnd)). Qed.

(** * The toasts: proofs *)

Section Toast_facts.
Import Toasts.

Lemma toast_close_eq r n w :
  heap w !! r = Some n ->
  let w1 := match timer n with
            | Some (S h) =>
                upd_heap (alter (set_timer None) r) (upd_timeouts (remove_handle (S h)) w)
            | _ => w
            end in
  Toast.close r w
  = (Some tt,
     upd_nextHandle (S (nextHandle w))
       (upd_timeouts
          (fun ts => ts ++ [{| handle := nextHandle w; delay := 300;
                               callback := CbDestroy r |}]) w1)).
Proof.
  intros Hn. unfold Toast.close, bind, this. rewrite Hn.
  destruct (timer n) as [[|h]|]; reflexivity.
Qed.

Lemma toast_destroy_eq r n w :
  heap w !! r = Some n ->
  Toast.destroy r w = (Some tt, upd_toasts (Map_delete (id n)) w).
Proof. intros Hn. unfold Toast.destroy, bind, this. now rewrite Hn. Qed.

Lemma toast_wf_clearTimeout h w : wf w -> wf (upd_timeouts (remove_handle h) w).
Proof.
  intros (W1 & W2 & W3 & W4 & W5 & W6 & W7 & W8).
  repeat split; simpl; auto.
  - now apply NoDup_handles_filter.
  - intros t Hin. apply In_remove_handle in Hin as [Hin _]. auto.
  - now apply (W6 r n h0).
  - now apply (W6 r n h0).
  - intros t Hin. apply In_remove_handle in Hin as [Hin _]. now apply (W6 r n h0).
  - intros t r Hin. apply In_remove_handle in Hin as [Hin _]. now apply W7.
  - intros t r Hin. apply In_remove_handle in Hin as [Hin _]. now apply W8.
Qed.

(** [close] forgets the handle of the auto-close callback it has cancelled. *)
Lemma toast_wf_clearTimer r n h w :
  wf w -> heap w !! r = Some n -> timer n = Some h ->
  wf (upd_heap (alter (set_timer None) r) (upd_timeouts (remove_handle h) w)).
Proof.
  intros (W1 & W2 & W3 & W4 & W5 & W6 & W7 & W8) Hn Ht.
  split; [exact W1|]. split; [|split; [|split; [exact W4|split; [|split; [|split]]]]]; simpl.
  - intros k r0 Hin. destruct (W2 k r0 Hin) as (n0 & Hn0 & Hid).
    destruct (decide (r0 = r)) as [->|Hne].
    + exists (set_timer None n0). now rewrite list_lookup_alter_eq, Hn0.
    + exists n0. now rewrite list_lookup_alter_ne by congruence.
  - now apply NoDup_handles_filter.
  - intros t Hin. apply In_remove_handle in Hin as [Hin _]. auto.
  - intros r0 n0 h0 Hn0 Ht0. destruct (decide (r0 = r)) as [->|Hne].
    + rewrite list_lookup_alter_eq, Hn in Hn0. inversion Hn0; subst. discriminate.
    + rewrite list_lookup_alter_ne in Hn0 by congruence.
      destruct (W6 r0 n0 h0 Hn0 Ht0) as [Hh Hcb]. split; [exact Hh|].
      intros t Hin. apply In_remove_handle in Hin as [Hin _]. auto.
  - intros t r0 Hin Hcb. apply In_remove_handle in Hin as [Hin Hh].
    destruct (W7 t r0 Hin Hcb) as (n0 & Hn0 & Ht0).
    destruct (decide (r0 = r)) as [->|Hne].
    + rewrite Hn in Hn0. inversion Hn0; subst. congruence.
    + exists n0. now rewrite list_lookup_alter_ne by congruence.
  - intros t r0 Hin Hcb. apply In_remove_handle in Hin as [Hin _].
    destruct (W8 t r0 Hin Hcb) as (n0 & Hn0).
    destruct (decide (r0 = r)) as [->|Hne].
    + exists (set_timer None n0). now rewrite list_lookup_alter_eq, Hn0.
    + exists n0. now rewrite list_lookup_alter_ne by congruence.
Qed.

Lemma toast_wf_setTimeout_destroy r n w :
  wf w -> heap w !! r = Some n ->
  wf (upd_nextHandle (S (nextHandle w))
        (upd_timeouts
           (fun ts => ts ++ [{| handle := nextHandle w; delay := 300;
                                callback := CbDestroy r |}]) w)).
Proof.
  intros (W1 & W2 & W3 & W4 & W5 & W6 & W7 & W8) Hn.
  split; [exact W1|]. split; [exact W2|].
  split; [|split; [|split; [|split; [|split]]]]; simpl.
  - rewrite map_app. simpl. apply NoDup_app. split; [exact W3|]. split.
    + intros h Hin Hh. apply list_elem_of_In in Hin. apply in_map_iff in Hin.
      destruct Hin as (t & E & Hin). apply W5 in Hin.
      apply list_elem_of_In in Hh. destruct Hh as [Hh|[]]. lia.
    + apply NoDup_singleton.
  - lia.
  - intros t Hin. apply in_app_or in Hin as [Hin|[<-|[]]].
    + apply W5 in Hin. lia.
    + simpl. lia.
  - intros r0 n0 h0 Hn0 Ht0. destruct (W6 r0 n0 h0 Hn0 Ht0) as [Hh Hcb].
    split; [lia|]. intros t Hin Eh. apply in_app_or in Hin as [Hin|[<-|[]]]; [auto|].
    simpl in Eh. lia.
  - intros t r0 Hin Hcb. apply in_app_or in Hin as [Hin|[<-|[]]]; [auto|discriminate].
  - intros t r0 Hin Hcb. apply in_app_or in Hin as [Hin|[<-|[]]]; [eauto|].
    simpl in Hcb. inversion Hcb; subst. eauto.
Qed.

Lemma toast_wf_close r n w :
  wf w -> heap w !! r = Some n -> wf (snd (Toast.close r w)).
Proof.
  intros Hwf Hn. rewrite (toast_close_eq r n w Hn). cbn [snd].
  destruct (timer n) as [[|h]|] eqn:Ht.
  - now apply (toast_wf_setTimeout_destroy r n).
  - pose proof (toast_wf_clearTimer r n (S h) w Hwf Hn Ht) as Hwf1.
    set (w1 := upd_heap (alter (set_timer None) r)
                 (upd_timeouts (remove_handle (S h)) w)) in *.
    apply (toast_wf_setTimeout_destroy r (set_timer None n) w1 Hwf1).
    unfold w1. simpl. now rewrite list_lookup_alter_eq, Hn.
  - now apply (toast_wf_setTimeout_destroy r n).
Qed.

Lemma toast_wf_delete k w : wf w -> wf (upd_toasts (Map_delete k) w).
Proof.
  intros (W1 & W2 & W3 & W4 & W5 & W6 & W7 & W8).
  split; [now apply Map_delete_keys_NoDup|]. split; [|exact (conj W3 (conj W4 (conj W5 (conj W6 (conj W7 W8)))))].
  intros k0 r0 Hin. apply Map_delete_In in Hin. auto.
Qed.

Lemma toast_wf_set r n w :
  wf w -> heap w !! r = Some n -> wf (upd_toasts (Map_set (id n) r) w).
Proof.
  intros (W1 & W2 & W3 & W4 & W5 & W6 & W7 & W8) Hn.
  split; [now apply Map_set_keys_NoDup|]. split; [|exact (conj W3 (conj W4 (conj W5 (conj W6 (conj W7 W8)))))].
  intros k0 r0 Hin. simpl in Hin.
  apply Map_set_In in Hin as [[-> ->]|[Hin _]]; [eauto|auto|exact W1].
Qed.

Lemma toast_wf_alloc n w : timer n = None -> wf w -> wf (upd_heap (fun h => h ++ [n]) w).
Proof.
  intros Ht (W1 & W2 & W3 & W4 & W5 & W6 & W7 & W8).
  split; [exact W1|]. split; [|split; [exact W3|split; [exact W4|split; [exact W5|]]]];
    [|split; [|split]]; simpl.
  - intros k r Hin. destruct (W2 k r Hin) as (n0 & Hn0 & Hid).
    exists n0. split; [now apply lookup_app_l_Some|exact Hid].
  - intros r0 n0 h0 Hn0 Ht0. apply lookup_app_Some in Hn0 as [Hn0|[_ Hn0]].
    + exact (W6 r0 n0 h0 Hn0 Ht0).
    + destruct (r0 - length (heap w)) as [|k]; simpl in Hn0; [|discriminate].
      inversion Hn0; subst. congruence.
  - intros t r Hin Hcb. destruct (W7 t r Hin Hcb) as (n0 & Hn0 & Ht0).
    exists n0. split; [now apply lookup_app_l_Some|exact Ht0].
  - intros t r Hin Hcb. destruct (W8 t r Hin Hcb) as (n0 & Hn0).
    exists n0. now apply lookup_app_l_Some.
Qed.

(** [show] on a toast that holds no handle. *)
Lemma toast_wf_arm r n d w :
  wf w -> heap w !! r = Some n -> timer n = None ->
  wf (upd_heap (alter (set_timer (Some (nextHandle w))) r)
        (upd_nextHandle (S (nextHandle w))
           (upd_timeouts
              (fun ts => ts ++ [{| handle := nextHandle w; delay := d;
                                   callback := CbClose r |}]) w))).
Proof.
  intros (W1 & W2 & W3 & W4 & W5 & W6 & W7 & W8) Hn Ht.
  split; [exact W1|]. split; [|split; [|split; [|split; [|split; [|split]]]]]; simpl.
  - intros k r0 Hin. destruct (W2 k r0 Hin) as (n0 & Hn0 & Hid).
    destruct (decide (r0 = r)) as [->|Hne].
    + eexists. rewrite list_lookup_alter_eq, Hn0. simpl. split; [reflexivity|exact Hid].
    + exists n0. now rewrite list_lookup_alter_ne by congruence.
  - rewrite map_app. simpl. apply NoDup_app. split; [exact W3|]. split.
    + intros h Hin Hh. apply list_elem_of_In in Hin. apply in_map_iff in Hin.
      destruct Hin as (t & E & Hin). apply W5 in Hin.
      apply list_elem_of_In in Hh. destruct Hh as [Hh|[]]. lia.
    + apply NoDup_singleton.
  - lia.
  - intros t Hin. apply in_app_or in Hin as [Hin|[<-|[]]].
    + apply W5 in Hin. lia.
    + simpl. lia.
  - intros r0 n0 h0 Hn0 Ht0. destruct (decide (r0 = r)) as [->|Hne].
    + rewrite list_lookup_alter_eq, Hn in Hn0. inversion Hn0; subst. simpl in Ht0.
      inversion Ht0; subst. split; [lia|].
      intros t Hin Eh. apply in_app_or in Hin as [Hin|[<-|[]]]; [|reflexivity].
      apply W5 in Hin. lia.
    + rewrite list_lookup_alter_ne in Hn0 by congruence.
      destruct (W6 r0 n0 h0 Hn0 Ht0) as [Hh Hcb]. split; [lia|].
      intros t Hin Eh. apply in_app_or in Hin as [Hin|[<-|[]]]; [auto|].
      simpl in Eh. lia.
  - intros t r0 Hin Hcb. apply in_app_or in Hin as [Hin|[<-|[]]].
    + destruct (W7 t r0 Hin Hcb) as (n0 & Hn0 & Ht0).
      assert (Hne : r0 <> r) by (intros ->; congruence).
      exists n0. now rewrite list_lookup_alter_ne by congruence.
    + simpl in Hcb. inversion Hcb; subst. eexists.
      rewrite list_lookup_alter_eq, Hn. simpl. split; reflexivity.
  - intros t r0 Hin Hcb. apply in_app_or in Hin as [Hin|[<-|[]]]; [|discriminate].
    destruct (W8 t r0 Hin Hcb) as (n0 & Hn0).
    destruct (decide (r0 = r)) as [->|Hne].
    + eexists. now rewrite list_lookup_alter_eq, Hn0.
    + exists n0. now rewrite list_lookup_alter_ne by congruence.
Qed.

(** The constructor: the new toast is the last cell of the heap, carries the
    drawn id, and holds the handle of its auto-close callback if its duration
    is positive. *)
Lemma toast_constructor_eq o w :
  let r := length (heap w) in
  let n := {| duration := default 3000 o; id := random w (draws w); timer := None |} in
  let w0 := upd_heap (fun h => h ++ [n]) (upd_draws (S (draws w)) w) in
  Toast.constructor o w
  = (Some r,
     if 0 <? default 3000 o then
       upd_heap (alter (set_timer (Some (nextHandle w))) r)
         (upd_nextHandle (S (nextHandle w))
            (upd_timeouts
               (fun ts => ts ++ [{| handle := nextHandle w; delay := default 3000 o;
                                    callback := CbClose r |}]) w0))
     else w0).
Proof.
  intros r n w0. unfold Toast.constructor, Toast.generateId, alloc, Toast.show.
  unfold bind at 1. unfold bind at 1. cbn [heap upd_draws].
  unfold bind at 1. unfold bind at 1, this. cbn [heap upd_heap upd_draws].
  rewrite list_lookup_middle by reflexivity. cbn [duration].
  destruct (0 <? default 3000 o); reflexivity.
Qed.

Lemma toast_wf_constructor o w : wf w -> wf (snd (Toast.constructor o w)).
Proof.
  intros Hwf. rewrite toast_constructor_eq. cbn [snd].
  set (n := {| duration := default 3000 o; id := random w (draws w); timer := None |}).
  assert (Hwf0 : wf (upd_heap (fun h => h ++ [n]) (upd_draws (S (draws w)) w))).
  { apply toast_wf_alloc; [reflexivity|exact Hwf]. }
  destruct (0 <? default 3000 o); [|exact Hwf0].
  apply (toast_wf_arm (length (heap w)) n (default 3000 o) _ Hwf0); [|reflexivity].
  simpl. now apply list_lookup_middle.
Qed.

Lemma toast_constructor_cell o w :
  exists n, heap (snd (Toast.constructor o w)) !! length (heap w) = Some n
    /\ id n = random w (draws w)
    /\ toasts (snd (Toast.constructor o w)) = toasts w
    /\ maxToasts (snd (Toast.constructor o w)) = maxToasts w.
Proof.
  rewrite toast_constructor_eq. cbn [snd].
  destruct (0 <? default 3000 o); simpl.
  - eexists. rewrite list_lookup_alter_eq, list_lookup_middle by reflexivity.
    simpl. repeat split.
  - eexists. rewrite list_lookup_middle by reflexivity. repeat split.
Qed.

(** X14. [ToastManager.show] never raises and never takes an entry out of the
    map: the new toast is filed under its id, on top, and the call ends with
    one entry more than before, also beyond [maxToasts]. Over the bound the
    oldest toast is only told to close, which defers its removal to a
    timeout; so [maxToasts] bounds nothing at the end of the call. *)
Theorem X14_toast_show_registers_and_removes_nothing
    (o : option nat) (w : Toasts.World) :
  Toasts.wf w ->
  ~ In (Toasts.random w (Toasts.draws w)) (map fst (Toasts.toasts w)) ->
  let w' := snd (Toasts.ToastManager.show o w) in
  fst (Toasts.ToastManager.show o w) = Some (length (Toasts.heap w))
  /\ Toasts.toasts w'
     = Toasts.toasts w ++ [(Toasts.random w (Toasts.draws w), length (Toasts.heap w))]
  /\ length (Toasts.toasts w') = S (length (Toasts.toasts w))
  /\ Toasts.wf w'.
Proof.
  intros Hwf Hfresh w'.
  assert (H : fst (ToastManager.show o w) = Some (length (heap w))
              /\ toasts w' = toasts w ++ [(random w (draws w), length (heap w))]
              /\ wf w').
  { unfold w'. clear w'.
    destruct (ToastManager.show o w) as [c w'] eqn:E. cbn [fst snd].
    revert E. unfold ToastManager.show.
    pose proof (toast_wf_constructor o w Hwf) as Hwf1.
    destruct (toast_constructor_cell o w) as (n & Hn & Hid & Hts & Hmax).
    assert (Ec : Toast.constructor o w
                 = (Some (length (heap w)), snd (Toast.constructor o w)))
      by (now rewrite toast_constructor_eq).
    set (w1 := snd (Toast.constructor o w)) in *.
    unfold bind at 1. rewrite Ec.
    unfold bind at 1, this. rewrite Hn.
    unfold bind at 1, modify. unfold bind at 1, get.
    pose proof (toast_wf_set _ n w1 Hwf1 Hn) as Hwf2.
    set (w2 := upd_toasts (Map_set (id n) (length (heap w))) w1) in *.
    assert (En2 : toasts w2 = toasts w ++ [(random w (draws w), length (heap w))]).
    { unfold w2. simpl. rewrite Hts, Hid. now apply Map_set_fresh. }
    assert (Hclose : forall r0 n0, heap w2 !! r0 = Some n0 ->
              bind (Toast.close r0) (fun _ => ret (length (heap w))) w2 = (c, w') ->
              c = Some (length (heap w))
              /\ toasts w' = toasts w ++ [(random w (draws w), length (heap w))]
              /\ wf w').
    { intros r0 n0 Hn0. unfold bind.
      pose proof (toast_wf_close r0 n0 w2 Hwf2 Hn0) as Hwf3.
      rewrite (toast_close_eq r0 n0 w2 Hn0) in *. cbn [snd] in Hwf3.
      intros E. inversion E; subst c w'. split; [reflexivity|]. split; [|exact Hwf3].
      destruct (timer n0) as [[|h]|]; exact En2. }
    destruct (maxToasts w2 <? length (toasts w2)).
    - destruct (Map_values (toasts w2)) as [|r0 rs] eqn:Ev.
      + rewrite En2 in Ev. unfold Map_values in Ev. rewrite map_app in Ev.
        now apply app_eq_nil in Ev as [_ Ev].
      + assert (Hin : exists k0, In (k0, r0) (toasts w2)).
        { unfold Map_values in Ev. destruct (toasts w2) as [|[k0 r1] m]; [discriminate|].
          simpl in Ev. inversion Ev; subst. exists k0. now left. }
        destruct Hin as (k0 & Hin).
        destruct Hwf2 as (W1 & W2 & W). destruct (W2 k0 r0 Hin) as (n0 & Hn0 & _).
        exact (Hclose r0 n0 Hn0).
    - unfold bind, ret. intros E. inversion E; subst c w'.
      split; [reflexivity|]. split; [exact En2|exact Hwf2]. }
  destruct H as (H1 & H2 & H3). split; [exact H1|]. split; [exact H2|].
  split; [|exact H3]. rewrite H2, length_app. simpl. lia.
Qed.

Lemma toast_forEach_close entries :
  forall w, wf w ->
  (forall k r, In (k, r) entries -> In (k, r) (toasts w)) ->
  let w' := snd (ToastManager.forEach_close entries w) in
  fst (ToastManager.forEach_close entries w) = Some tt
  /\ wf w' /\ toasts w' = toasts w
  /\ (forall t r, In t (timeouts w) -> callback t = CbDestroy r -> In t (timeouts w'))
  /\ (forall k r, In (k, r) entries ->
        exists t, In t (timeouts w') /\ callback t = CbDestroy r).
Proof.
  induction entries as [|[k r] rest IH]; intros w Hwf Hin.
  - simpl. split; [reflexivity|]. split; [exact Hwf|]. split; [reflexivity|].
    split; [auto|]. intros k r [].
  - destruct Hwf as (W1 & W2 & W). destruct (W2 k r) as (n & Hn & Hid);
      [apply Hin; now left|].
    pose proof (conj W1 (conj W2 W) : wf w) as Hwf.
    pose proof (toast_wf_close r n w Hwf Hn) as Hwf1.
    assert (E : ToastManager.forEach_close ((k, r) :: rest) w
                = ToastManager.forEach_close rest (snd (Toast.close r w))).
    { cbn [ToastManager.forEach_close]. unfold bind at 1, get.
      rewrite (existsb_key k r _ (Hin k r (or_introl eq_refl))).
      unfold bind at 1. now rewrite (toast_close_eq r n w Hn). }
    rewrite E. clear E. rewrite (toast_close_eq r n w Hn) in Hwf1 |- *.
    cbn [snd] in Hwf1 |- *.
    set (w1 := upd_nextHandle _ _) in *.
    assert (Hts1 : toasts w1 = toasts w) by (unfold w1; now destruct (timer n) as [[|h]|]).
    assert (Hkeep : forall t r0, In t (timeouts w) -> callback t = CbDestroy r0 ->
              In t (timeouts w1)).
    { intros t r0 Ht Hcb. unfold w1. simpl. apply in_or_app. left.
      destruct (timer n) as [[|h]|] eqn:Etn; simpl; try exact Ht.
      apply In_remove_handle. split; [exact Ht|]. intros Eh.
      destruct W as (_ & _ & _ & W6 & _).
      destruct (W6 r n (S h) Hn Etn) as [_ Hc]. rewrite (Hc t Ht Eh) in Hcb. discriminate. }
    assert (Hnew : exists t, In t (timeouts w1) /\ callback t = CbDestroy r).
    { eexists. split; [unfold w1; simpl; apply in_or_app; right; now left|reflexivity]. }
    destruct (IH w1 Hwf1) as (H1 & H2 & H3 & H4 & H5).
    { intros k0 r0 Hin0. rewrite Hts1. apply Hin. now right. }
    split; [exact H1|]. split; [exact H2|]. split; [now rewrite H3|].
    split.
    + intros t r0 Ht Hcb. apply (H4 t r0); [|exact Hcb]. exact (Hkeep t r0 Ht Hcb).
    + intros k0 r0 [E|Hin0].
      * inversion E; subst k0 r0. destruct Hnew as (t & Ht & Hcb).
        exists t. split; [exact (H4 t r Ht Hcb)|exact Hcb].
      * exact (H5 k0 r0 Hin0).
Qed.

Lemma toast_find_Some h ts t :
  List.find (fun t' => handle t' =? h) ts = Some t -> In t ts /\ handle t = h.
Proof.
  intros H. apply find_some in H as [Hin Hh]. split; [exact Hin|]. now apply Nat.eqb_eq.
Qed.

Lemma toast_wf_fire_timeout h w : wf w -> wf (snd (fire_timeout h w)).
Proof.
  intros Hwf. unfold fire_timeout. unfold bind at 1, get.
  destruct (List.find (fun t => handle t =? h) (timeouts w)) as [t|] eqn:Ef; [|exact Hwf].
  apply toast_find_Some in Ef as [Hin Hh].
  pose proof (toast_wf_clearTimeout h w Hwf) as Hwf1.
  unfold bind, clearTimeout, modify. unfold run_callback.
  destruct Hwf as (_ & _ & _ & _ & _ & _ & W7 & W8).
  destruct (callback t) as [r|r] eqn:Hcb.
  - destruct (W7 t r Hin Hcb) as (n & Hn & _).
    exact (toast_wf_close r n _ Hwf1 Hn).
  - destruct (W8 t r Hin Hcb) as (n & Hn).
    assert (Hn1 : heap (upd_timeouts (remove_handle h) w) !! r = Some n) by exact Hn.
    rewrite (toast_destroy_eq r n _ Hn1). cbn [snd]. now apply toast_wf_delete.
Qed.

Lemma toast_wf_step e w : wf w -> wf (step w e).
Proof.
  intros Hwf. destruct e as [o|r| |h]; unfold step, handler.
  - pose proof (toast_wf_constructor o w Hwf) as Hwf1.
    destruct (toast_constructor_cell o w) as (n & Hn & Hid & Hts & Hmax).
    unfold ToastManager.show. unfold bind at 1 2. rewrite toast_constructor_eq in *.
    cbn [snd] in *. set (w1 := if 0 <? default 3000 o then _ else _) in *.
    unfold bind at 1, this. rewrite Hn. unfold bind at 1, modify. unfold bind at 1, get.
    pose proof (toast_wf_set _ n w1 Hwf1 Hn) as Hwf2.
    set (w2 := upd_toasts (Map_set (id n) (length (heap w))) w1) in *.
    assert (Hend : forall m : M unit, wf (snd (m w2)) ->
              wf (snd (bind m (fun _ => ret (length (heap w))) w2))).
    { intros m Hm. unfold bind. destruct (m w2) as [[[]|] w3]; exact Hm. }
    assert (Hend' : forall (m : M nat) w0, wf (snd (m w0)) ->
              wf (snd (match m w0 with
                       | (Some a, w3) => ret tt w3
                       | (None, w3) => (None, w3)
                       end))).
    { intros m w0 Hm. destruct (m w0) as [[a|] w3]; exact Hm. }
    apply (Hend' (fun w0 => bind _ (fun _ => ret (length (heap w))) w0) w2).
    apply Hend.
    destruct (maxToasts w2 <? length (toasts w2)); [|exact Hwf2].
    destruct (Map_values (toasts w2)) as [|r0 rs] eqn:Ev; [exact Hwf2|].
    assert (Hin : exists k0, In (k0, r0) (toasts w2)).
    { unfold Map_values in Ev. destruct (toasts w2) as [|[k0 r1] m]; [discriminate|].
      simpl in Ev. inversion Ev; subst. exists k0. now left. }
    destruct Hin as (k0 & Hin).
    destruct Hwf2 as (W1 & W2 & W). destruct (W2 k0 r0 Hin) as (n0 & Hn0 & _).
    exact (toast_wf_close r0 n0 w2 (conj W1 (conj W2 W)) Hn0).
  - unfold Toast.close. unfold bind at 1, this.
    destruct (heap w !! r) as [n|] eqn:Hn; [|exact Hwf].
    pose proof (toast_wf_close r n w Hwf Hn) as H.
    unfold Toast.close in H. unfold bind at 1, this in H. now rewrite Hn in H.
  - unfold ToastManager.closeAll. unfold bind at 1, get.
    now apply (toast_forEach_close (toasts w) w Hwf).
  - now apply toast_wf_fire_timeout.
Qed.

Lemma toast_wf_run es w : wf w -> wf (run es w).
Proof.
  revert w. induction es as [|e es IH]; intros w Hwf; simpl; [exact Hwf|].
  apply IH. now apply toast_wf_step.
Qed.

Lemma toast_wf_initial rnd : wf (initial rnd).
Proof.
  split; [apply NoDup_nil_2|]. split; [intros k r []|]. split; [apply NoDup_nil_2|].
  split; [simpl; lia|]. split; [intros t []|]. split; [|split; intros t r []].
  intros r n h Hn. simpl in Hn. rewrite lookup_nil in Hn. discriminate.
Qed.

(** X14 at work: the sixth toast; the first one stays in the map. *)
Lemma X14_witness :
  let w := Toasts.run (replicate 5 (Toasts.Show None)) (Toasts.initial distinct_draws) in
  let w' := snd (Toasts.ToastManager.show None w) in
  fst (Toasts.ToastManager.show None w) = Some (length (Toasts.heap w))
  /\ Toasts.toasts w'
     = Toasts.toasts w ++ [(Toasts.random w (Toasts.draws w), length (Toasts.heap w))]
  /\ length (Toasts.toasts w') = S (length (Toasts.toasts w))
  /\ Toasts.wf w'.
Proof.
  intros w w'. apply (X14_toast_show_registers_and_removes_nothing None w).
  - apply toast_wf_run, toast_wf_initial.
  - vm_compute. intros H. repeat (destruct H as [H|H]; [discriminate|]). exact H.
Defined.

Lemma Callback_eqb_eq a b : Callback_eqb a b = true <-> a = b.
Proof.
  destruct a as [r|r], b as [r'|r']; simpl; rewrite ?Nat.eqb_eq;
    split; intros H; try discriminate; congruence.
Qed.

Lemma filter_after_filter {A} (p q : A -> bool) (l : list A) :
  (forall x, In x l -> p x = true -> q x = true) ->
  List.filter p (List.filter q l) = List.filter p l.
Proof.
  induction l as [|x l IH]; simpl; intros H; [reflexivity|].
  destruct (q x) eqn:Eq; simpl.
  - rewrite IH by auto. reflexivity.
  - destruct (p x) eqn:Ep.
    + rewrite (H x (or_introl eq_refl) Ep) in Eq. discriminate.
    + apply IH. auto.
Qed.

Lemma filter_none {A} (p : A -> bool) (l : list A) :
  (forall x, In x l -> p x = false) -> List.filter p l = [].
Proof.
  induction l as [|x l IH]; simpl; intros H; [reflexivity|].
  rewrite (H x (or_introl eq_refl)). apply IH. auto.
Qed.

(** X15. [Toast.close] has no guard. Every call (the close button, the
    timer, [closeAll], the eviction in [show]) schedules one more [destroy],
    also on a toast that is closing already; it cancels the auto-close
    callback of the toast, and it leaves the map as it is: the toast is
    unregistered only when a scheduled [destroy] runs. *)
Theorem X15_toast_close_schedules_one_more_destroy
    (w : Toasts.World) (r : Ref) (n : Toasts.Toast) :
  Toasts.wf w -> Toasts.heap w !! r = Some n ->
  let w' := snd (Toasts.Toast.close r w) in
  fst (Toasts.Toast.close r w) = Some tt
  /\ Toasts.pending (CbDestroy r) w' = S (Toasts.pending (CbDestroy r) w)
  /\ Toasts.pending (CbClose r) w' = 0
  /\ Toasts.toasts w' = Toasts.toasts w.
Proof.
  intros (W1 & W2 & W3 & W4 & W5 & W6 & W7 & W8) Hn w'. unfold w'. clear w'.
  rewrite (toast_close_eq r n w Hn). cbn [fst snd]. split; [reflexivity|].
  set (ts := timeouts (match timer n with
                       | Some (S h) =>
                           upd_heap (alter (set_timer None) r)
                             (upd_timeouts (remove_handle (S h)) w)
                       | _ => w
                       end)).
  assert (Hsub : forall t, In t ts -> In t (timeouts w)).
  { intros t. unfold ts. destruct (timer n) as [[|h]|]; simpl; auto.
    intros Hin. now apply In_remove_handle in Hin as [Hin _]. }
  assert (Hd : List.filter (fun t => Callback_eqb (callback t) (CbDestroy r)) ts
               = List.filter (fun t => Callback_eqb (callback t) (CbDestroy r)) (timeouts w)).
  { unfold ts. destruct (timer n) as [[|h]|] eqn:Ht; simpl; try reflexivity.
    unfold remove_handle. apply filter_after_filter. intros t Hin Hcb.
    apply Callback_eqb_eq in Hcb. apply negb_true_iff, Nat.eqb_neq. intros Eh.
    destruct (W6 r n (S h) Hn Ht) as [_ Hc]. rewrite (Hc t Hin Eh) in Hcb. discriminate. }
  assert (Hc : List.filter (fun t => Callback_eqb (callback t) (CbClose r)) ts = []).
  { apply filter_none. intros t Hin.
    destruct (Callback_eqb (callback t) (CbClose r)) eqn:Hcb; [|reflexivity]. exfalso.
    apply Callback_eqb_eq in Hcb.
    destruct (W7 t r (Hsub t Hin) Hcb) as (n0 & Hn0 & Ht0).
    rewrite Hn in Hn0. inversion Hn0; subst n0.
    destruct (W6 r n _ Hn Ht0) as [Hpos _].
    unfold ts in Hin. rewrite Ht0 in Hin. destruct (handle t) as [|h] eqn:Eh; [lia|].
    simpl in Hin. apply In_remove_handle in Hin as [_ Hne]. congruence. }
  assert (Ets : forall cb, pending cb (upd_nextHandle (S (nextHandle w))
                  (upd_timeouts (fun ts0 => ts0 ++ [{| handle := nextHandle w; delay := 300;
                                                      callback := CbDestroy r |}])
                     (match timer n with
                      | Some (S h) =>
                          upd_heap (alter (set_timer None) r)
                            (upd_timeouts (remove_handle (S h)) w)
                      | _ => w
                      end)))
                = length (List.filter (fun t => Callback_eqb (callback t) cb) ts)
                  + (if Callback_eqb (CbDestroy r) cb then 1 else 0)).
  { intros cb. unfold pending. cbn [timeouts upd_nextHandle upd_timeouts]. fold ts.
    rewrite List.filter_app, length_app. cbn [List.filter callback].
    destruct (Callback_eqb (CbDestroy r) cb); reflexivity. }
  split; [|split].
  - rewrite Ets, Hd. simpl. rewrite Nat.eqb_refl. unfold pending. lia.
  - rewrite Ets, Hc. reflexivity.
  - now destruct (timer n) as [[|h]|].
Qed.

(** X15 at work: the close button of a toast, clicked twice. *)
Lemma X15_witness :
  let w := Toasts.run [Toasts.Show None; Toasts.Close 0] (Toasts.initial distinct_draws) in
  let w' := snd (Toasts.Toast.close 0 w) in
  Toasts.pending (CbDestroy 0) w = 1
  /\ fst (Toasts.Toast.close 0 w) = Some tt
  /\ Toasts.pending (CbDestroy 0) w' = S (Toasts.pending (CbDestroy 0) w)
  /\ Toasts.pending (CbClose 0) w' = 0
  /\ Toasts.toasts w' = Toasts.toasts w.
Proof.
  intros w w'. split; [vm_compute; reflexivity|].
  apply (X15_toast_close_schedules_one_more_destroy w 0
           {| duration := 3000; id := 0; timer := None |}).
  - apply toast_wf_run, toast_wf_initial.
  - vm_compute. reflexivity.
Defined.

Lemma same_handle_eq (t1 t2 : Timeout) ts :
  NoDup (map handle ts) -> In t1 ts -> In t2 ts -> handle t1 = handle t2 -> t1 = t2.
Proof.
  intros Hnd H1 H2 E.
  pose proof (find_handle t1 ts Hnd H1) as F1.
  pose proof (find_handle t2 ts Hnd H2) as F2. rewrite E in F1. congruence.
Qed.

Lemma toast_close_keeps_destroy r n t r0 w :
  wf w -> heap w !! r = Some n ->
  In t (timeouts w) -> callback t = CbDestroy r0 ->
  In t (timeouts (snd (Toast.close r w))).
Proof.
  intros (W1 & W2 & W3 & W4 & W5 & W6 & W7 & W8) Hn Ht Hcb.
  rewrite (toast_close_eq r n w Hn). simpl. apply in_or_app. left.
  destruct (timer n) as [[|h]|] eqn:Etn; simpl; try exact Ht.
  apply In_remove_handle. split; [exact Ht|]. intros Eh.
  destruct (W6 r n (S h) Hn Etn) as [_ Hc]. rewrite (Hc t Ht Eh) in Hcb. discriminate.
Qed.

Lemma toast_fire_timeout_eq h w :
  snd (fire_timeout h w)
  = match List.find (fun t => handle t =? h) (timeouts w) with
    | Some t => snd (run_callback (callback t) (upd_timeouts (remove_handle h) w))
    | None => w
    end.
Proof.
  unfold fire_timeout, bind, get, clearTimeout, modify.
  destruct (List.find (fun t => handle t =? h) (timeouts w)); reflexivity.
Qed.

(** Firing one handle keeps, for every toast still registered, the [destroy]
    that is pending for it, unless that was the callback fired. *)
Lemma toast_fire_keeps h w :
  wf w ->
  forall k r, In (k, r) (toasts (snd (fire_timeout h w))) ->
  In (k, r) (toasts w)
  /\ forall t, In t (timeouts w) -> callback t = CbDestroy r ->
       In t (timeouts (snd (fire_timeout h w))) /\ handle t <> h.
Proof.
  intros Hwf k r. pose proof Hwf as (W1 & W2 & W3 & W4 & W5 & W6 & W7 & W8).
  rewrite toast_fire_timeout_eq.
  destruct (List.find (fun t => handle t =? h) (timeouts w)) as [t'|] eqn:Ef.
  - apply toast_find_Some in Ef as [Hin' Hh'].
    pose proof (toast_wf_clearTimeout h w Hwf) as Hwf1.
    unfold run_callback.
    set (w0 := upd_timeouts (remove_handle h) w) in *.
    destruct (callback t') as [r'|r'] eqn:Hcb'.
    + destruct (W7 t' r' Hin' Hcb') as (n' & Hn' & _).
      assert (Hn0 : heap w0 !! r' = Some n') by exact Hn'.
      intros Hin. split.
      * rewrite (toast_close_eq r' n' w0 Hn0) in Hin.
        now destruct (timer n') as [[|h0]|].
      * intros t Ht Hcb.
        assert (Hne : handle t <> h).
        { intros Eh. rewrite <- Hh' in Eh.
          pose proof (same_handle_eq t t' _ W3 Ht Hin' Eh) as ->. congruence. }
        split; [|exact Hne].
        apply (toast_close_keeps_destroy r' n' t r w0 Hwf1 Hn0); [|exact Hcb].
        apply In_remove_handle. now split.
    + destruct (W8 t' r' Hin' Hcb') as (n' & Hn').
      assert (Hn0 : heap w0 !! r' = Some n') by exact Hn'.
      rewrite (toast_destroy_eq r' n' w0 Hn0). cbn [snd toasts upd_toasts timeouts].
      intros Hin. assert (Hin0 : In (k, r) (toasts w)) by (now apply Map_delete_In in Hin).
      split; [exact Hin0|].
      intros t Ht Hcb.
      assert (Hne : handle t <> h).
      { intros Eh. rewrite <- Hh' in Eh.
        pose proof (same_handle_eq t t' _ W3 Ht Hin' Eh) as ->.
        rewrite Hcb' in Hcb. inversion Hcb; subst r'.
        destruct (W2 k r Hin0) as (n0 & Hn0' & Hid). rewrite Hn' in Hn0'.
        inversion Hn0'; subst n0. rewrite Hid in Hin.
        exact (Map_delete_not_In _ _ _ W1 Hin). }
      split; [|exact Hne]. apply In_remove_handle. now split.
  - intros Hin. split; [exact Hin|]. intros t Ht Hcb. split; [exact Ht|].
    intros Eh. pose proof (find_none _ _ Ef t Ht) as Hf. simpl in Hf.
    apply Nat.eqb_neq in Hf. contradiction.
Qed.

Lemma toast_flush_loop ts :
  forall w, wf w ->
  (forall k r, In (k, r) (toasts w) ->
     exists t, In t (timeouts w) /\ callback t = CbDestroy r /\ In t ts) ->
  toasts (run (map (fun t => TimeoutFires (handle t)) ts) w) = [].
Proof.
  induction ts as [|t0 ts IH]; intros w Hwf Hall; simpl.
  - destruct (toasts w) as [|[k r] m]; [reflexivity|].
    destruct (Hall k r (or_introl eq_refl)) as (t & _ & _ & []).
  - apply IH; [now apply toast_wf_step|].
    intros k r Hin. unfold step, handler in Hin |- *.
    destruct (toast_fire_keeps (handle t0) w Hwf k r Hin) as [Hin0 Hkeep].
    destruct (Hall k r Hin0) as (t & Ht & Hcb & Hts).
    destruct (Hkeep t Ht Hcb) as [Ht1 Hne].
    exists t. split; [exact Ht1|]. split; [exact Hcb|].
    destruct Hts as [<-|Hts]; [contradiction|exact Hts].
Qed.

(** X16. [closeAll] removes nothing by itself: at the end of the call the map
    is as it was. It completes, and once the timeouts pending at that moment
    have fired, in any state of the toasts before the call, the map is
    empty. *)
Theorem X16_toasts_are_gone_once_the_timeouts_of_closeAll_fired (w : Toasts.World) :
  Toasts.wf w ->
  let w1 := snd (Toasts.ToastManager.closeAll w) in
  fst (Toasts.ToastManager.closeAll w) = Some tt
  /\ Toasts.toasts w1 = Toasts.toasts w
  /\ Toasts.toasts (Toasts.flush w1) = [].
Proof.
  intros Hwf w1.
  assert (E : ToastManager.closeAll w = ToastManager.forEach_close (toasts w) w)
    by reflexivity.
  unfold w1. rewrite E.
  destruct (toast_forEach_close (toasts w) w Hwf) as (H1 & H2 & H3 & _ & H5); [auto|].
  split; [exact H1|]. split; [exact H3|].
  unfold flush. apply toast_flush_loop; [exact H2|].
  intros k r Hin. rewrite H3 in Hin. destruct (H5 k r Hin) as (t & Ht & Hcb).
  exists t. auto.
Qed.

(** X16 at work: three toasts, one of them without a timer and one closed
    already. *)
Lemma X16_witness :
  let w := Toasts.run [Toasts.Show None; Toasts.Show (Some 0); Toasts.Show (Some 10);
                       Toasts.Close 0]
             (Toasts.initial distinct_draws) in
  let w1 := snd (Toasts.ToastManager.closeAll w) in
  length (Toasts.toasts w) = 3
  /\ fst (Toasts.ToastManager.closeAll w) = Some tt
  /\ Toasts.toasts w1 = Toasts.toasts w
  /\ Toasts.toasts (Toasts.flush w1) = [].
Proof.
  intros w w1. split; [vm_compute; reflexivity|].
  apply (X16_toasts_are_gone_once_the_timeouts_of_closeAll_fired w).
  apply toast_wf_run, toast_wf_initial.
Defined.

Lemma toast_bind_snd_ret {A B} (m : M A) (b : B) w :
  snd (bind m (fun _ => ret b) w) = snd (m w).
Proof. unfold bind. now destruct (m w) as [[a|] w']. Qed.

(** What [show] leaves: the toast filed, and over the bound an older toast
    told to close. *)
Lemma toast_show_cases o w :
  wf w ->
  ~ In (random w (draws w)) (map fst (toasts w)) ->
  toasts w <> [] \/ 1 <= maxToasts w ->
  let r := length (heap w) in
  let w2 := upd_toasts (Map_set (random w (draws w)) r) (snd (Toast.constructor o w)) in
  wf w2
  /\ toasts w2 = toasts w ++ [(random w (draws w), r)]
  /\ (step w (Show o) = w2
      \/ exists r0 n0, r0 <> r /\ heap w2 !! r0 = Some n0
           /\ step w (Show o) = snd (Toast.close r0 w2)).
Proof.
  intros Hwf Hfresh Hne r w2.
  pose proof (toast_wf_constructor o w Hwf) as Hwf1.
  destruct (toast_constructor_cell o w) as (n & Hn & Hid & Hts & Hmax).
  assert (Ec : Toast.constructor o w = (Some r, snd (Toast.constructor o w)))
    by (now rewrite toast_constructor_eq).
  pose proof (toast_wf_set _ n _ Hwf1 Hn) as Hwf2. rewrite Hid in Hwf2. fold r w2 in Hwf2.
  assert (En2 : toasts w2 = toasts w ++ [(random w (draws w), r)]).
  { unfold w2. simpl. rewrite Hts. now apply Map_set_fresh. }
  split; [exact Hwf2|]. split; [exact En2|].
  assert (E : step w (Show o)
              = snd ((if maxToasts w2 <? length (toasts w2) then
                        match Map_values (toasts w2) with
                        | oldestToast :: _ => Toast.close oldestToast
                        | [] => raise
                        end
                      else ret tt) w2)).
  { unfold step, handler. rewrite toast_bind_snd_ret. unfold ToastManager.show.
    unfold bind at 1. rewrite Ec. unfold bind at 1, this. fold r in Hn. rewrite Hn, Hid.
    unfold bind at 1, modify. unfold bind at 1, get. fold w2.
    apply toast_bind_snd_ret. }
  rewrite E. clear E.
  destruct (maxToasts w2 <? length (toasts w2)) eqn:Hfull; [|now left].
  destruct (toasts w) as [|[k0 r0] rest] eqn:Et.
  - exfalso. apply Nat.ltb_lt in Hfull. rewrite En2 in Hfull. simpl in Hfull.
    unfold w2 in Hfull. simpl in Hfull. rewrite Hmax in Hfull.
    destruct Hne as [Hne|Hne]; [congruence|lia].
  - rewrite En2. simpl Map_values. right.
    destruct Hwf as (_ & W2 & _). destruct (W2 k0 r0) as (n0 & Hn0 & _);
      [rewrite Et; now left|].
    assert (Hlt : r0 < r) by (now apply lookup_lt_Some in Hn0).
    destruct Hwf2 as (_ & W22 & _). destruct (W22 k0 r0) as (n2 & Hn2 & _);
      [rewrite En2; now left|].
    exists r0, n2. split; [lia|]. split; [exact Hn2|reflexivity].
Qed.

(** X17. A toast with a positive duration removes itself in two timeouts:
    [show] arms the auto-close callback with that duration (3000 when the
    caller gives none); when it fires the toast is still in the map and a
    [destroy] is armed for 300 ms later; when that fires the toast is gone. A
    toast shown with [duration: 0] gets no auto-close callback at all. *)
Theorem X17_toast_removes_itself_in_two_timeouts (o : option nat) (w : Toasts.World) :
  Toasts.wf w ->
  ~ In (Toasts.random w (Toasts.draws w)) (map fst (Toasts.toasts w)) ->
  Toasts.toasts w <> [] \/ 1 <= Toasts.maxToasts w ->
  let r := length (Toasts.heap w) in
  let i := Toasts.random w (Toasts.draws w) in
  let d := default 3000 o in
  let w1 := Toasts.step w (Toasts.Show o) in
  if 0 <? d then
    In {| handle := Toasts.nextHandle w; delay := d; callback := CbClose r |}
       (Toasts.timeouts w1)
    /\ let w2 := Toasts.step w1 (Toasts.TimeoutFires (Toasts.nextHandle w)) in
       Map_get i (Toasts.toasts w2) = Some r
       /\ In {| handle := Toasts.nextHandle w1; delay := 300; callback := CbDestroy r |}
             (Toasts.timeouts w2)
       /\ Map_get i (Toasts.toasts
                       (Toasts.step w2 (Toasts.TimeoutFires (Toasts.nextHandle w1))))
          = None
  else forall t, In t (Toasts.timeouts w1) -> callback t <> CbClose r.
Proof.
  intros Hwf Hfresh Hne r i d w1.
  destruct (toast_show_cases o w Hwf Hfresh Hne) as (Hwf2 & En2 & Hcases).
  fold r i in Hcases, En2, Hwf2.
  set (w2 := upd_toasts (Map_set i r) (snd (Toast.constructor o w))) in *.
  assert (Hwf1 : wf w1) by (now apply toast_wf_step).
  (* the new toast and the older timeouts, in w2 *)
  assert (H2 : if 0 <? d then
                 In {| handle := nextHandle w; delay := d; callback := CbClose r |}
                    (timeouts w2)
                 /\ heap w2 !! r = Some {| duration := d; id := i;
                                           timer := Some (nextHandle w) |}
               else forall t, In t (timeouts w2) -> callback t <> CbClose r).
  { unfold w2. rewrite toast_constructor_eq. cbn [snd]. fold d r i.
    destruct (0 <? d) eqn:Hd.
    - split.
      + simpl. apply in_or_app. right. now left.
      + simpl. rewrite list_lookup_alter_eq, list_lookup_middle by reflexivity.
        reflexivity.
    - simpl. intros t Hin Hcb. destruct Hwf as (_ & _ & _ & _ & _ & _ & W7 & _).
      destruct (W7 t r Hin Hcb) as (n0 & Hn0 & _). apply lookup_lt_Some in Hn0.
      unfold r in Hn0. lia. }
  (* the same in w1 *)
  assert (H1 : toasts w1 = toasts w2
               /\ if 0 <? d then
                    In {| handle := nextHandle w; delay := d; callback := CbClose r |}
                       (timeouts w1)
                    /\ heap w1 !! r = Some {| duration := d; id := i;
                                              timer := Some (nextHandle w) |}
                  else forall t, In t (timeouts w1) -> callback t <> CbClose r).
  { fold w1 in Hcases. destruct Hcases as [-> | (r0 & n0 & Hr0 & Hn0 & ->)];
      [split; [reflexivity|exact H2]|].
    rewrite (toast_close_eq r0 n0 w2 Hn0). cbn [snd]. split.
    { now destruct (timer n0) as [[|h]|]. }
    destruct (0 <? d).
    - destruct H2 as [Hin Hcell]. split.
      + simpl. apply in_or_app. left.
        destruct (timer n0) as [[|h]|] eqn:Ht; simpl; try exact Hin.
        apply In_remove_handle. split; [exact Hin|]. simpl. intros Eh.
        destruct Hwf2 as (_ & _ & _ & _ & _ & W6 & _).
        destruct (W6 r0 n0 (S h) Hn0 Ht) as [_ Hc].
        specialize (Hc _ Hin Eh). simpl in Hc. congruence.
      + destruct (timer n0) as [[|h]|]; simpl; try exact Hcell.
        now rewrite list_lookup_alter_ne by congruence.
    - intros t Hin. simpl in Hin. apply in_app_or in Hin as [Hin|[<-|[]]]; [|discriminate].
      apply H2. destruct (timer n0) as [[|h]|]; simpl in Hin; try exact Hin.
      now apply In_remove_handle in Hin as [Hin _]. }
  destruct H1 as [Ets1 H1]. destruct (0 <? d); [|exact H1].
  destruct H1 as [Hin1 Hcell1]. split; [exact Hin1|].
  set (t := {| handle := nextHandle w; delay := d; callback := CbClose r |}) in *.
  (* the first timeout *)
  pose proof Hwf1 as (_ & _ & W3 & _).
  assert (E2 : step w1 (TimeoutFires (nextHandle w))
               = snd (Toast.close r (upd_timeouts (remove_handle (nextHandle w)) w1))).
  { unfold step, handler. rewrite toast_fire_timeout_eq.
    change (nextHandle w) with (handle t). now rewrite (find_handle t _ W3 Hin1). }
  set (w1' := upd_timeouts (remove_handle (nextHandle w)) w1) in *.
  assert (Hcell1' : heap w1' !! r = Some {| duration := d; id := i;
                                            timer := Some (nextHandle w) |}) by exact Hcell1.
  rewrite (toast_close_eq r _ w1' Hcell1') in E2. cbn [snd timer] in E2.
  assert (Hreg : In (i, r) (toasts w1)).
  { rewrite Ets1, En2. apply in_or_app. right. now left. }
  pose proof Hwf1 as (W1 & _).
  assert (Hget : Map_get i (toasts w1) = Some r) by (now apply Map_In_get).
  assert (Hh : 1 <= nextHandle w) by (destruct Hwf as (_ & _ & _ & W4 & _); exact W4).
  destruct (nextHandle w) as [|h] eqn:Eh; [lia|].
  cbv zeta. rewrite E2. cbn [toasts timeouts upd_nextHandle upd_timeouts upd_heap nextHandle].
  split; [exact Hget|]. split; [apply in_or_app; right; now left|].
  (* the second timeout *)
  set (t' := {| handle := nextHandle w1; delay := 300; callback := CbDestroy r |}).
  set (w3 := upd_nextHandle (S (nextHandle w1')) _) in *.
  assert (Hwf3 : wf w3).
  { rewrite <- E2. now apply toast_wf_step. }
  pose proof Hwf3 as (_ & _ & W33 & _).
  assert (Hin3 : In t' (timeouts w3)).
  { unfold w3. simpl. apply in_or_app. right. now left. }
  unfold step, handler. rewrite toast_fire_timeout_eq.
  change (nextHandle w1) with (handle t'). rewrite (find_handle t' _ W33 Hin3).
  cbn [callback t' run_callback].
  assert (Hcell3 : heap (upd_timeouts (remove_handle (handle t')) w3) !! r
                   = Some (set_timer None {| duration := d; id := i;
                                             timer := Some (S h) |})).
  { unfold w3. simpl. now rewrite list_lookup_alter_eq, Hcell1. }
  rewrite (toast_destroy_eq r _ _ Hcell3). cbn [snd toasts upd_toasts upd_timeouts].
  unfold w3. cbn [toasts upd_nextHandle upd_timeouts upd_heap set_timer id].
  apply Map_get_delete_same. exact W1.
Qed.

(** X17 at work: a default toast on a fresh page. *)
Lemma X17_witness :
  let w := Toasts.initial distinct_draws in
  let w1 := Toasts.step w (Toasts.Show None) in
  In {| handle := 1; delay := 3000; callback := CbClose 0 |} (Toasts.timeouts w1)
  /\ let w2 := Toasts.step w1 (Toasts.TimeoutFires 1) in
     Map_get 0 (Toasts.toasts w2) = Some 0
     /\ In {| handle := 2; delay := 300; callback := CbDestroy 0 |} (Toasts.timeouts w2)
     /\ Map_get 0 (Toasts.toasts (Toasts.step w2 (Toasts.TimeoutFires 2))) = None.
Proof.
  intros w w1.
  apply (X17_toast_removes_itself_in_two_timeouts None w).
  - apply toast_wf_initial.
  - simpl. tauto.
  - right. simpl. lia.
Defined.

End Toast_facts.
